(** * spikeinterface: the toy recording generator

    A shallow embedding of [spikeinterface/extractors/toy_example.py].

    Numbers.  NumPy [float64] arrays are modelled as lists of rationals
    ([Q]): every finite double is a rational, and the arithmetic is taken
    exact.  A computed entry is stored in lowest terms ([fl]), so that a
    value has one representation and the model can be run.  An operation
    whose IEEE result is [inf] or [nan] (a division by zero on arrays)
    leaves the rational model: it is reported as the outcome [NotFinite],
    and the model does not follow the run further.  [np.inf] itself, which the
    refractory repair appends to its differences, is the constructor
    [PInf] of the extended rationals [Qinf].  [int64] arrays are lists of
    [Z]; Python [int]s are [Z]. *)

From Stdlib Require Import ZArith QArith Qround Qabs List Bool Lia Lqa.
From Stdlib Require Import Sorting.Sorted Sorting.Permutation.
From Equations Require Import Equations.
Import ListNotations.

Open Scope Q_scope.

(* ===================================================================== *)
(** * Python and NumPy primitives                                         *)
(* ===================================================================== *)

Module Py.

(** How a call can end other than by returning. *)
Inductive failure : Type :=
| ZeroDivisionError
| IndexError
| ValueError
| TypeError
| AssertionError
| NotFinite (* an IEEE inf or nan was produced: outside the rational model *).

Inductive result (A : Type) : Type :=
| Ok (a : A)
| Raise (e : failure).
Arguments Ok {A} a.
Arguments Raise {A} e.

(** Whether a call returned. *)
Definition returns {A} (r : result A) : bool :=
  match r with
  | Ok _ => true
  | Raise _ => false
  end.

Definition bind {A B} (r : result A) (k : A -> result B) : result B :=
  match r with
  | Ok a => k a
  | Raise e => Raise e
  end.

Notation "x <- c ;; k" := (bind c (fun x => k))
  (at level 61, c at next level, right associativity).
Notation "' pat <- c ;; k" := (bind c (fun x => match x with pat => k end))
  (at level 61, pat pattern, c at next level, right associativity).

(** [for x in xs: acc = body(acc, x)], stopping at the first exception. *)
Fixpoint foldM {A S} (body : S -> A -> result S) (xs : list A) (acc : S)
  : result S :=
  match xs with
  | [] => Ok acc
  | x :: xs' => bind (body acc x) (foldM body xs')
  end.

Fixpoint mapM {A B} (f : A -> result B) (xs : list A) : result (list B) :=
  match xs with
  | [] => Ok []
  | x :: xs' =>
      bind (f x) (fun y => bind (mapM f xs') (fun ys => Ok (y :: ys)))
  end.

(** A computed float, stored: the rational in lowest terms. *)
Definition fl (q : Q) : Q := Qred q.

(** Extended rationals, for arrays that hold [np.inf]. *)
Inductive Qinf : Type :=
| Fin (q : Q)
| PInf.

(** [x <= r] and [x >= r] for a finite [r]. *)
Definition Qinf_le (x : Qinf) (r : Q) : bool :=
  match x with
  | Fin q => Qle_bool q r
  | PInf => false
  end.

Definition Qinf_ge (x : Qinf) (r : Q) : bool :=
  match x with
  | Fin q => Qle_bool r q
  | PInf => true
  end.

(** Elementwise binary operation on two arrays of the same length. *)
Fixpoint map2 {A B C} (f : A -> B -> C) (xs : list A) (ys : list B)
  : list C :=
  match xs, ys with
  | x :: xs', y :: ys' => f x y :: map2 f xs' ys'
  | _, _ => []
  end.

(** [np.where(mask)[0]]: the indices at which [mask] is true. *)
Fixpoint where_ (mask : list bool) : list nat :=
  match mask with
  | [] => []
  | b :: mask' => (if b then [0%nat] else []) ++ map S (where_ mask')
  end.

(** [a[i] = v] for an index known to be in range. *)
Fixpoint set_nth {A} (i : nat) (v : A) (a : list A) : list A :=
  match a, i with
  | [], _ => []
  | _ :: a', O => v :: a'
  | x :: a', S i' => x :: set_nth i' v a'
  end.

(** [a[inds] = v] for an index array [inds]. *)
Definition set_all {A} (inds : list nat) (v : A) (a : list A) : list A :=
  fold_left (fun acc i => set_nth i v acc) inds a.

(** [np.sort] on floats (insertion sort; the sorted array of values does
    not depend on the algorithm). *)
Fixpoint insert_sorted (x : Q) (l : list Q) : list Q :=
  match l with
  | [] => [x]
  | y :: l' => if Qle_bool x y then x :: l else y :: insert_sorted x l'
  end.

Definition sort (l : list Q) : list Q := fold_right insert_sorted [] l.

(** [int(x)], [np.int64(x)], [a.astype('int64')] on a finite float:
    truncation toward zero. *)
Definition Qtruncate (q : Q) : Z := Z.quot (Qnum q) (Zpos (Qden q)).

(** The values a caller may pass for [duration]: a number, or a list of
    numbers. *)
Inductive pynumber : Type :=
| PyInt (z : Z)
| PyFloat (q : Q).

Inductive pyvalue : Type :=
| PyNum (x : pynumber)
| PyList (l : list pynumber).

Definition isinstance_int (v : pyvalue) : bool :=
  match v with PyNum (PyInt _) => true | _ => false end.
Definition isinstance_float (v : pyvalue) : bool :=
  match v with PyNum (PyFloat _) => true | _ => false end.
Definition isinstance_list (v : pyvalue) : bool :=
  match v with PyList _ => true | _ => false end.

(** [v * f] and [f * v] for a Python float [f]: a number is multiplied, a
    list is not ([TypeError: can't multiply sequence by non-int of type
    'float']). *)
Definition mul_float (v : pyvalue) (f : Q) : result Q :=
  match v with
  | PyNum (PyInt z) => Ok (inject_Z z * f)
  | PyNum (PyFloat q) => Ok (q * f)
  | PyList _ => Raise TypeError
  end.

(** A size argument ([np.zeros(n)], [rand(n)], ...): negative sizes raise. *)
Definition size_arg (n : Z) : result nat :=
  if (n <? 0)%Z then Raise ValueError else Ok (Z.to_nat n).

(** [a[i]] for a Python integer [i]: negative indices count from the end. *)
Definition getitem {A} (a : list A) (i : Z) : result A :=
  let n := Z.of_nat (length a) in
  let j := if (i <? 0)%Z then (i + n)%Z else i in
  if ((0 <=? j) && (j <? n))%Z
  then match nth_error a (Z.to_nat j) with
       | Some x => Ok x
       | None => Raise IndexError
       end
  else Raise IndexError.

(** [a[inds]] for an array of non-negative indices. *)
Definition take {A} (a : list A) (inds : list nat) : result (list A) :=
  mapM (fun i => getitem a (Z.of_nat i)) inds.

(** [a[mask]] for a boolean mask of the same length. *)
Fixpoint select {A} (a : list A) (mask : list bool) : list A :=
  match a, mask with
  | x :: a', b :: mask' => if b then x :: select a' mask' else select a' mask'
  | _, _ => []
  end.

(** [np.argsort] on integers, as a stable insertion sort of the indices.
    NumPy leaves the order of equal keys open. *)
Fixpoint insert_by_key (x : Z * nat) (l : list (Z * nat)) : list (Z * nat) :=
  match l with
  | [] => [x]
  | y :: l' => if (fst x <=? fst y)%Z then x :: l else y :: insert_by_key x l'
  end.

Definition argsort (a : list Z) : list nat :=
  map snd (fold_right insert_by_key [] (combine a (seq 0 (length a)))).

(** [range(n)] *)
Definition range (n : Z) : list Z := map Z.of_nat (seq 0 (Z.to_nat n)).

(** [np.sum] and [np.cumsum] *)
Definition sum (a : list Q) : Q := fold_left Qplus a 0.

Fixpoint cumsum_from (acc : Q) (a : list Q) : list Q :=
  match a with
  | [] => []
  | x :: a' => (acc + x) :: cumsum_from (acc + x) a'
  end.

Definition cumsum (a : list Q) : list Q := cumsum_from 0 a.

(** [np.round]: to the nearest integer, halves to the even neighbour. *)
Definition Qround_half_even (q : Q) : Z :=
  let f := Qfloor q in
  match Qcompare (q - inject_Z f) (1 # 2) with
  | Lt => f
  | Gt => (f + 1)%Z
  | Eq => if Z.even f then f else (f + 1)%Z
  end.

(** [np.roll(a, shift)]: the element at [i] moves to [(i + shift) mod n]. *)
Definition roll {A} (a : list A) (shift : Z) : list A :=
  let n := length a in
  match n with
  | O => a
  | _ => let s := Z.to_nat (shift mod Z.of_nat n) in
         skipn (n - s) a ++ firstn (n - s) a
  end.

(** A bound of a slice [a[start:stop]] on an array of length [len]:
    negative bounds count from the end, and both are clipped. *)
Definition slice_bound (len i : Z) : Z :=
  if (i <? 0)%Z then Z.max 0 (i + len) else Z.min i len.

(** Broadcasting a one-dimensional [v] to [width] entries: [v] must have
    that length, or length one. *)
Definition broadcast_to {A} (v : list A) (width : nat) : result (list A) :=
  if Nat.eqb (length v) width then Ok v
  else match v with
       | [x] => Ok (repeat x width)
       | _ => Raise ValueError
       end.

(** [a[start:stop]] *)
Definition get_slice {A} (a : list A) (start stop : Z) : list A :=
  let len := Z.of_nat (length a) in
  let lo := slice_bound len start in
  let hi := slice_bound len stop in
  firstn (Z.to_nat (hi - lo)) (skipn (Z.to_nat lo) a).

(** [a[start:stop] = v] *)
Definition set_slice {A} (a : list A) (start stop : Z) (v : list A)
  : result (list A) :=
  let len := Z.of_nat (length a) in
  let lo := slice_bound len start in
  let hi := slice_bound len stop in
  let width := Z.to_nat (hi - lo) in
  fill <- broadcast_to v width ;;
  Ok (firstn (Z.to_nat lo) a ++ fill ++ skipn (Z.to_nat lo + width) a).

(** [a[start::step]]: the indices visited by a slice with a step and no
    stop. *)
Definition strided_indices (len start step : Z) : list Z :=
  if (0 <? step)%Z then
    let lo := slice_bound len start in
    let count := if (lo <? len)%Z then ((len - lo - 1) / step + 1)%Z else 0%Z in
    map (fun i => (lo + i * step)%Z) (range count)
  else
    let hi := if (start <? 0)%Z then Z.max (-1) (start + len)
              else Z.min start (len - 1) in
    let count := if (0 <=? hi)%Z then (hi / (- step) + 1)%Z else 0%Z in
    map (fun i => (hi + i * step)%Z) (range count).

Definition strided {A} (a : list A) (start step : Z) : result (list A) :=
  if (step =? 0)%Z then Raise ValueError
  else mapM (getitem a) (strided_indices (Z.of_nat (length a)) start step).

(** [flat.reshape(rows, cols)], row by row. *)
Fixpoint reshape {A} (rows cols : nat) (flat : list A) : list (list A) :=
  match rows with
  | O => []
  | S rows' => firstn cols flat :: reshape rows' cols (skipn cols flat)
  end.

(** [np.max] of a flat array. *)
Definition amax (a : list Q) : result Q :=
  match a with
  | [] => Raise ValueError
  | x :: a' => Ok (fold_left (fun best y => if Qle_bool y best then best else y) a' x)
  end.

(** [np.argmax]: the first index of the largest entry. *)
Fixpoint argmax_from (best : Q) (best_i i : nat) (a : list Q) : nat :=
  match a with
  | [] => best_i
  | x :: a' =>
      if Qle_bool x best then argmax_from best best_i (S i) a'
      else argmax_from x i (S i) a'
  end.

Definition argmax (a : list Q) : result nat :=
  match a with
  | [] => Raise ValueError
  | x :: a' => Ok (argmax_from x 0 1 a')
  end.

(** [np.linspace(start, stop, num)] *)
Definition linspace (start stop : Q) (num : nat) : list Q :=
  match num with
  | O => []
  | S O => [start]
  | S n =>
      let step := fl ((stop - start) / inject_Z (Z.of_nat n)) in
      map (fun i => fl (start + inject_Z (Z.of_nat i) * step)) (seq 0 num)
  end.

End Py.

Import Py.


(* ===================================================================== *)
(** * enforce_refractory_period                                           *)
(* ===================================================================== *)

(** [times0[1:] - times0[:-1]] *)
Definition adjacent_diffs (times0 : list Q) : list Q :=
  map2 (fun x y => x - y) (tl times0) (removelast times0).

(** [np.hstack((diffs, np.inf))] *)
Definition hstack_inf (diffs : list Q) : list Qinf :=
  map Fin diffs ++ [PInf].

(** [np.where((diffs[:-1] <= refr) & (diffs[1:] >= refr))[0]], with [diffs]
    already extended by [np.inf]. *)
Definition inds0 (times0 : list Q) (refr : Q) : list nat :=
  let diffs := hstack_inf (adjacent_diffs times0) in
  where_ (map2 andb (map (fun d => Qinf_le d refr) (removelast diffs))
                    (map (fun d => Qinf_ge d refr) (tl diffs))).

(** The body of the [if len(inds0) > 0] branch:
    [times0[inds0] = -1; times0 = times0[np.where(times0 >= 0)]]. *)
Definition remove_marked (inds : list nat) (times0 : list Q) : list Q :=
  filter (fun t => Qle_bool 0 t) (set_all inds (-1 # 1) times0).

(** One pass of the loop body on [times0]. *)
Definition refractory_pass (times0 : list Q) (refr : Q) : list Q :=
  remove_marked (inds0 times0 refr) times0.

(** ** The loop terminates: what one pass does to the array *)

(** The mask [(diffs[:-1] <= refr) & (diffs[1:] >= refr)], read off the
    array by recursion: position [i] is set when [times0[i+1] - times0[i]]
    is at most [refr] and the next difference (or the [inf] appended after
    the last one) is at least [refr]. *)
Definition next_gap_ok (l : list Q) (refr : Q) : bool :=
  match l with
  | b :: c :: _ => Qle_bool refr (c - b)
  | _ => true
  end.

Fixpoint marks (l : list Q) (refr : Q) : list bool :=
  match l with
  | a :: ((b :: _) as l') =>
      (Qle_bool (b - a) refr && next_gap_ok l' refr) :: marks l' refr
  | _ => []
  end.

(** [a[np.where(mask)] = v] as a single traversal. *)
Fixpoint set_mask {A} (mask : list bool) (v : A) (a : list A) : list A :=
  match mask, a with
  | b :: mask', x :: a' => (if b then v else x) :: set_mask mask' v a'
  | _, _ => a
  end.

Lemma set_all_map_S {A} (inds : list nat) (v x : A) (a : list A) :
  set_all (map S inds) v (x :: a) = x :: set_all inds v a.
Proof.
  unfold set_all. revert a.
  induction inds as [|i inds IH]; intros a; simpl; [reflexivity|].
  apply IH.
Qed.

Lemma set_all_where {A} (mask : list bool) (v : A) (a : list A) :
  set_all (where_ mask) v a = set_mask mask v a.
Proof.
  revert a. induction mask as [|b mask IH]; intros a; simpl.
  - reflexivity.
  - destruct a as [|x a].
    + unfold set_all. clear IH.
      generalize ((if b then [0%nat] else []) ++ map S (where_ mask)).
      intros inds. induction inds as [|i inds IHi]; simpl; [reflexivity|].
      destruct i; exact IHi.
    + destruct b; simpl.
      * unfold set_all at 1. simpl. fold (set_all (map S (where_ mask)) v (v :: a)).
        rewrite set_all_map_S, IH. reflexivity.
      * rewrite set_all_map_S, IH. reflexivity.
Qed.

Lemma removelast_hstack_inf (d : list Q) :
  removelast (hstack_inf d) = map Fin d.
Proof. unfold hstack_inf. apply removelast_last. Qed.

Lemma adjacent_diffs_cons2 (a b : Q) (l : list Q) :
  adjacent_diffs (a :: b :: l) = (b - a) :: adjacent_diffs (b :: l).
Proof. reflexivity. Qed.

Lemma head_gap_ok (l : list Q) (refr : Q) :
  match hstack_inf (adjacent_diffs l) with
  | d :: _ => Qinf_ge d refr
  | [] => true
  end = next_gap_ok l refr.
Proof.
  destruct l as [|b [|c l]]; reflexivity.
Qed.

Lemma inds0_marks (times0 : list Q) (refr : Q) :
  inds0 times0 refr = where_ (marks times0 refr).
Proof.
  unfold inds0. f_equal. rewrite removelast_hstack_inf.
  induction times0 as [|a l IH]; [reflexivity|].
  destruct l as [|b l]; [reflexivity|].
  rewrite adjacent_diffs_cons2.
  change (marks (a :: b :: l) refr)
    with ((Qle_bool (b - a) refr && next_gap_ok (b :: l) refr) :: marks (b :: l) refr).
  rewrite <- IH, <- head_gap_ok.
  unfold hstack_inf at 1. simpl map at 1. simpl tl.
  fold (hstack_inf (adjacent_diffs (b :: l))).
  destruct (hstack_inf (adjacent_diffs (b :: l))) as [|d ds] eqn:E.
  - unfold hstack_inf in E. destruct (map Fin (adjacent_diffs (b :: l))); discriminate.
  - simpl. reflexivity.
Qed.

Lemma refractory_pass_marks (times0 : list Q) (refr : Q) :
  refractory_pass times0 refr =
  filter (fun t => Qle_bool 0 t) (set_mask (marks times0 refr) (-1 # 1) times0).
Proof.
  unfold refractory_pass, remove_marked.
  rewrite inds0_marks, set_all_where. reflexivity.
Qed.

Lemma marks_length (l : list Q) (refr : Q) :
  length (marks l refr) = Nat.pred (length l).
Proof.
  induction l as [|a l IH]; [reflexivity|].
  destruct l as [|b l]; [reflexivity|].
  change (length (marks (a :: b :: l) refr)) with (S (length (marks (b :: l) refr))).
  rewrite IH. reflexivity.
Qed.

Lemma filter_set_mask_length (mask : list bool) (a : list Q) :
  (length mask <= length a)%nat ->
  (length (filter (fun t => Qle_bool 0 t) (set_mask mask (-1 # 1) a))
   + length (where_ mask) <= length a)%nat.
Proof.
  revert a. induction mask as [|b mask IH]; intros a Hlen.
  - simpl. pose proof (filter_length_le (fun t => Qle_bool 0 t) a). lia.
  - destruct a as [|x a]; [simpl in Hlen; lia|].
    simpl in Hlen. specialize (IH a ltac:(lia)).
    simpl set_mask. simpl where_. rewrite length_app, length_map.
    destruct b; simpl.
    + lia.
    + destruct (Qle_bool 0 x); simpl; lia.
Qed.

(** Each pass that finds a violator strictly shrinks the array. *)
Lemma refractory_pass_shrinks (times0 : list Q) (refr : Q) :
  inds0 times0 refr <> [] ->
  (length (refractory_pass times0 refr) < length times0)%nat.
Proof.
  intros Hne. rewrite refractory_pass_marks.
  rewrite inds0_marks in Hne.
  pose proof (filter_set_mask_length (marks times0 refr) times0) as H.
  rewrite marks_length in H. specialize (H ltac:(lia)).
  destruct (where_ (marks times0 refr)) as [|i inds]; [congruence|].
  simpl in H. lia.
Qed.

(** The [while not done] loop, by well-founded recursion on the length of
    [times0]; the test is [len(inds0) > 0]. *)
Equations? refractory_loop (refr : Q) (times0 : list Q) : list Q
  by wf (length times0) lt :=
  refractory_loop refr times0
    with lt_dec 0 (length (inds0 times0 refr)) => {
    | left _ => refractory_loop refr (remove_marked (inds0 times0 refr) times0)
    | right _ => times0 }.
Proof.
  apply refractory_pass_shrinks.
  destruct (inds0 times0 refr); [simpl in *; lia | discriminate].
Qed.

Definition enforce_refractory_period (times_in : list Q) (refr : Q) : list Q :=
  match times_in with
  | [] => times_in
  | _ => refractory_loop refr (sort times_in)
  end.

(* ===================================================================== *)
(** * Random numbers                                                      *)
(* ===================================================================== *)

(** The generator behind [np.random]: a state type and the draws the
    program makes from it.  Every draw returns the values and the next
    state.  Nothing is assumed of the distribution. *)
Class NumpyRandom : Type := {
  rng : Type;
  (** the state [RandomState(seed=s)] starts in *)
  seeded : Z -> rng;
  (** [.rand(n)]: [n] variates of [[0, 1)] *)
  rand : rng -> nat -> list Q * rng;
  (** [.randn(n)]: [n] standard normal variates *)
  randn : rng -> nat -> list Q * rng;
  (** [.randint(low, high, n)] *)
  randint : rng -> Z -> Z -> nat -> list Z * rng;
  (** [.uniform(low, high)] *)
  uniform : rng -> Q -> Q -> Q * rng;
  (** [.choice(a, size)]: [size] indices below [a], drawn with replacement *)
  choice : rng -> nat -> nat -> list nat * rng;
  (** every draw has the size that was asked for *)
  rand_length : forall g n, length (fst (rand g n)) = n;
  randn_length : forall g n, length (fst (randn g n)) = n;
  randint_length : forall g low high n, length (fst (randint g low high n)) = n;
  choice_length : forall g a size, length (fst (choice g a size)) = size
}.

Section Firings.

Context {R : NumpyRandom}.

(** [np.random.RandomState(seed=seed)]: the seed must fit 32 bits. *)
Definition RandomState (seed : Z) : result rng :=
  if ((0 <=? seed) && (seed <? 2 ^ 32))%Z then Ok (seeded seed)
  else Raise ValueError.

(** The first lines of both synthesizers: with a seed, reseed the global
    generator and draw the per-unit seeds from a fresh [RandomState];
    without one, draw them from the global generator [g]. *)
Definition draw_seeds (seed : option Z) (K : Z) (g : rng)
  : result (list Z * rng) :=
  match seed with
  | Some s =>
      g' <- RandomState s ;;
      st <- RandomState s ;;
      n <- size_arg K ;;
      Ok (fst (randint st 0 2147483647 n), g')
  | None =>
      n <- size_arg K ;;
      Ok (randint g 0 2147483647 n)
  end.

(** [rand_distr2(a, b, num, seed)] *)
Definition rand_distr2 (a b : Q) (num : nat) (seed : Z) : result (list Q) :=
  st <- RandomState seed ;;
  let X := fst (rand st num) in
  Ok (map (fun x => fl (a + (b - a) * (x * x))) X).

Definition refr : Q := 4.

(** The body of [for unit_id in range(K)] up to the two [append]s: the
    unit's [times0.astype('int64')] and [labels0], and the global
    generator after the draw. *)
Definition unit_firings (sampling_frequency : Q) (N : Z)
    (populations seeds : list Z) (unit_id : Z) (g : rng)
  : result ((list Z * list Z) * rng) :=
  let refr_timepoints := fl (refr / 1000 * sampling_frequency) in
  pop <- getitem populations unit_id ;;
  n <- size_arg pop ;;
  let (u, g') := rand g n in
  let times0 := map (fun x => fl (x * inject_Z (N - 1) + 1)) u in
  seed_k <- getitem seeds unit_id ;;
  lag <- rand_distr2 refr_timepoints (refr_timepoints * 20) (length times0) seed_k ;;
  let times0 := times0 ++ map2 (fun t d => fl (t + d)) times0 lag in
  st <- RandomState seed_k ;;
  let inds := fst (choice st (length times0) (length times0 / 2)) in
  times0 <- take times0 inds ;;
  let times0 :=
    filter (fun t => Qle_bool 0 t && negb (Qle_bool (inject_Z N) t)) times0 in
  let times0 := enforce_refractory_period times0 refr_timepoints in
  let labels0 := repeat 1%Z (length times0) in
  Ok ((map Qtruncate times0, labels0), g').

(** [np.concatenate] of a Python list of arrays: an empty list raises. *)
Definition concatenate {A} (arrays : list (list A)) : result (list A) :=
  match arrays with
  | [] => Raise ValueError
  | _ => Ok (concat arrays)
  end.

(** The Python lists [times] and [labels] when the loop over the units
    ends, one array per unit. *)
Definition firings_by_unit (K : Z) (sampling_frequency : Q) (N : Z)
    (populations seeds : list Z) (g : rng)
  : result ((list (list Z) * list (list Z)) * rng) :=
  foldM (fun '(times, labels, g) unit_id =>
           '(times0, labels0, g') <-
             unit_firings sampling_frequency N populations seeds unit_id g ;;
           Ok (times ++ [times0], labels ++ [labels0], g'))
        (range K) ([], [], g).

(** [populations] and [N]. *)
Definition firing_populations (K : Z) (sampling_frequency : Q)
    (duration : pyvalue) : result (Z * list Z) :=
  let firing_rates := repeat (3 : Q) (Z.to_nat K) in
  dN <- mul_float duration sampling_frequency ;;
  let N := Qtruncate dN in
  populations <-
    mapM (fun rate =>
            if Qeq_bool sampling_frequency 0 then Raise NotFinite
            else Ok (Qceiling (rate / sampling_frequency * inject_Z N)))
         firing_rates ;;
  Ok (N, populations).

Definition synthesize_random_firings (K : Z) (sampling_frequency : Q)
    (duration : pyvalue) (seed : option Z) (g : rng)
  : result ((list Z * list Z) * rng) :=
  '(seeds, g) <- draw_seeds seed K g ;;
  '(N, populations) <- firing_populations K sampling_frequency duration ;;
  '(times, labels, g) <-
    firings_by_unit K sampling_frequency N populations seeds g ;;
  times <- concatenate times ;;
  labels <- concatenate labels ;;
  let sort_inds := argsort times in
  times <- take times sort_inds ;;
  labels <- take labels sort_inds ;;
  Ok ((times, labels), g).

End Firings.

(* ===================================================================== *)
(** * get_default_neuron_locations                                        *)
(* ===================================================================== *)

(** A [(num_dims, n)] array of positions, held as the list of its [n]
    columns: [nth j a] is [a[:, j]].  Both [geometry] and
    [neuron_locations] are only ever read and written by column. *)
Definition points : Type := list (list Q).

(** The column stored by one iteration [k] of the loop. *)
Definition neuron_location (M K : Z) (geometry : points) (k : Z)
  : result (list Q) :=
  if (K >? 0)%Z then
    (* (k - 1) / (K - 1): true division of two Python ints *)
    quotient <-
      (if (K - 1 =? 0)%Z then Raise ZeroDivisionError
       else Ok (fl (inject_Z (k - 1) / inject_Z (K - 1)))) ;;
    let ind := fl (quotient * inject_Z (M - 1) + 1) in
    let ind0 := Qtruncate ind in
    let '(ind0, p) :=
      if (ind0 =? M)%Z then ((M - 1)%Z, 1) else (ind0, fl (ind - inject_Z ind0)) in
    if (M >? 0)%Z then
      left_col <- getitem geometry (ind0 - 1) ;;
      right_col <- getitem geometry ind0 ;;
      Ok (map2 (fun l r => fl ((1 - p) * l + p * r)) left_col right_col)
    else getitem geometry 0
  else getitem geometry 0.

Definition get_default_neuron_locations (M K : Z) (geometry : points)
  : result points :=
  _ <- size_arg K ;;   (* np.zeros((num_dims, K)) *)
  mapM (neuron_location M K geometry) (map (Z.add 1) (range K)).

(* ===================================================================== *)
(** * The waveform shaper                                                 *)
(* ===================================================================== *)

(** The two transcendental functions the program calls.  They stay
    abstract: the properties below hold for every choice. *)
Class NumpyMath : Type := {
  exp : Q -> Q;
  sqrt : Q -> Q
}.

Section Waveforms.

Context {F : NumpyMath}.

(** Division of arrays by a float: a zero divisor gives [inf] or [nan]. *)
Definition divide (a : list Q) (d : Q) : result (list Q) :=
  mapM (fun x => if Qeq_bool d 0 then Raise NotFinite else Ok (fl (x / d))) a.

Definition exp_growth (amp1 amp2 : Q) (dur1 : Z) (dur2 : Q) : result (list Q) :=
  let t := map inject_Z (range dur1) in
  Y <- divide t dur2 ;;
  let Y := map exp Y in
  last <- getitem Y (-1) ;;
  first <- getitem Y 0 ;;
  Y <- divide Y (last - first) ;;
  let Y := map (fun y => fl (y * (amp2 - amp1))) Y in
  first <- getitem Y 0 ;;
  Ok (map (fun y => fl (y - first + amp1)) Y).

Definition exp_decay (amp1 amp2 : Q) (dur1 : Z) (dur2 : Q) : result (list Q) :=
  Y <- exp_growth amp2 amp1 dur1 dur2 ;;
  Ok (rev Y).

Definition smooth_it (Y : list Q) (t : Z) : list Q :=
  fold_left (fun Z j => map2 (fun z y => fl (z + y)) Z (roll Y j))
            (map (fun i => (i - t)%Z) (range (2 * t + 1)))
            (repeat 0 (length Y)).

Definition synthesize_single_waveform (N : Z) (durations amps : list Q)
  : result (list Q) :=
  durations <-
    (if Qle_bool (inject_Z (N - 2)) (sum durations) then
       match durations with
       | [] => Raise IndexError
       | _ => Ok (removelast durations
                  ++ [fl (inject_Z (N - 2) - sum (removelast durations))])
       end
     else Ok durations) ;;
  let timepoints :=
    map Qround_half_even (0 :: map (fun c => c - 1) (cumsum durations)) in
  let len_t := Z.to_nat (Qceiling (sum durations + 1)) in
  let Y := repeat 0 len_t in
  tp0 <- getitem timepoints 0 ;;
  tp1 <- getitem timepoints 1 ;;
  tp2 <- getitem timepoints 2 ;;
  tp3 <- getitem timepoints 3 ;;
  tp4 <- getitem timepoints 4 ;;
  amp0 <- getitem amps 0 ;;
  amp1 <- getitem amps 1 ;;
  amp2 <- getitem amps 2 ;;
  amp3 <- getitem amps 3 ;;
  dur0 <- getitem durations 0 ;;
  dur1 <- getitem durations 1 ;;
  dur2 <- getitem durations 2 ;;
  dur3 <- getitem durations 3 ;;
  seg <- exp_growth 0 amp0 (tp1 + 1 - tp0) (dur0 / 4) ;;
  Y <- set_slice Y tp0 (tp1 + 1) seg ;;
  seg <- exp_growth amp0 amp1 (tp2 + 1 - tp1) dur1 ;;
  Y <- set_slice Y tp1 (tp2 + 1) seg ;;
  seg <- exp_decay amp1 amp2 (tp3 + 1 - tp2) (dur2 / 4) ;;
  Y <- set_slice Y tp2 (tp3 + 1) seg ;;
  seg <- exp_decay amp2 amp3 (tp4 + 1 - tp3) (dur3 / 5) ;;
  Y <- set_slice Y tp3 (tp4 + 1) seg ;;
  let Y := smooth_it Y 3 in
  first <- getitem Y 0 ;;
  last <- getitem Y (-1) ;;
  let Y := map2 (fun y l => fl (y - l)) Y (linspace first last len_t) in
  pad <- size_arg (N - Z.of_nat len_t) ;;
  let Y := Y ++ repeat 0 pad in
  let Nmid := (N / 2)%Z in
  peakind <- argmax (map Qabs Y) ;;
  Ok (roll Y (Nmid - Z.of_nat peakind)).

End Waveforms.

(* ===================================================================== *)
(** * synthesize_random_waveforms                                         *)
(* ===================================================================== *)

(** An [(M, TT, K)] array, held unit by unit:
    [nth t (nth m (nth k (units WW)))] is [WW[m, t, k]].  The program only
    reads and writes it through [WW[m, :, k]] and [WW[:, :, k]]. *)
Record tensor : Type := {
  shape : nat * nat * nat;
  units : list (list (list Q))
}.

(** [np.max(np.abs(WW), axis=(0, 1))]: a reduction over an axis of length
    zero raises. *)
Definition peak_amplitudes (WW : tensor) : result (list Q) :=
  let '(M, TT, _) := shape WW in
  if Nat.eqb M 0 || Nat.eqb TT 0 then Raise ValueError
  else mapM (fun unit => amax (map Qabs (concat unit))) (units WW).

(** [np.mean] of a non-empty array. *)
Definition mean (a : list Q) : Q :=
  fl (sum a / inject_Z (Z.of_nat (length a))).

(** The last two statements before [return]:
    [peaks = np.max(np.abs(WW), axis=(0, 1))] and
    [WW = WW / np.mean(peaks) * average_peak_amplitude].
    Without units the [nan] mean meets no entry. *)
Definition normalize_peaks (WW : tensor) (average_peak_amplitude : Q)
  : result tensor :=
  peaks <- peak_amplitudes WW ;;
  match units WW with
  | [] => Ok WW
  | _ =>
      let mean_peak := mean peaks in
      if Qeq_bool mean_peak 0 then Raise NotFinite
      else Ok {| shape := shape WW;
                 units := map (map (map (fun x =>
                            fl (x / mean_peak * average_peak_amplitude))))
                              (units WW) |}
  end.

Section Templates.

Context {R : NumpyRandom} {F : NumpyMath}.

Definition avg_durations : list Q := [200; 10; 30; 200].
Definition avg_amps : list Q := [1 # 2; 10; -1; 0].
Definition rand_durations_stdev : list Q := [10; 4; 6; 20].
Definition rand_amps_stdev : list Q := [2 # 10; 3; 1 # 2; 0].
Definition rand_amp_factor_range : list Q := [1 # 2; 1].
Definition geom_spread_coef1 : Q := 2 # 10.
Definition geom_spread_coef2 : Q := 1.

(** [np.maximum(1, x)] *)
Definition maximum_one (x : Q) : Q := if Qle_bool 1 x then x else 1.

(** The body of the two nested loops: the row stored in
    [WW[m - 1, :, k - 1]]. *)
Definition unit_channel_waveform (T upsamplefac timeshift_factor : Z)
    (geometry neuron_locations : points) (seeds : list Z) (i k m : Z)
  : result (list Q) :=
  location <- getitem neuron_locations (k - 1) ;;
  channel <- getitem geometry (m - 1) ;;
  let diff := map2 (fun l c => fl (l - c)) location channel in
  let dist := fl (sqrt (sum (map (fun d => d * d) diff))) in
  seed_i <- getitem seeds i ;;
  st <- RandomState seed_i ;;
  let durations0 :=
    map (fun d => fl (maximum_one d * inject_Z upsamplefac))
        (map2 Qplus avg_durations
              (map2 Qmult (fst (randn st 4)) rand_durations_stdev)) in
  st <- RandomState seed_i ;;
  let amps0 :=
    map2 (fun a z => fl (a + z)) avg_amps
         (map2 Qmult (fst (randn st 4)) rand_amps_stdev) in
  waveform0 <- synthesize_single_waveform (T * upsamplefac) durations0 amps0 ;;
  let waveform0 :=
    roll waveform0
         (Qtruncate (inject_Z timeshift_factor * dist * inject_Z upsamplefac)) in
  st <- RandomState seed_i ;;
  low <- getitem rand_amp_factor_range 0 ;;
  high <- getitem rand_amp_factor_range 1 ;;
  let factor := fst (uniform st low high) in
  let waveform0 := map (fun w => fl (w * factor)) waveform0 in
  row <- divide waveform0 (fl (geom_spread_coef1 + dist * geom_spread_coef2)) ;;
  broadcast_to row (Z.to_nat (T * upsamplefac)).

Definition synthesize_random_waveforms (M T K upsamplefac timeshift_factor : Z)
    (average_peak_amplitude : Q) (seed : option Z) (g : rng)
  : result ((tensor * points) * rng) :=
  '(seeds, g) <- draw_seeds seed K g ;;
  (* geometry = np.zeros((2, M)); geometry[0, :] = np.arange(1, M + 1) *)
  _ <- size_arg M ;;
  let geometry : points :=
    map (fun x => [inject_Z x; 0]) (map (Z.add 1) (range M)) in
  neuron_locations <- get_default_neuron_locations M K geometry ;;
  (* WW = np.zeros((M, T * upsamplefac, K)) *)
  TT <- size_arg (T * upsamplefac) ;;
  WW <- mapM (fun i =>
                mapM (fun m =>
                        unit_channel_waveform T upsamplefac timeshift_factor
                          geometry neuron_locations seeds i (i + 1) m)
                     (map (Z.add 1) (range M)))
             (range K) ;;
  WW <- normalize_peaks
          {| shape := (Z.to_nat M, TT, Z.to_nat K); units := WW |}
          average_peak_amplitude ;;
  Ok ((WW, geometry), g).

End Templates.

(* ===================================================================== *)
(** * synthesize_timeseries                                               *)
(* ===================================================================== *)

(** The test [(0 <= tstart) and (tstart + T <= N)]. *)
Definition window_fits (T N tstart : Z) : bool :=
  ((0 <=? tstart) && (tstart + T <=? N))%Z.

(** [int(np.floor((t0 - np.floor(t0)) * waveform_upsamplefac))] *)
Definition frac_offset (t0 : Q) (waveform_upsamplefac : Z) : Z :=
  Qfloor ((t0 - inject_Z (Qfloor t0)) * inject_Z waveform_upsamplefac).

(** [X[m, tstart:tstart + T] + waveform0[m, frac_offset::upsamplefac] * amp0],
    stored back into [X[m, tstart:tstart + T]]. *)
Definition stamp_row (row waveform_row : list Q) (tstart T offset step : Z)
    (amp0 : Q) : result (list Q) :=
  let current := get_slice row tstart (tstart + T) in
  samples <- strided waveform_row offset step ;;
  samples <- broadcast_to (map (fun w => w * amp0) samples) (length current) ;;
  set_slice row tstart (tstart + T) (map2 (fun x w => fl (x + w)) current samples).

(** The same on every row [m] of [X] and [waveform0]. *)
Definition stamp (X waveform0 : list (list Q)) (tstart T offset step : Z)
    (amp0 : Q) : result (list (list Q)) :=
  mapM (fun '(m, row) =>
          waveform_row <- getitem waveform0 (Z.of_nat m) ;;
          stamp_row row waveform_row tstart T offset step amp0)
       (combine (seq 0 (length X)) X).

(** [spike_times[spike_labels == k0]]: the mask must have the length of
    the array. *)
Definition times_with_label (spike_times : list Q) (spike_labels : list Z)
    (k0 : Z) : result (list Q) :=
  if Nat.eqb (length spike_times) (length spike_labels)
  then Ok (select spike_times (map (Z.eqb k0) spike_labels))
  else Raise IndexError.

(** [T] and [Tmid]. *)
Definition template_length (TT : nat) (waveform_upsamplefac : Z) : result Z :=
  if (waveform_upsamplefac =? 0)%Z then Raise ZeroDivisionError
  else Ok (Qtruncate (inject_Z (Z.of_nat TT) / inject_Z waveform_upsamplefac)).

Definition template_midpoint (T : Z) : Z :=
  Qceiling ((inject_Z T + 1) / 2 - 1).

(** The two loops, on a given background [X]. *)
Definition stamp_spikes (spike_times : list Q) (spike_labels unit_ids : list Z)
    (waveforms : tensor) (T N waveform_upsamplefac : Z) (X : list (list Q))
  : result (list (list Q)) :=
  let Tmid := template_midpoint T in
  foldM (fun X k0 =>
           waveform0 <- getitem (units waveforms) (k0 - 1) ;;
           times0 <- times_with_label spike_times spike_labels k0 ;;
           foldM (fun X t0 =>
                    let amp0 := 1 in
                    let offset := frac_offset t0 waveform_upsamplefac in
                    let tstart := (Qfloor t0 - Tmid)%Z in
                    if window_fits T N tstart
                    then stamp X waveform0 tstart T offset waveform_upsamplefac amp0
                    else Ok X)
                 times0 X)
        unit_ids X.

Section Timeseries.

Context {R : NumpyRandom}.

(** [np.random.RandomState(seed=seed).randn(M, N) * noise_level], or the
    same from the global generator when there is no seed. *)
Definition noise_background (M : nat) (N : Z) (noise_level : Q)
    (seed : option Z) (g : rng) : result (list (list Q) * rng) :=
  n <- size_arg N ;;
  '(flat, g) <-
    match seed with
    | Some s => st <- RandomState s ;; Ok (fst (randn st (M * n)), g)
    | None => Ok (randn g (M * n))
    end ;;
  Ok (reshape M n (map (fun z => fl (z * noise_level)) flat), g).

Definition synthesize_timeseries (spike_times : list Q)
    (spike_labels unit_ids : list Z) (waveforms : tensor)
    (sampling_frequency : Q) (duration : pyvalue) (noise_level : Q)
    (waveform_upsamplefac : Z) (seed : option Z) (g : rng)
  : result (list (list Q) * rng) :=
  num_timepoints <- mul_float duration sampling_frequency ;;
  let N := Qtruncate num_timepoints in
  let '(M, TT, K) := shape waveforms in
  T <- template_length TT waveform_upsamplefac ;;
  '(X, g) <- noise_background M N noise_level seed g ;;
  X <- stamp_spikes spike_times spike_labels unit_ids waveforms T N
         waveform_upsamplefac X ;;
  Ok (X, g).

End Timeseries.

(* ===================================================================== *)
(** * toy_example                                                         *)
(* ===================================================================== *)

(** The two containers the results are handed to; they only hold them. *)
Record NumpyRecording : Type := {
  traces_list : list (list (list Q));
  recording_sampling_frequency : Q;
  is_filtered : bool
}.

Record NumpySorting : Type := {
  times_list : list (list Z);
  labels_list : list (list Z);
  sorting_sampling_frequency : Q
}.

Section ToyExample.

Context {R : NumpyRandom} {F : NumpyMath}.

(** The validation of [duration] at the top of [toy_example]; the list
    [durations] it builds is not read again. *)
Definition check_durations (duration : pyvalue) (num_segments : Z)
  : result (pyvalue * list pynumber) :=
  let duration :=
    match duration with
    | PyNum (PyInt z) => PyNum (PyFloat (inject_Z z))
    | _ => duration
    end in
  match duration with
  | PyNum (PyFloat d) =>
      Ok (duration, repeat (PyFloat d) (Z.to_nat num_segments))
  | PyNum (PyInt _) => Raise AssertionError
  | PyList durations =>
      if negb (Z.of_nat (length durations) =? num_segments)%Z
      then Raise AssertionError
      else if negb (forallb (fun d => isinstance_float (PyNum d)) durations)
      then Raise AssertionError
      else Ok (duration, durations)
  end.

(** One iteration of [for segment_index in range(num_segments)]. *)
Definition toy_segment (num_units : Z) (sampling_frequency : Q)
    (duration : pyvalue) (unit_ids : list Z) (waveforms : tensor)
    (upsamplefac : Z) (seed : option Z) (g : rng)
  : result ((list Z * list Z * list (list Q)) * rng) :=
  '(times, labels, g) <-
    synthesize_random_firings num_units sampling_frequency duration seed g ;;
  '(traces, g) <-
    synthesize_timeseries (map inject_Z times) labels unit_ids waveforms
      sampling_frequency duration 10 upsamplefac seed g ;;
  Ok ((times, labels, traces), g).

Definition toy_example (duration : pyvalue) (num_channels num_units : Z)
    (sampling_frequency : Q) (num_segments : Z) (average_peak_amplitude : Q)
    (upsamplefac : Z) (seed : option Z) (g : rng)
  : result ((NumpyRecording * NumpySorting) * rng) :=
  '(duration, durations) <- check_durations duration num_segments ;;
  '(waveforms, geom, g) <-
    synthesize_random_waveforms num_channels 500 num_units upsamplefac 3
      average_peak_amplitude seed g ;;
  let unit_ids := range num_units in
  '(traces_list, times_list, labels_list, g) <-
    foldM (fun '(traces_list, times_list, labels_list, g) segment_index =>
             '(times, labels, traces, g) <-
               toy_segment num_units sampling_frequency duration unit_ids
                 waveforms upsamplefac seed g ;;
             Ok (traces_list ++ [traces], times_list ++ [times],
                 labels_list ++ [labels], g))
          (range num_segments) ([], [], [], g) ;;
  let sorting := {| times_list := times_list; labels_list := labels_list;
                    sorting_sampling_frequency := sampling_frequency |} in
  let recording := {| traces_list := traces_list;
                      recording_sampling_frequency := sampling_frequency;
                      is_filtered := true |} in
  Ok ((recording, sorting), g).

End ToyExample.

(* ===================================================================== *)
(** * Predicates of the properties                                        *)
(* ===================================================================== *)

(** Whether the pass marks the head [a] of [a :: l]. *)
Definition head_marked (refr a : Q) (l : list Q) : bool :=
  match l with
  | b :: _ => Qle_bool (b - a) refr && next_gap_ok l refr
  | [] => false
  end.

(** All adjacent gaps exceed the threshold. *)
Fixpoint gaps_exceed (refr : Q) (l : list Q) : Prop :=
  match l with
  | a :: ((b :: _) as l') => refr < b - a /\ gaps_exceed refr l'
  | _ => True
  end.





(** [row'] has the length of [row] and the same entry at every column
    that satisfies [P]. *)
Definition same_where (P : nat -> Prop) (row row' : list Q) : Prop :=
  length row' = length row /\ forall c, P c -> nth c row' 0 = nth c row 0.

(** A column is covered by the window of the spike at [t0] when the
    window fits the recording and contains the column. *)
Definition window_covers (T N : Z) (t0 : Q) (c : nat) : Prop :=
  let tstart := (Qfloor t0 - template_midpoint T)%Z in
  window_fits T N tstart = true /\ (tstart <= Z.of_nat c < tstart + T)%Z.

(** No spike of a unit in [unit_ids] has a fitting window over column
    [c]. *)
Definition outside_all_windows (spike_times : list Q)
    (spike_labels unit_ids : list Z) (T N : Z) (c : nat) : Prop :=
  forall k0 t0,
    In k0 unit_ids -> In (t0, k0) (combine spike_times spike_labels) ->
    ~ window_covers T N t0 c.

(** A tensor whose data has the extent its shape announces. *)
Definition well_formed (WW : tensor) : Prop :=
  let '(M, TT, K) := shape WW in
  length (units WW) = K /\
  Forall (fun unit =>
            length unit = M /\ Forall (fun row => length row = TT) unit)
         (units WW).

(** A trace array of [M] rows and [N] columns. *)
Definition trace_shape (M : nat) (N : Z) (X : list (list Q)) : Prop :=
  length X = M /\ Forall (fun row => Z.of_nat (length row) = N) X.

(** What [toy_example] appends for one segment. *)
Definition segment_ok (M : nat) (d : pyvalue) (sf : Q)
    (times labels : list Z) (traces : list (list Q)) : Prop :=
  exists num_timepoints,
    mul_float d sf = Ok num_timepoints /\
    StronglySorted Z.le times /\
    Forall (fun t => (0 <= t < Qtruncate num_timepoints)%Z) times /\
    length labels = length times /\
    length traces = M /\
    Forall (fun row => Z.of_nat (length row) = Qtruncate num_timepoints) traces.

(* ===================================================================== *)
(** * A concrete generator                                                *)
(* ===================================================================== *)

(** A linear congruential generator standing in for NumPy's Mersenne
    Twister, so that the model can be run on concrete seeds. *)
Module Lcg.

Definition modulus : Z := 2 ^ 31.

Definition next (s : Z) : Z := ((1103515245 * s + 12345) mod modulus)%Z.

Definition unit_interval (s : Z) : Q := Qred (Qmake s (Z.to_pos modulus)).

Fixpoint draws {A} (f : Z -> A) (n : nat) (s : Z) : list A * Z :=
  match n with
  | O => ([], s)
  | S n' =>
      let s' := next s in
      let (xs, s'') := draws f n' s' in
      (f s' :: xs, s'')
  end.

Lemma draws_length {A} (f : Z -> A) (n : nat) (s : Z) :
  length (fst (draws f n s)) = n.
Proof.
  revert s. induction n as [|n IH]; intros s; simpl; [reflexivity|].
  specialize (IH (next s)). destruct (draws f n (next s)). simpl in *.
  f_equal. exact IH.
Qed.

#[export] Instance generator : NumpyRandom := {|
  rng := Z;
  seeded := fun s => (s mod modulus)%Z;
  rand := fun s n => draws unit_interval n s;
  randn := fun s n => draws (fun x => Qred (4 * unit_interval x - 2)) n s;
  randint := fun s low high n =>
    draws (fun x => (low + (x / 2 ^ 8) mod (high - low))%Z) n s;
  uniform := fun s low high =>
    let s' := next s in (low + (high - low) * unit_interval s', s');
  choice := fun s a size =>
    draws (fun x => Z.to_nat ((x / 2 ^ 16) mod Z.of_nat a)) size s;
  rand_length := fun s n => draws_length _ n s;
  randn_length := fun s n => draws_length _ n s;
  randint_length := fun s _ _ n => draws_length _ n s;
  choice_length := fun s _ size => draws_length _ size s
|}.

End Lcg.

(** Integer-valued stand-ins for [np.exp] and [np.sqrt], so that the model
    can be run: a thousand times the first terms of the exponential
    series, rounded down, and the integer square root. *)
Module Approx.

Definition exp_series (x : Q) : Q :=
  inject_Z (Qfloor (1000 * (1 + x + x * x / 2))).

Definition sqrt_floor (x : Q) : Q := inject_Z (Z.sqrt (Qfloor x)).

#[export] Instance math : NumpyMath := {| exp := exp_series; sqrt := sqrt_floor |}.

End Approx.

(* ===================================================================== *)
(** * Properties of the refractory repair                                 *)
(* ===================================================================== *)

Section RefractoryRepair.

Variable refr : Q.

Lemma refractory_pass_cons (a : Q) (l : list Q) :
  refractory_pass (a :: l) refr =
  (if negb (head_marked refr a l) && Qle_bool 0 a then [a] else [])
    ++ refractory_pass l refr.
Proof.
  rewrite !refractory_pass_marks.
  destruct l as [|b l].
  - simpl. destruct (Qle_bool 0 a); reflexivity.
  - change (marks (a :: b :: l) refr)
      with (head_marked refr a (b :: l) :: marks (b :: l) refr).
    cbn [set_mask filter].
    destruct (head_marked refr a (b :: l)); cbn [negb andb].
    + reflexivity.
    + destruct (Qle_bool 0 a); reflexivity.
Qed.

Lemma refractory_pass_incl (l : list Q) :
  incl (refractory_pass l refr) l.
Proof.
  induction l as [|a l IH].
  - rewrite refractory_pass_marks. simpl. apply incl_refl.
  - rewrite refractory_pass_cons.
    destruct (negb (head_marked refr a l) && Qle_bool 0 a); simpl.
    + apply incl_cons; [left; reflexivity | apply incl_tl, IH].
    + apply incl_tl, IH.
Qed.

Lemma refractory_pass_sorted (l : list Q) :
  StronglySorted Qle l -> StronglySorted Qle (refractory_pass l refr).
Proof.
  induction 1 as [|a l Hs IH Hall].
  - rewrite refractory_pass_marks. constructor.
  - rewrite refractory_pass_cons.
    destruct (negb (head_marked refr a l) && Qle_bool 0 a); simpl; [|exact IH].
    constructor; [exact IH|].
    rewrite Forall_forall in *. intros x Hx.
    apply Hall, (refractory_pass_incl l), Hx.
Qed.

(** The prefix of an array does not influence what a pass does further
    right: the mask only looks forward. *)
Lemma refractory_pass_app (l1 l2 : list Q) :
  exists p, incl p l1 /\
    refractory_pass (l1 ++ l2) refr = p ++ refractory_pass l2 refr.
Proof.
  induction l1 as [|a l1 (p & Hp & IH)].
  - exists []. split; [apply incl_refl | reflexivity].
  - simpl app. rewrite refractory_pass_cons, IH.
    destruct (negb (head_marked refr a (l1 ++ l2)) && Qle_bool 0 a).
    + exists (a :: p). split; [|reflexivity].
      apply incl_cons; [left; reflexivity | apply incl_tl, Hp].
    + exists p. split; [apply incl_tl, Hp | reflexivity].
Qed.

Lemma where_nil_inv (b : bool) (mask : list bool) :
  where_ (b :: mask) = [] -> b = false /\ where_ mask = [].
Proof.
  simpl. destruct b; [discriminate|]. simpl.
  destruct (where_ mask); [auto | discriminate].
Qed.

Lemma Qle_bool_false (x y : Q) : Qle_bool x y = false -> y < x.
Proof.
  intros H. apply Qnot_le_lt. intros Hle.
  apply Qle_bool_iff in Hle. congruence.
Qed.


Lemma no_violator_gaps (l : list Q) :
  inds0 l refr = [] -> gaps_exceed refr l.
Proof.
  rewrite inds0_marks.
  induction l as [|a l IH]; [exact (fun _ => I)|].
  destruct l as [|b l]; [exact (fun _ => I)|].
  change (marks (a :: b :: l) refr)
    with ((Qle_bool (b - a) refr && next_gap_ok (b :: l) refr) :: marks (b :: l) refr).
  intros H. apply where_nil_inv in H. destruct H as [Hm Hrest].
  specialize (IH Hrest).
  assert (Hnext : next_gap_ok (b :: l) refr = true).
  { destruct l as [|c l]; [reflexivity|].
    simpl. apply Qle_bool_iff. destruct IH as [Hbc _]. lra. }
  rewrite Hnext, andb_true_r in Hm.
  split; [apply Qle_bool_false, Hm | exact IH].
Qed.

Lemma sorted_gaps_pairs (l : list Q) :
  StronglySorted Qle l -> gaps_exceed refr l ->
  ForallOrdPairs (fun x y => refr < y - x) l.
Proof.
  induction 1 as [|a l Hs IH Hall]; intros Hg; [constructor|].
  destruct l as [|b l].
  - constructor; constructor.
  - destruct Hg as [Hab Hg]. constructor; [|apply IH, Hg].
    constructor; [exact Hab|].
    inversion Hs as [|? ? _ Hb]; subst.
    rewrite Forall_forall in *. intros y Hy.
    specialize (Hb y Hy). lra.
Qed.

(** The loop unfolds as the source reads. *)
Lemma refractory_loop_step (l : list Q) :
  refractory_loop refr l =
  if lt_dec 0 (length (inds0 l refr))
  then refractory_loop refr (refractory_pass l refr)
  else l.
Proof.
  rewrite refractory_loop_equation_1. unfold refractory_loop_clause_1.
  destruct (lt_dec 0 (length (inds0 l refr))); reflexivity.
Qed.

(** Induction over the passes of the loop: a property kept by every pass
    holds of what the loop returns, and the returned array has no
    violator left. *)
Lemma refractory_loop_ind (P : list Q -> Prop) :
  (forall l, P l -> P (refractory_pass l refr)) ->
  forall l, P l ->
    P (refractory_loop refr l) /\ inds0 (refractory_loop refr l) refr = [].
Proof.
  intros Hstep l.
  remember (length l) as n eqn:Hn. revert l Hn.
  induction n as [n IHn] using lt_wf_ind. intros l Hn HP.
  assert (IH : forall l', (length l' < length l)%nat -> P l' ->
            P (refractory_loop refr l') /\
            inds0 (refractory_loop refr l') refr = []).
  { intros l' Hlt. apply (IHn (length l')); [lia | reflexivity]. }
  clear IHn. rewrite refractory_loop_step.
  destruct (lt_dec 0 (length (inds0 l refr))) as [Hlt|Hnlt].
  - apply IH; [|apply Hstep, HP].
    apply refractory_pass_shrinks.
    destruct (inds0 l refr); [simpl in Hlt; lia | discriminate].
  - split; [exact HP|].
    destruct (inds0 l refr); [reflexivity | simpl in Hnlt; lia].
Qed.

Lemma insert_sorted_perm (x : Q) (l : list Q) :
  Permutation (insert_sorted x l) (x :: l).
Proof.
  induction l as [|y l IH]; simpl; [reflexivity|].
  destruct (Qle_bool x y); [reflexivity|].
  rewrite IH. apply perm_swap.
Qed.

Lemma sort_perm (l : list Q) : Permutation (sort l) l.
Proof.
  induction l as [|x l IH]; simpl; [reflexivity|].
  rewrite insert_sorted_perm. constructor. exact IH.
Qed.

Lemma insert_sorted_sorted (x : Q) (l : list Q) :
  StronglySorted Qle l -> StronglySorted Qle (insert_sorted x l).
Proof.
  induction 1 as [|y l Hs IH Hall]; simpl.
  - constructor; constructor.
  - destruct (Qle_bool x y) eqn:E.
    + apply Qle_bool_iff in E.
      constructor; [constructor; assumption|].
      constructor; [exact E|].
      rewrite Forall_forall in *. intros z Hz. specialize (Hall z Hz). lra.
    + apply Qle_bool_false in E.
      constructor; [exact IH|].
      rewrite Forall_forall in *. intros z Hz.
      apply (Permutation_in _ (insert_sorted_perm x l)) in Hz.
      destruct Hz as [<-|Hz]; [lra | apply Hall, Hz].
Qed.

Lemma sort_sorted (l : list Q) : StronglySorted Qle (sort l).
Proof.
  induction l as [|x l IH]; simpl; [constructor|].
  apply insert_sorted_sorted, IH.
Qed.

Lemma enforce_refractory_period_loop (times_in : list Q) :
  enforce_refractory_period times_in refr = refractory_loop refr (sort times_in).
Proof.
  destruct times_in as [|t l]; [|reflexivity].
  simpl. rewrite refractory_loop_step. reflexivity.
Qed.

Lemma enforce_refractory_period_sorted (times_in : list Q) :
  StronglySorted Qle (enforce_refractory_period times_in refr).
Proof.
  rewrite enforce_refractory_period_loop.
  apply (refractory_loop_ind (StronglySorted Qle)).
  - intros l. apply refractory_pass_sorted.
  - apply sort_sorted.
Qed.

Lemma enforce_refractory_period_fixed (times_in : list Q) :
  inds0 (enforce_refractory_period times_in refr) refr = [].
Proof.
  rewrite enforce_refractory_period_loop.
  apply (refractory_loop_ind (fun _ => True)); auto.
Qed.

Lemma enforce_refractory_period_pairs (times_in : list Q) :
  ForallOrdPairs (fun x y => refr < y - x)
    (enforce_refractory_period times_in refr).
Proof.
  apply sorted_gaps_pairs.
  - apply enforce_refractory_period_sorted.
  - apply no_violator_gaps, enforce_refractory_period_fixed.
Qed.

Lemma enforce_refractory_period_incl (times_in : list Q) :
  incl (enforce_refractory_period times_in refr) times_in.
Proof.
  rewrite enforce_refractory_period_loop.
  apply (refractory_loop_ind (fun l => incl l times_in)).
  - intros l Hl. eapply incl_tran; [apply refractory_pass_incl | exact Hl].
  - intros x Hx. apply (Permutation_in _ (sort_perm times_in)), Hx.
Qed.

End RefractoryRepair.

(** C9.  The repair loop terminates ([refractory_loop] is defined by
    well-founded recursion on the length of the array, so it returns on
    every finite input); every pass that finds a violator returns a
    strictly shorter array; and what the loop returns has no violator
    left and no two times within the threshold of each other. *)
Theorem refractory_repair_terminates_at_fixed_point :
  forall (times_in : list Q) (refr : Q),
    (forall times0 : list Q,
        (0 < length (inds0 times0 refr))%nat ->
        (length (refractory_pass times0 refr) < length times0)%nat)
    /\ inds0 (enforce_refractory_period times_in refr) refr = []
    /\ ForallOrdPairs (fun x y => refr < y - x)
         (enforce_refractory_period times_in refr).
Proof.
  intros times_in refr. split; [|split].
  - intros times0 H. apply refractory_pass_shrinks.
    destruct (inds0 times0 refr); [simpl in H; lia | discriminate].
  - apply enforce_refractory_period_fixed.
  - apply enforce_refractory_period_pairs.
Qed.

(** ** Which member of a violating pair survives *)

Section SurvivorOfAPair.

Variables (refr b : Q).
Hypothesis b_nonneg : 0 <= b.



End SurvivorOfAPair.





(* ===================================================================== *)
(** * Properties of the firing generator                                  *)
(* ===================================================================== *)

(** Invert a successful [bind]. *)
Ltac bind_ok H :=
  unfold Py.bind in H;
  match type of H with
  | match ?c with Ok _ => _ | Raise _ => _ end = Ok _ =>
      let E := fresh "E" in
      destruct c eqn:E; [cbv beta iota zeta in H | discriminate H]
  end.

Lemma fl_correct (q : Q) : fl q == q.
Proof. apply Qred_correct. Qed.

Lemma Ok_inj {A} (a b : A) : Ok a = Ok b -> a = b.
Proof. intros H. injection H as ->. reflexivity. Qed.

Lemma getitem_In {A} (a : list A) (i : Z) (x : A) :
  getitem a i = Ok x -> In x a.
Proof.
  unfold getitem.
  destruct ((0 <=? _) && _)%Z; [|discriminate].
  destruct (nth_error a _) eqn:E; [|discriminate].
  intros [= <-]. eapply nth_error_In, E.
Qed.

Lemma mapM_length {A B} (f : A -> result B) (xs : list A) (ys : list B) :
  mapM f xs = Ok ys -> length ys = length xs.
Proof.
  revert ys. induction xs as [|x xs IH]; intros ys H; simpl in H.
  - apply Ok_inj in H. subst. reflexivity.
  - bind_ok H. bind_ok H. apply Ok_inj in H. subst. simpl.
    f_equal. apply IH. reflexivity.
Qed.

Lemma take_Forall {A} (P : A -> Prop) (a : list A) (inds : list nat) (l : list A) :
  take a inds = Ok l -> Forall P a -> Forall P l.
Proof.
  intros Htake Ha. unfold take in Htake. rewrite Forall_forall in Ha.
  revert l Htake. induction inds as [|i inds IH]; simpl; intros l H.
  - injection H as <-. constructor.
  - bind_ok H. bind_ok H. injection H as <-.
    constructor; [eapply Ha, getitem_In; eassumption | apply IH; reflexivity].
Qed.

Lemma take_length {A} (a : list A) (inds : list nat) (l : list A) :
  take a inds = Ok l -> length l = length inds.
Proof.
  unfold take. revert l. induction inds as [|i inds IH]; simpl; intros l H.
  - injection H as <-. reflexivity.
  - bind_ok H. bind_ok H. injection H as <-. simpl. f_equal. apply IH. reflexivity.
Qed.

Section FiringLabels.

Context {R : NumpyRandom}.

Lemma unit_firings_labels sf N pops seeds unit_id g times0 labels0 g' :
  unit_firings sf N pops seeds unit_id g = Ok ((times0, labels0), g') ->
  labels0 = repeat 1%Z (length times0).
Proof.
  unfold unit_firings. intros H.
  bind_ok H. bind_ok H. destruct (rand g a0) as [u g1].
  bind_ok H. bind_ok H. bind_ok H. bind_ok H.
  injection H as <- <- <-. rewrite length_map. reflexivity.
Qed.

Lemma firings_by_unit_labels K sf N pops seeds g times labels g' :
  firings_by_unit K sf N pops seeds g = Ok ((times, labels), g') ->
  Forall (Forall (eq 1%Z)) labels.
Proof.
  unfold firings_by_unit.
  assert (Hgen : forall ids acc_t acc_l g0,
    Forall (Forall (eq 1%Z)) acc_l ->
    foldM (fun '(times, labels, g) unit_id =>
             '(times0, labels0, g') <- unit_firings sf N pops seeds unit_id g ;;
             Ok (times ++ [times0], labels ++ [labels0], g'))
          ids (acc_t, acc_l, g0) = Ok ((times, labels), g') ->
    Forall (Forall (eq 1%Z)) labels).
  { induction ids as [|k ids IH]; intros acc_t acc_l g0 Hacc H.
    - simpl in H. injection H as <- <- <-. exact Hacc.
    - simpl in H. bind_ok H.
      destruct (unit_firings sf N pops seeds k g0) as [[[t0 l0] g1]|] eqn:Eu;
        [|discriminate E].
      simpl in E. injection E as <-.
      apply (IH _ _ _) in H; [exact H|].
      apply Forall_app. split; [exact Hacc|].
      constructor; [|constructor].
      rewrite (unit_firings_labels _ _ _ _ _ _ _ _ _ Eu).
      apply Forall_forall. intros x Hx. symmetry. eapply repeat_spec, Hx. }
  apply Hgen. constructor.
Qed.

(** Whatever the generator draws and however many units there are, every
    label that [synthesize_random_firings] returns is [1]. *)
Lemma synthesize_random_firings_labels K sf duration seed g times labels g' :
  synthesize_random_firings K sf duration seed g = Ok ((times, labels), g') ->
  labels = repeat 1%Z (length times).
Proof.
  unfold synthesize_random_firings. intros H.
  bind_ok H. destruct a as [seeds g0].
  bind_ok H. destruct a as [N pops].
  bind_ok H. destruct a as [[ts ls] g1].
  bind_ok H. bind_ok H. bind_ok H. bind_ok H.
  injection H as <- <- <-.
  apply firings_by_unit_labels in E1.
  assert (Hall : Forall (eq 1%Z) a0).
  { unfold concatenate in E3.
    assert (a0 = concat ls) as -> by (destruct ls; [discriminate | congruence]).
    apply Forall_concat. exact E1. }
  pose proof (take_Forall _ _ _ _ E5 Hall) as Hl.
  rewrite (take_length _ _ _ E4), <- (take_length _ _ _ E5).
  clear -Hl. induction Hl as [|x l <- _ IH]; simpl; [reflexivity|].
  f_equal. exact IH.
Qed.

Lemma ForallOrdPairs_map {A B} (near : A -> A -> Prop) (near' : B -> B -> Prop)
    (f : A -> B) (l : list A) :
  (forall x y, In x l -> In y l -> near x y -> near' (f x) (f y)) ->
  ForallOrdPairs near l -> ForallOrdPairs near' (map f l).
Proof.
  intros Hf H. induction H as [|x l Hx _ IH]; simpl; constructor.
  - rewrite Forall_forall in *. intros y' Hy'.
    apply in_map_iff in Hy'. destruct Hy' as (y & <- & Hy).
    apply Hf; [left; reflexivity | right; exact Hy | apply Hx, Hy].
  - apply IH. intros a b Ha Hb. apply Hf; right; assumption.
Qed.

Lemma Qtruncate_floor (q : Q) :
  0 <= q -> inject_Z (Qtruncate q) <= q /\ q < inject_Z (Qtruncate q) + 1.
Proof.
  intros Hq.
  assert (Hfloor : Qtruncate q = Qfloor q).
  { destruct q as [n d]. unfold Qtruncate, Qfloor. simpl.
    apply Z.quot_div_nonneg; [|lia].
    unfold Qle in Hq. simpl in Hq. lia. }
  rewrite Hfloor. split; [apply Qfloor_le|].
  pose proof (Qlt_floor q) as H. rewrite inject_Z_plus in H. exact H.
Qed.

(** Inside one unit the repaired times keep their distance after the
    conversion to integers: when the threshold is a whole number [n] of
    samples, any two times of the unit are at least [n] apart. *)
Lemma unit_firings_respect_refractory sf N pops seeds unit_id g times0 labels0 g'
    (n : Z) :
  unit_firings sf N pops seeds unit_id g = Ok ((times0, labels0), g') ->
  refr / 1000 * sf == inject_Z n ->
  ForallOrdPairs (fun x y => (n <= y - x)%Z) times0.
Proof.
  unfold unit_firings. intros H Hn.
  bind_ok H. bind_ok H.
  match type of H with context [rand ?g0 ?k] => destruct (rand g0 k) as [u g1] end.
  bind_ok H. bind_ok H. bind_ok H. bind_ok H.
  apply Ok_inj in H. apply (f_equal (fun p => fst (fst p))) in H.
  cbn [fst] in H. subst times0.
  match goal with |- context [enforce_refractory_period ?l ?r] =>
    set (candidates := l); set (threshold := r) end.
  assert (Hthr : threshold == inject_Z n)
    by (unfold threshold; eapply Qeq_trans; [apply fl_correct | exact Hn]).
  apply (ForallOrdPairs_map (fun x y => threshold < y - x));
    [|apply enforce_refractory_period_pairs].
  intros x y Hx Hy Hxy.
  assert (Hpos : forall t, In t (enforce_refractory_period candidates threshold) ->
                           0 <= t).
  { intros t Ht. apply enforce_refractory_period_incl in Ht.
    unfold candidates in Ht. apply filter_In in Ht. destruct Ht as [_ Ht].
    apply andb_prop in Ht. destruct Ht as [Ht _]. apply Qle_bool_iff, Ht. }
  destruct (Qtruncate_floor x (Hpos x Hx)) as [Hx1 Hx2].
  destruct (Qtruncate_floor y (Hpos y Hy)) as [Hy1 Hy2].
  assert (Hgap : inject_Z (n - 1) < inject_Z (Qtruncate y - Qtruncate x)).
  { unfold Z.sub. rewrite !inject_Z_plus, !inject_Z_opp.
    change (inject_Z 1) with 1. lra. }
  rewrite <- Zlt_Qlt in Hgap. lia.
Qed.

End FiringLabels.



(* ===================================================================== *)
(** * Properties of the neuron placer                                     *)
(* ===================================================================== *)

(** C5.  With a single unit the placer does not return: for every channel
    count and every geometry the first iteration divides [k - 1 = 0] by
    [K - 1 = 0] and raises [ZeroDivisionError]; the guard [K > 0] does not
    exclude it. *)
Theorem single_unit_placement_raises :
  forall (M : Z) (geometry : points),
    get_default_neuron_locations M 1 geometry = Raise ZeroDivisionError.
Proof.
  intros M geometry. reflexivity.
Qed.

(** With a single channel and at least two units every unit is placed on
    that channel: [ind0 - 1 = -1] wraps around to the only column. *)
Lemma single_channel_placement (K k : Z) (c : list Q) :
  (1 < K)%Z ->
  neuron_location 1 K [c] k
  = Ok (map2 (fun l r => fl ((1 - 1) * l + 1 * r)) c c).
Proof.
  intros HK. unfold neuron_location.
  replace (K >? 0)%Z with true by lia.
  replace (K - 1 =? 0)%Z with false by lia.
  cbn [Py.bind].
  set (q := fl (inject_Z (k - 1) / inject_Z (K - 1))).
  assert (Hind : fl (q * inject_Z (1 - 1) + 1) = 1).
  { unfold fl. change 1 with (Qred 1) at 2. apply Qred_complete.
    simpl inject_Z. ring. }
  rewrite Hind. reflexivity.
Qed.

(* ===================================================================== *)
(** * Properties of the waveform shaper                                   *)
(* ===================================================================== *)

Lemma map2_length {A B C} (f : A -> B -> C) (xs : list A) (ys : list B) :
  length (map2 f xs ys) = Nat.min (length xs) (length ys).
Proof.
  revert ys. induction xs as [|x xs IH]; intros [|y ys]; simpl; auto.
Qed.

Lemma roll_length {A} (a : list A) (shift : Z) :
  length (roll a shift) = length a.
Proof.
  unfold roll. destruct (length a) as [|n] eqn:E; [exact E|].
  rewrite length_app, length_skipn, length_firstn, E. lia.
Qed.

Lemma roll_In {A} (a : list A) (shift : Z) (x : A) :
  In x (roll a shift) -> In x a.
Proof.
  unfold roll. destruct (length a) as [|n]; [auto|].
  intros H. apply in_app_or in H.
  rewrite <- (firstn_skipn (S n - Z.to_nat (shift mod Z.of_nat (S n))) a).
  apply in_or_app. destruct H; [right | left]; assumption.
Qed.

(** After [np.roll(a, target - p)] the entry that was at [p] is at
    [target]. *)
Lemma roll_moves {A} (a : list A) (p : nat) (target : Z) (x : A) :
  nth_error a p = Some x ->
  (0 <= target < Z.of_nat (length a))%Z ->
  nth_error (roll a (target - Z.of_nat p)) (Z.to_nat target) = Some x.
Proof.
  intros Hp Ht.
  assert (Hplt : (p < length a)%nat) by (apply nth_error_Some; congruence).
  unfold roll. destruct (length a) as [|n] eqn:E; [lia|]. rewrite <- E in *.
  set (len := Z.of_nat (length a)) in *.
  destruct (Z_lt_le_dec target (Z.of_nat p)) as [Hlt|Hge].
  - assert (Hs : ((target - Z.of_nat p) mod len = target - Z.of_nat p + len)%Z).
    { symmetry. apply (Z.mod_unique _ _ (-1)); lia. }
    rewrite Hs.
    rewrite nth_error_app1 by (rewrite length_skipn; lia).
    rewrite nth_error_skipn, <- Hp. f_equal. lia.
  - assert (Hs : ((target - Z.of_nat p) mod len = target - Z.of_nat p)%Z).
    { apply Z.mod_small. lia. }
    rewrite Hs.
    rewrite nth_error_app2 by (rewrite length_skipn; lia).
    rewrite length_skipn, nth_error_firstn.
    replace (_ <? _)%nat with true by (symmetry; apply Nat.ltb_lt; lia).
    rewrite <- Hp. f_equal. lia.
Qed.

Lemma argmax_from_spec (a : list Q) (pre : list Q) (best : Q) (best_i : nat) :
  nth_error (pre ++ a) best_i = Some best ->
  (best_i < length pre)%nat ->
  Forall (fun x => x <= best) pre ->
  exists x,
    nth_error (pre ++ a) (argmax_from best best_i (length pre) a) = Some x /\
    Forall (fun y => y <= x) (pre ++ a).
Proof.
  revert pre best best_i.
  induction a as [|y a IH]; intros pre best best_i Hbest Hlt Hpre; simpl.
  - exists best. rewrite app_nil_r in *. auto.
  - assert (Happ : pre ++ y :: a = (pre ++ [y]) ++ a)
      by (rewrite <- app_assoc; reflexivity).
    assert (Hlen : S (length pre) = length (pre ++ [y]))
      by (rewrite length_app; simpl; lia).
    rewrite Happ, Hlen in *.
    destruct (Qle_bool y best) eqn:E.
    + apply IH; [exact Hbest | rewrite <- Hlen; lia |].
      apply Forall_app. split; [exact Hpre|].
      constructor; [apply Qle_bool_iff, E | constructor].
    + apply Qle_bool_false in E. apply IH.
      * rewrite nth_error_app1 by (rewrite <- Hlen; lia).
        rewrite nth_error_app2 by lia. rewrite Nat.sub_diag. reflexivity.
      * rewrite <- Hlen. lia.
      * apply Forall_app. split; [|constructor; [lra | constructor]].
        eapply Forall_impl; [|exact Hpre]. simpl. intros z Hz. lra.
Qed.

Lemma argmax_spec (a : list Q) (p : nat) :
  argmax a = Ok p ->
  exists x, nth_error a p = Some x /\ Forall (fun y => y <= x) a.
Proof.
  destruct a as [|x a]; [discriminate|].
  simpl. intros [= <-].
  apply (argmax_from_spec a [x] x 0%nat); simpl;
    [reflexivity | lia | constructor; [lra | constructor]].
Qed.

Lemma broadcast_to_length {A} (v : list A) (width : nat) (v' : list A) :
  broadcast_to v width = Ok v' -> length v' = width.
Proof.
  unfold broadcast_to. destruct (Nat.eqb (length v) width) eqn:En.
  - intros [= <-]. apply Nat.eqb_eq, En.
  - destruct v as [|x [|? ?]]; try discriminate.
    intros [= <-]. apply repeat_length.
Qed.

Lemma set_slice_length {A} (a : list A) (start stop : Z) (v a' : list A) :
  set_slice a start stop v = Ok a' -> length a' = length a.
Proof.
  unfold set_slice.
  set (len := Z.of_nat (length a)).
  set (lo := slice_bound len start). set (hi := slice_bound len stop).
  assert (Hlo : (0 <= lo <= len)%Z).
  { unfold lo, slice_bound. destruct (start <? 0)%Z eqn:E; lia. }
  assert (Hhi : (0 <= hi <= len)%Z).
  { unfold hi, slice_bound. destruct (stop <? 0)%Z eqn:E; lia. }
  intros H. bind_ok H. injection H as <-.
  assert (Hfill : length a0 = Z.to_nat (hi - lo))
    by (eapply broadcast_to_length; eassumption).
  rewrite !length_app, length_firstn, length_skipn, Hfill. lia.
Qed.

Lemma smooth_it_length (Y : list Q) (t : Z) :
  length (smooth_it Y t) = length Y.
Proof.
  unfold smooth_it.
  generalize (map (fun i => (i - t)%Z) (range (2 * t + 1))). intros js.
  assert (H : forall acc, length acc = length Y ->
            length (fold_left (fun Z j => map2 (fun z y => fl (z + y)) Z (roll Y j))
                              js acc) = length Y).
  { induction js as [|j js IH]; intros acc Hacc; simpl; [exact Hacc|].
    apply IH. rewrite map2_length, roll_length, Hacc. lia. }
  apply H, repeat_length.
Qed.

Lemma linspace_length (start stop : Q) (num : nat) :
  length (linspace start stop num) = num.
Proof.
  destruct num as [|[|n]]; [reflexivity..|].
  unfold linspace. rewrite length_map, length_seq. reflexivity.
Qed.

Section WaveformShaper.

Context {F : NumpyMath}.

(** C8.  Whenever the shaper returns a waveform, the waveform has length
    [N], and its entry at index [floor(N / 2)] has the largest absolute
    value of all its entries. *)
Theorem waveform_peak_at_midpoint :
  forall (N : Z) (durations amps Y : list Q),
    synthesize_single_waveform N durations amps = Ok Y ->
    Z.of_nat (length Y) = N /\
    exists peak,
      nth_error Y (Z.to_nat (N / 2)) = Some peak /\
      Forall (fun y => Qabs y <= Qabs peak) Y.
Proof.
  intros N durations amps Y H. unfold synthesize_single_waveform in H.
  bind_ok H.
  match goal with d : list Q |- _ =>
    match type of H with context [sum d + 1] =>
      set (len_t := Z.to_nat (Qceiling (sum d + 1))) in *
    end
  end.
  repeat (bind_ok H;
          try match goal with
              | E : set_slice _ _ _ _ = Ok _ |- _ => apply set_slice_length in E
              end).
  apply Ok_inj in H. subst Y.
  match goal with |- context [roll ?y _] => set (Y1 := y) in * end.
  assert (Hlen : Z.of_nat (length Y1) = N).
  { unfold Y1. rewrite length_app, map2_length, smooth_it_length, linspace_length.
    repeat match goal with
           | E : length _ = length _ |- _ => rewrite E; clear E
           end.
    rewrite !repeat_length, Nat.min_id.
    match goal with E : size_arg _ = Ok _ |- _ => unfold size_arg in E;
      destruct (N - Z.of_nat len_t <? 0)%Z eqn:En; [discriminate|];
      injection E as <- end.
    lia. }
  split; [rewrite roll_length; exact Hlen|].
  match goal with E : argmax _ = Ok ?p |- _ =>
    destruct (argmax_spec _ _ E) as (m & Hm & Hall); set (peakind := p) in * end.
  rewrite nth_error_map in Hm.
  destruct (nth_error Y1 peakind) as [peak|] eqn:Hpeak;
    simpl in Hm; [|discriminate].
  injection Hm as <-.
  assert (Hpos : (0 < length Y1)%nat).
  { assert (peakind < length Y1)%nat by (apply nth_error_Some; congruence). lia. }
  exists peak. split.
  - apply roll_moves; [exact Hpeak|]. rewrite Hlen.
    split; [apply Z.div_pos; lia | apply Z.div_lt_upper_bound; lia].
  - rewrite Forall_forall in *. intros y Hy.
    apply Hall, in_map, (roll_In _ _ _ Hy).
Qed.

End WaveformShaper.

Lemma waveform_peak_at_midpoint_witness :
  exists Y,
    synthesize_single_waveform (F := Approx.math) 40 [10; 3; 5; 10] [1 # 2; 10; -1; 0] = Ok Y /\
    Z.of_nat (length Y) = 40%Z /\
    exists peak,
      nth_error Y (Z.to_nat (40 / 2)) = Some peak /\
      Forall (fun y => Qabs y <= Qabs peak) Y.
Proof.
  eexists. split; [vm_compute; reflexivity|].
  apply (waveform_peak_at_midpoint (F := Approx.math) 40 [10; 3; 5; 10] [1 # 2; 10; -1; 0]).
  vm_compute. reflexivity.
Defined.

(* ===================================================================== *)
(** * Properties of the template normalization                            *)
(* ===================================================================== *)

Lemma amax_fold_spec (a : list Q) (x : Q) :
  let p := fold_left (fun best y => if Qle_bool y best then best else y) a x in
  In p (x :: a) /\ x <= p /\ Forall (fun y => y <= p) a.
Proof.
  revert x. induction a as [|y a IH]; intros x; simpl.
  - split; [left; reflexivity | split; [apply Qle_refl | constructor]].
  - destruct (Qle_bool y x) eqn:E.
    + apply Qle_bool_iff in E. destruct (IH x) as (Hin & Hx & Hall).
      split; [destruct Hin as [<-|Hin]; [left; reflexivity | right; right; exact Hin]|].
      split; [exact Hx|]. constructor; [lra | exact Hall].
    + apply Qle_bool_false in E. destruct (IH y) as (Hin & Hy & Hall).
      split; [right; exact Hin|].
      split; [lra|]. constructor; assumption.
Qed.

Lemma amax_spec (a : list Q) (p : Q) :
  amax a = Ok p -> In p a /\ Forall (fun y => y <= p) a.
Proof.
  destruct a as [|x a]; [discriminate|].
  simpl. intros H. apply Ok_inj in H. subst p.
  destruct (amax_fold_spec a x) as (Hin & Hx & Hall).
  split; [exact Hin | constructor; assumption].
Qed.

Lemma amax_nonempty (a : list Q) : a <> [] -> exists p, amax a = Ok p.
Proof. destruct a; [congruence | eexists; reflexivity]. Qed.

(** Scaling every entry by a factor scales the peak by its absolute
    value. *)
Lemma amax_abs_scaled (f : Q -> Q) (k : Q) (a : list Q) (p : Q) :
  0 <= k ->
  (forall x, Qabs (f x) == k * Qabs x) ->
  amax (map Qabs a) = Ok p ->
  exists p', amax (map Qabs (map f a)) = Ok p' /\ p' == k * p.
Proof.
  intros Hk Hf Hp.
  assert (Hne : a <> []) by (destruct a; [discriminate | congruence]).
  destruct (amax_nonempty (map Qabs (map f a))) as [p' Hp'].
  { destruct a; [congruence | discriminate]. }
  exists p'. split; [exact Hp'|].
  apply amax_spec in Hp, Hp'.
  destruct Hp as [Hin Hall], Hp' as [Hin' Hall'].
  rewrite Forall_forall in Hall, Hall'.
  apply in_map_iff in Hin. destruct Hin as (x1 & <- & Hx1).
  apply in_map_iff in Hin'. destruct Hin' as (y & <- & Hy).
  apply in_map_iff in Hy. destruct Hy as (x0 & <- & Hx0).
  apply Qle_antisym.
  - rewrite Hf. rewrite !(Qmult_comm k).
    apply Qmult_le_compat_r; [|exact Hk].
    apply Hall, in_map, Hx0.
  - rewrite <- Hf. apply Hall', in_map, in_map, Hx1.
Qed.

Lemma sum_from (a : list Q) (acc : Q) :
  fold_left Qplus a acc == acc + sum a.
Proof.
  unfold sum. revert acc. induction a as [|x a IH]; intros acc; simpl.
  - ring.
  - rewrite (IH (acc + x)), (IH (0 + x)). ring.
Qed.

Lemma sum_cons (x : Q) (a : list Q) : sum (x :: a) == x + sum a.
Proof. unfold sum at 1. simpl. rewrite sum_from. ring. Qed.

Lemma sum_scaled (k : Q) (a a' : list Q) :
  Forall2 (fun p p' => p' == k * p) a a' -> sum a' == k * sum a.
Proof.
  induction 1 as [|p p' a a' Hp _ IH].
  - unfold sum. simpl. ring.
  - rewrite !sum_cons, Hp, IH. ring.
Qed.

Lemma sum_nonneg (a : list Q) : Forall (fun p => 0 <= p) a -> 0 <= sum a.
Proof.
  induction 1 as [|p a Hp _ IH].
  - unfold sum. simpl. lra.
  - rewrite sum_cons. lra.
Qed.

Lemma mean_correct (a : list Q) :
  mean a == sum a / inject_Z (Z.of_nat (length a)).
Proof. apply fl_correct. Qed.

Lemma peaks_scaled (f : Q -> Q) (k : Q) (us : list (list (list Q))) (peaks : list Q) :
  0 <= k ->
  (forall x, Qabs (f x) == k * Qabs x) ->
  mapM (fun unit => amax (map Qabs (concat unit))) us = Ok peaks ->
  exists peaks',
    mapM (fun unit => amax (map Qabs (concat unit))) (map (map (map f)) us)
      = Ok peaks' /\
    Forall2 (fun p p' => p' == k * p) peaks peaks' /\
    Forall (fun p => 0 <= p) peaks.
Proof.
  intros Hk Hf. revert peaks.
  induction us as [|u us IH]; intros peaks H; simpl in H.
  - apply Ok_inj in H. subst peaks. exists []. simpl. auto.
  - bind_ok H. bind_ok H. apply Ok_inj in H. subst peaks.
    destruct (IH _ eq_refl) as (peaks' & Hpeaks' & Hall & Hpos).
    destruct (amax_abs_scaled f k _ _ Hk Hf E) as (p' & Hp' & Hpp').
    exists (p' :: peaks'). simpl.
    rewrite <- concat_map, Hp', Hpeaks'. simpl.
    split; [reflexivity|]. split; [constructor; assumption|].
    constructor; [|exact Hpos].
    apply amax_spec in E. destruct E as [Hin _].
    apply in_map_iff in Hin. destruct Hin as (x & <- & _). apply Qabs_nonneg.
Qed.

(** The mean of the peaks is not negative. *)
Lemma mean_peak_nonneg (us : list (list (list Q))) (peaks : list Q) :
  mapM (fun unit => amax (map Qabs (concat unit))) us = Ok peaks ->
  0 <= sum peaks /\ 0 <= mean peaks.
Proof.
  intros E.
  assert (Hsum : 0 <= sum peaks).
  { destruct (peaks_scaled (fun x => x) 1 us peaks) as (_ & _ & _ & Hp);
      [lra | intros; ring | exact E | apply sum_nonneg, Hp]. }
  split; [exact Hsum|].
  rewrite mean_correct.
  destruct (length peaks) as [|n].
  - simpl. unfold Qdiv. change (inject_Z 0) with 0. unfold Qinv. simpl. lra.
  - apply Qle_shift_div_l; [|lra].
    change 0 with (inject_Z 0). rewrite <- Zlt_Qlt. lia.
Qed.

(** C4, as the code has it.  After the normalization of a tensor with at
    least one unit, the mean over the units of the peak absolute
    amplitude equals the absolute value of the configured average peak
    amplitude. *)
Theorem normalized_mean_peak_is_abs_amplitude :
  forall (WW WW' : tensor) (average_peak_amplitude : Q),
    normalize_peaks WW average_peak_amplitude = Ok WW' ->
    units WW <> [] ->
    exists peaks,
      peak_amplitudes WW' = Ok peaks /\
      mean peaks == Qabs average_peak_amplitude.
Proof.
  intros WW WW' apa H Hunits. unfold normalize_peaks in H.
  bind_ok H. rename a into peaks.
  destruct (units WW) as [|u us] eqn:Eu; [congruence|].
  destruct (Qeq_bool (mean peaks) 0) eqn:Ez; [discriminate|].
  apply Ok_inj in H. subst WW'.
  apply Qeq_bool_neq in Ez.
  unfold peak_amplitudes in *. simpl shape. simpl units.
  destruct (shape WW) as [[M TT] K].
  destruct (Nat.eqb M 0 || Nat.eqb TT 0); [discriminate|].
  rewrite Eu in E.
  set (mu := mean peaks) in *.
  assert (Hlen : length peaks = S (length us))
    by (apply mapM_length in E; exact E).
  pose (k := Qabs apa / mu).
  assert (Hmu : 0 < mu).
  { destruct (mean_peak_nonneg _ _ E) as [_ H0]. fold mu in H0. lra. }
  destruct (peaks_scaled (fun x => fl (x / mu * apa)) k (u :: us) peaks)
    as (peaks' & Hpeaks' & Hall & Hpos).
  - unfold k. apply Qle_shift_div_l; [exact Hmu|].
    rewrite Qmult_0_l. apply Qabs_nonneg.
  - intros x. rewrite fl_correct. unfold k, Qdiv.
    rewrite !Qabs_Qmult, Qabs_Qinv, (Qabs_pos mu) by lra. ring.
  - exact E.
  - exists peaks'. split; [exact Hpeaks'|].
    assert (Hn : 0 < inject_Z (Z.of_nat (length peaks))).
    { rewrite Hlen. change 0 with (inject_Z 0). rewrite <- Zlt_Qlt. lia. }
    assert (HS : sum peaks == mu * inject_Z (Z.of_nat (length peaks))).
    { unfold mu. rewrite mean_correct. field. lra. }
    rewrite mean_correct, (sum_scaled k peaks peaks' Hall).
    rewrite <- (Forall2_length Hall), HS. unfold k. field. split; lra.
Qed.

Lemma normalized_mean_peak_is_abs_amplitude_witness :
  exists WW' peaks,
    normalize_peaks {| shape := (1, 2, 1)%nat; units := [[[1; -2]]] |} (-100)
      = Ok WW' /\
    peak_amplitudes WW' = Ok peaks /\
    mean peaks == Qabs (-100).
Proof.
  eexists.
  destruct (normalized_mean_peak_is_abs_amplitude
              {| shape := (1, 2, 1)%nat; units := [[[1; -2]]] |}
              {| shape := (1, 2, 1)%nat; units := [[[-50; 100]]] |}
              (-100))
    as (peaks & Hpeaks & Hmean).
  - vm_compute. reflexivity.
  - discriminate.
  - exists peaks. split; [vm_compute; reflexivity|]. split; assumption.
Defined.

(** C4, as the claim words it, fails on a tensor with one unit, one
    channel and the two samples [1; -2], normalized to an average peak
    amplitude of -100: the entries become [-50; 100], the only peak is 100
    and so is the mean, not -100. *)
Lemma normalized_mean_peak_signed_counterexample :
  normalize_peaks {| shape := (1, 2, 1)%nat; units := [[[1; -2]]] |} (-100)
    = Ok {| shape := (1, 2, 1)%nat; units := [[[-50; 100]]] |} /\
  peak_amplitudes {| shape := (1, 2, 1)%nat; units := [[[-50; 100]]] |}
    = Ok [100] /\
  mean [100] == 100 /\
  ~ mean [100] == -100.
Proof.
  split; [vm_compute; reflexivity|].
  split; [vm_compute; reflexivity|].
  split; [reflexivity | discriminate].
Qed.

(* ===================================================================== *)
(** * Properties of the time-series compositor                            *)
(* ===================================================================== *)

Lemma same_where_refl (P : nat -> Prop) (X : list (list Q)) :
  Forall2 (same_where P) X X.
Proof.
  induction X; constructor; [split; auto | assumption].
Qed.

Lemma same_where_trans (P : nat -> Prop) (X Y Z : list (list Q)) :
  Forall2 (same_where P) X Y -> Forall2 (same_where P) Y Z ->
  Forall2 (same_where P) X Z.
Proof.
  intros H. revert Z. induction H as [|x y X Y [Hl Hxy] _ IH]; intros Z HZ.
  - inversion HZ. constructor.
  - inversion HZ as [|? z ? Z' [Hl' Hyz] HZ']; subst. constructor; [|apply IH, HZ'].
    split; [congruence|]. intros c Hc. rewrite Hyz, Hxy; auto.
Qed.

Lemma same_where_lengths (P : nat -> Prop) (N : Z) (X Y : list (list Q)) :
  Forall2 (same_where P) X Y ->
  Forall (fun row => Z.of_nat (length row) = N) X ->
  Forall (fun row => Z.of_nat (length row) = N) Y.
Proof.
  induction 1 as [|x y X Y [Hl _] _ IH]; intros HX; [constructor|].
  inversion HX; subst. constructor; [congruence | apply IH; assumption].
Qed.

(** A slice assignment inside the array leaves every entry outside
    [[start, stop)] as it was. *)
Lemma set_slice_outside (row v row' : list Q) (start stop : Z) (c : nat) :
  set_slice row start stop v = Ok row' ->
  (0 <= start <= stop)%Z -> (stop <= Z.of_nat (length row))%Z ->
  ~ (start <= Z.of_nat c < stop)%Z ->
  nth c row' 0 = nth c row 0.
Proof.
  unfold set_slice. intros H Hss Hlen Hc.
  unfold slice_bound in H.
  replace (start <? 0)%Z with false in H by lia.
  replace (stop <? 0)%Z with false in H by lia.
  rewrite !Z.min_l in H by lia.
  bind_ok H. apply Ok_inj in H. subst row'.
  apply broadcast_to_length in E.
  destruct (Z_lt_le_dec (Z.of_nat c) start) as [Hlt|Hge].
  - rewrite app_nth1 by (rewrite length_firstn; lia).
    rewrite nth_firstn.
    replace (c <? Z.to_nat start)%nat with true
      by (symmetry; apply Nat.ltb_lt; lia).
    reflexivity.
  - rewrite app_nth2 by (rewrite length_firstn; lia).
    rewrite app_nth2 by (rewrite length_firstn; lia).
    rewrite nth_skipn, length_firstn, E. f_equal. lia.
Qed.

Lemma stamp_row_same (P : nat -> Prop) (row w row' : list Q)
    (tstart T offset step : Z) (amp0 : Q) :
  stamp_row row w tstart T offset step amp0 = Ok row' ->
  window_fits T (Z.of_nat (length row)) tstart = true ->
  (0 <= T)%Z ->
  (forall c, P c -> ~ (tstart <= Z.of_nat c < tstart + T)%Z) ->
  same_where P row row'.
Proof.
  unfold stamp_row, window_fits. intros H Hfit HT HP.
  apply andb_prop in Hfit. destruct Hfit as [H0 HN].
  apply Z.leb_le in H0, HN.
  bind_ok H. bind_ok H.
  split; [eapply set_slice_length, H|].
  intros c Hc. eapply set_slice_outside; [exact H | lia | lia | apply HP, Hc].
Qed.

Lemma stamp_rows_same (P : nat -> Prop) (N : Z) (X w : list (list Q))
    (tstart T offset step : Z) (amp0 : Q) :
  Forall (fun row => Z.of_nat (length row) = N) X ->
  window_fits T N tstart = true ->
  (0 <= T)%Z ->
  (forall c, P c -> ~ (tstart <= Z.of_nat c < tstart + T)%Z) ->
  forall (s : nat) (X' : list (list Q)),
    mapM (fun '(m, row) =>
            waveform_row <- getitem w (Z.of_nat m) ;;
            stamp_row row waveform_row tstart T offset step amp0)
         (combine (seq s (length X)) X) = Ok X' ->
    Forall2 (same_where P) X X'.
Proof.
  intros HX Hfit HT HP.
  induction HX as [|row X Hrow _ IH]; intros s X' H; simpl in H.
  - apply Ok_inj in H. subst. constructor.
  - bind_ok H. bind_ok H. apply Ok_inj in H. subst X'. bind_ok E.
    constructor; [|eapply IH; eassumption].
    eapply stamp_row_same; try eassumption. rewrite Hrow. exact Hfit.
Qed.

Lemma stamp_same (P : nat -> Prop) (N : Z) (X w X' : list (list Q))
    (tstart T offset step : Z) (amp0 : Q) :
  stamp X w tstart T offset step amp0 = Ok X' ->
  Forall (fun row => Z.of_nat (length row) = N) X ->
  window_fits T N tstart = true ->
  (0 <= T)%Z ->
  (forall c, P c -> ~ (tstart <= Z.of_nat c < tstart + T)%Z) ->
  Forall2 (same_where P) X X'.
Proof.
  unfold stamp. intros H HX Hfit HT HP.
  eapply stamp_rows_same; eassumption.
Qed.

Lemma select_label_In (spike_times : list Q) (spike_labels : list Z) (k0 : Z) (t0 : Q) :
  In t0 (select spike_times (map (Z.eqb k0) spike_labels)) ->
  In (t0, k0) (combine spike_times spike_labels).
Proof.
  revert spike_labels.
  induction spike_times as [|t ts IH]; intros [|l ls]; simpl; try tauto.
  destruct (Z.eqb_spec k0 l) as [->|Hne].
  - intros [<-|H]; [left; reflexivity | right; apply IH, H].
  - intros H. right. apply IH, H.
Qed.

Lemma stamp_times_same (P : nat -> Prop) (waveform0 : list (list Q))
    (T N u : Z) (times0 : list Q) :
  (0 <= T)%Z ->
  (forall t0 c, In t0 times0 -> P c -> ~ window_covers T N t0 c) ->
  forall X X',
    Forall (fun row => Z.of_nat (length row) = N) X ->
    foldM (fun X t0 =>
             if window_fits T N (Qfloor t0 - template_midpoint T)
             then stamp X waveform0 (Qfloor t0 - template_midpoint T) T
                    (frac_offset t0 u) u 1
             else Ok X)
          times0 X = Ok X' ->
    Forall2 (same_where P) X X'.
Proof.
  intros HT. induction times0 as [|t0 ts IH]; intros Hout X X' HX H; simpl in H.
  - apply Ok_inj in H. subst. apply same_where_refl.
  - bind_ok H. rename a into X1.
    assert (H1 : Forall2 (same_where P) X X1).
    { destruct (window_fits T N (Qfloor t0 - template_midpoint T)) eqn:Efit.
      - eapply stamp_same; try eassumption.
        intros c Hc Hin. apply (Hout t0 c); [left; reflexivity | exact Hc |].
        split; assumption.
      - apply Ok_inj in E. subst. apply same_where_refl. }
    eapply same_where_trans; [exact H1|].
    apply IH; [|eapply same_where_lengths; eassumption | exact H].
    intros t c Hin. apply Hout. right. exact Hin.
Qed.

Lemma stamp_spikes_same (spike_times : list Q) (spike_labels unit_ids : list Z)
    (waveforms : tensor) (T N u : Z) (X X' : list (list Q)) :
  (0 <= T)%Z ->
  Forall (fun row => Z.of_nat (length row) = N) X ->
  stamp_spikes spike_times spike_labels unit_ids waveforms T N u X = Ok X' ->
  Forall2 (same_where (outside_all_windows spike_times spike_labels unit_ids T N))
          X X'.
Proof.
  intros HT HX H. unfold stamp_spikes in H.
  set (P := outside_all_windows spike_times spike_labels unit_ids T N).
  revert H.
  cut (forall ids X X',
         incl ids unit_ids ->
         Forall (fun row => Z.of_nat (length row) = N) X ->
         foldM (fun X k0 =>
                  waveform0 <- getitem (units waveforms) (k0 - 1) ;;
                  times0 <- times_with_label spike_times spike_labels k0 ;;
                  foldM (fun X t0 =>
                           if window_fits T N (Qfloor t0 - template_midpoint T)
                           then stamp X waveform0 (Qfloor t0 - template_midpoint T) T
                                  (frac_offset t0 u) u 1
                           else Ok X)
                        times0 X)
               ids X = Ok X' ->
         Forall2 (same_where P) X X').
  { intros Hgen H. eapply Hgen; [apply incl_refl | exact HX | exact H]. }
  clear X X' HX.
  induction ids as [|k0 ids IH]; intros X X' Hids HX H; simpl in H.
  - apply Ok_inj in H. subst. apply same_where_refl.
  - bind_ok H. rename a into X1.
    assert (H1 : Forall2 (same_where P) X X1).
    { clear H IH. bind_ok E. rename a into waveform0.
      bind_ok E. rename a into times0.
      eapply stamp_times_same; [exact HT | | exact HX | exact E].
      intros t0 c Hin Hc. apply (Hc k0 t0); [apply Hids; left; reflexivity|].
      match goal with
      | Et : times_with_label _ _ _ = Ok _ |- _ =>
          unfold times_with_label in Et;
          destruct (Nat.eqb _ _); [|discriminate Et];
          apply Ok_inj in Et; subst times0
      end.
      apply select_label_In, Hin. }
    eapply same_where_trans; [exact H1|].
    apply IH; [|eapply same_where_lengths; eassumption | exact H].
    intros k Hk. apply Hids. right. exact Hk.
Qed.

(** Spikes whose window does not fit are passed over: the loop over the
    times of a unit returns the array it was given, without raising. *)
Lemma dropped_spikes_change_nothing (waveform0 X : list (list Q))
    (T N u : Z) (times0 : list Q) :
  (forall t0, In t0 times0 ->
              window_fits T N (Qfloor t0 - template_midpoint T) = false) ->
  foldM (fun X t0 =>
           if window_fits T N (Qfloor t0 - template_midpoint T)
           then stamp X waveform0 (Qfloor t0 - template_midpoint T) T
                  (frac_offset t0 u) u 1
           else Ok X)
        times0 X = Ok X.
Proof.
  induction times0 as [|t0 ts IH]; intros Hdrop; simpl; [reflexivity|].
  rewrite (Hdrop t0) by (left; reflexivity). cbn [Py.bind].
  apply IH. intros t Ht. apply Hdrop. right. exact Ht.
Qed.

Lemma reshape_rows {A} (rows cols : nat) (flat : list A) :
  length flat = (rows * cols)%nat ->
  Forall (fun row => length row = cols) (reshape rows cols flat).
Proof.
  revert flat. induction rows as [|rows IH]; intros flat H; simpl; constructor.
  - rewrite length_firstn. simpl in H. lia.
  - apply IH. rewrite length_skipn. simpl in H. lia.
Qed.

Lemma Qtruncate_nonneg (q : Q) : 0 <= q -> (0 <= Qtruncate q)%Z.
Proof.
  unfold Qle, Qtruncate. simpl. intros H.
  apply Z.quot_pos; lia.
Qed.

Lemma template_length_nonneg (TT : nat) (u T : Z) :
  (0 < u)%Z -> template_length TT u = Ok T -> (0 <= T)%Z.
Proof.
  unfold template_length. intros Hu H.
  destruct (u =? 0)%Z; [discriminate|]. apply Ok_inj in H. subst T.
  apply Qtruncate_nonneg.
  apply Qle_shift_div_l.
  - change 0 with (inject_Z 0). rewrite <- Zlt_Qlt. exact Hu.
  - rewrite Qmult_0_l. change 0 with (inject_Z 0). rewrite <- Zle_Qle. lia.
Qed.

Section Compositor.

Context {R : NumpyRandom}.

Lemma noise_background_rows (M : nat) (N : Z) (noise_level : Q)
    (seed : option Z) (g g' : rng) (X : list (list Q)) :
  noise_background M N noise_level seed g = Ok (X, g') ->
  Forall (fun row => Z.of_nat (length row) = N) X.
Proof.
  unfold noise_background. intros H.
  bind_ok H. rename a into n.
  assert (HN : Z.of_nat n = N).
  { unfold size_arg in E. destruct (N <? 0)%Z eqn:En; [discriminate|].
    apply Ok_inj in E. subst n. lia. }
  bind_ok H. destruct a as [flat g1]. apply Ok_inj in H.
  injection H as <- <-.
  assert (Hflat : length flat = (M * n)%nat).
  { destruct seed as [s|].
    - bind_ok E0. apply Ok_inj in E0. injection E0 as <- <-. apply randn_length.
    - apply Ok_inj in E0.
      pose proof (randn_length g (M * n)) as Hl.
      rewrite E0 in Hl. exact Hl. }
  eapply Forall_impl; [|apply reshape_rows; rewrite length_map; exact Hflat].
  simpl. intros row Hrow. lia.
Qed.

(** C7.  With a positive upsampling factor, whenever the compositor
    returns [X]: [X] has the rows of the noise background, and at every
    column that lies in no fitting window of a spike of a listed unit, [X]
    equals the background.  A spike whose window starts below 0 or ends
    beyond [N] has no fitting window, so it changes nothing. *)
Theorem compositor_leaves_background_outside_windows :
  forall (spike_times : list Q) (spike_labels unit_ids : list Z)
         (waveforms : tensor) (sampling_frequency : Q) (duration : pyvalue)
         (noise_level : Q) (waveform_upsamplefac : Z) (seed : option Z)
         (g g' : rng) (X : list (list Q)),
    (0 < waveform_upsamplefac)%Z ->
    synthesize_timeseries spike_times spike_labels unit_ids waveforms
      sampling_frequency duration noise_level waveform_upsamplefac seed g
      = Ok (X, g') ->
    exists (num_timepoints : Q) (T : Z) (background : list (list Q)),
      mul_float duration sampling_frequency = Ok num_timepoints /\
      template_length (snd (fst (shape waveforms))) waveform_upsamplefac = Ok T /\
      noise_background (fst (fst (shape waveforms))) (Qtruncate num_timepoints)
        noise_level seed g = Ok (background, g') /\
      length X = length background /\
      forall (m c : nat),
        outside_all_windows spike_times spike_labels unit_ids T
          (Qtruncate num_timepoints) c ->
        nth c (nth m X []) 0 = nth c (nth m background []) 0.
Proof.
  intros st sl ids W sf d nl u seed g g' X Hu H.
  unfold synthesize_timeseries in H.
  bind_ok H. rename a into dN.
  destruct (shape W) as [[M TT] K]. simpl.
  bind_ok H. rename a into T.
  bind_ok H. destruct a as [X0 g0].
  bind_ok H. apply Ok_inj in H. injection H as <- <-.
  pose proof (stamp_spikes_same st sl ids W T (Qtruncate dN) u X0 a
                (template_length_nonneg _ _ _ Hu E0)
                (noise_background_rows _ _ _ _ _ _ _ E1) E2) as HF.
  exists dN, T, X0.
  split; [reflexivity|]. split; [reflexivity|]. split; [exact E1|].
  split; [symmetry; eapply Forall2_length, HF|].
  intros m c Hc.
  clear -HF Hc. revert m.
  induction HF as [|x y X Y [_ Hxy] _ IH]; intros m.
  - reflexivity.
  - destruct m as [|m]; simpl; [apply Hxy, Hc | apply IH].
Qed.

End Compositor.

Lemma compositor_leaves_background_outside_windows_witness :
  exists X g',
    synthesize_timeseries (R := Lcg.generator)
      [0; 1; 2; 5 # 2; 7; 8; 9] [1; 2; 1; 2; 1; 2; 1]%Z [0; 1]%Z
      {| shape := (2, 6, 2)%nat;
         units := [[[1; 2; 3; 4; 5; 6]; [10; 20; 30; 40; 50; 60]];
                   [[100; 200; 300; 400; 500; 600]; [-1; -2; -3; -4; -5; -6]]] |}
      1000 (PyNum (PyFloat (1 # 100))) 10 2 (Some 3%Z) 0%Z = Ok (X, g') /\
    exists (num_timepoints : Q) (T : Z) (background : list (list Q)),
      mul_float (PyNum (PyFloat (1 # 100))) 1000 = Ok num_timepoints /\
      template_length 6 2 = Ok T /\
      noise_background (R := Lcg.generator) 2 (Qtruncate num_timepoints) 10
        (Some 3%Z) 0%Z = Ok (background, g') /\
      length X = length background /\
      forall (m c : nat),
        outside_all_windows [0; 1; 2; 5 # 2; 7; 8; 9] [1; 2; 1; 2; 1; 2; 1]%Z
          [0; 1]%Z T (Qtruncate num_timepoints) c ->
        nth c (nth m X []) 0 = nth c (nth m background []) 0.
Proof.
  eexists. eexists. split; [vm_compute; reflexivity|].
  apply (compositor_leaves_background_outside_windows (R := Lcg.generator)
           [0; 1; 2; 5 # 2; 7; 8; 9] [1; 2; 1; 2; 1; 2; 1]%Z [0; 1]%Z
           {| shape := (2, 6, 2)%nat;
              units := [[[1; 2; 3; 4; 5; 6]; [10; 20; 30; 40; 50; 60]];
                        [[100; 200; 300; 400; 500; 600]; [-1; -2; -3; -4; -5; -6]]] |}
           1000 (PyNum (PyFloat (1 # 100))) 10 2 (Some 3%Z) 0%Z).
  - lia.
  - vm_compute. reflexivity.
Defined.

(* ===================================================================== *)
(** * Properties of the orchestrator                                      *)
(* ===================================================================== *)

Section Orchestrator.

Context {R : NumpyRandom} {F : NumpyMath}.

Lemma draw_seeds_again (seed : option Z) (K : Z) (g g1 : rng) (r : list Z * rng) :
  draw_seeds seed K g = Ok r -> exists r1, draw_seeds seed K g1 = Ok r1.
Proof.
  unfold draw_seeds. destruct seed as [s|]; intros H.
  - exists r. exact H.
  - bind_ok H. eexists. reflexivity.
Qed.

Lemma synthesize_random_waveforms_seeds M T K u shift apa seed g r :
  synthesize_random_waveforms M T K u shift apa seed g = Ok r ->
  exists r0, draw_seeds seed K g = Ok r0.
Proof.
  unfold synthesize_random_waveforms. intros H. bind_ok H. eexists. reflexivity.
Qed.

(** With a list for [duration] the firing generator raises [TypeError] as
    soon as its seeds are drawn. *)
Lemma synthesize_random_firings_list (K : Z) (sf : Q) (l : list pynumber)
    (seed : option Z) (g : rng) (r : list Z * rng) :
  draw_seeds seed K g = Ok r ->
  synthesize_random_firings K sf (PyList l) seed g = Raise TypeError.
Proof.
  intros H. unfold synthesize_random_firings. rewrite H.
  destruct r as [seeds g']. reflexivity.
Qed.

(** C6.  When [duration] is a list of floats of the right length, with at
    least one segment, and the templates have been built, [toy_example]
    raises [TypeError]: it passes the whole list, not [durations[i]], to
    [synthesize_random_firings], which multiplies it by the sampling
    frequency. *)
Theorem list_duration_raises_type_error :
  forall (l : list pynumber) (num_channels num_units : Z)
         (sampling_frequency : Q) (num_segments : Z)
         (average_peak_amplitude : Q) (upsamplefac : Z) (seed : option Z)
         (g : rng),
    (0 < num_segments)%Z ->
    Z.of_nat (length l) = num_segments ->
    forallb (fun d => isinstance_float (PyNum d)) l = true ->
    returns (synthesize_random_waveforms num_channels 500 num_units
               upsamplefac 3 average_peak_amplitude seed g) = true ->
    toy_example (PyList l) num_channels num_units sampling_frequency
      num_segments average_peak_amplitude upsamplefac seed g
    = Raise TypeError.
Proof.
  intros l M K sf nseg apa u seed g Hpos Hlen Hfloat HW.
  destruct (synthesize_random_waveforms M 500 K u 3 apa seed g)
    as [[[W geom] g1]|e] eqn:EW; [clear HW; rename EW into HW | discriminate HW].
  unfold toy_example, check_durations.
  rewrite Hlen, Z.eqb_refl, Hfloat. cbn [negb Py.bind].
  rewrite HW. cbn [Py.bind].
  destruct (synthesize_random_waveforms_seeds _ _ _ _ _ _ _ _ _ HW) as [r0 Hr0].
  destruct (draw_seeds_again _ _ _ g1 _ Hr0) as [r1 Hr1].
  unfold range. destruct (Z.to_nat nseg) as [|n] eqn:En; [lia|].
  cbn [seq map foldM Py.bind]. unfold toy_segment.
  rewrite (synthesize_random_firings_list _ _ _ _ _ _ Hr1). reflexivity.
Qed.

(** With a seed, a segment does not depend on the state of the global
    generator it starts from. *)
Lemma toy_segment_seeded (K : Z) (sf : Q) (d : pyvalue) (ids : list Z)
    (W : tensor) (u s : Z) (g1 g2 : rng) :
  toy_segment K sf d ids W u (Some s) g1 = toy_segment K sf d ids W u (Some s) g2.
Proof.
  unfold toy_segment.
  assert (Hf : synthesize_random_firings K sf d (Some s) g1
               = synthesize_random_firings K sf d (Some s) g2) by reflexivity.
  rewrite Hf. reflexivity.
Qed.

Lemma toy_segments_repeat (K : Z) (sf : Q) (d : pyvalue) (ids : list Z)
    (W : tensor) (u s : Z) (times labels : list Z) (traces : list (list Q))
    (g1 : rng) :
  (forall g, toy_segment K sf d ids W u (Some s) g
             = Ok ((times, labels, traces), g1)) ->
  forall (indices : list Z) traces_acc times_acc labels_acc g,
  exists g',
    foldM (fun '(traces_list, times_list, labels_list, g) (_ : Z) =>
             '(times, labels, traces, g) <-
               toy_segment K sf d ids W u (Some s) g ;;
             Ok (traces_list ++ [traces], times_list ++ [times],
                 labels_list ++ [labels], g))
          indices (traces_acc, times_acc, labels_acc, g)
    = Ok (traces_acc ++ repeat traces (length indices),
          times_acc ++ repeat times (length indices),
          labels_acc ++ repeat labels (length indices), g').
Proof.
  intros Hseg. induction indices as [|i indices IH];
    intros tr_acc t_acc l_acc g; simpl.
  - exists g. rewrite !app_nil_r. reflexivity.
  - rewrite Hseg. cbn [Py.bind].
    destruct (IH (tr_acc ++ [traces]) (t_acc ++ [times]) (l_acc ++ [labels]) g1)
      as [g' Hg'].
    exists g'. rewrite Hg', <- !app_assoc. reflexivity.
Qed.

(** C10.  With a seed, whenever [toy_example] returns, it returns one
    entry per segment and the spike times, the labels and the traces of
    any two segments are the same. *)
Theorem seeded_segments_are_identical :
  forall (duration : pyvalue) (num_channels num_units : Z)
         (sampling_frequency : Q) (num_segments : Z)
         (average_peak_amplitude : Q) (upsamplefac : Z) (seed : Z) (g g' : rng)
         (recording : NumpyRecording) (sorting : NumpySorting),
    toy_example duration num_channels num_units sampling_frequency
      num_segments average_peak_amplitude upsamplefac (Some seed) g
    = Ok ((recording, sorting), g') ->
    length (traces_list recording) = Z.to_nat num_segments /\
    length (times_list sorting) = Z.to_nat num_segments /\
    length (labels_list sorting) = Z.to_nat num_segments /\
    forall i j : nat,
      (i < Z.to_nat num_segments)%nat -> (j < Z.to_nat num_segments)%nat ->
      nth i (times_list sorting) [] = nth j (times_list sorting) [] /\
      nth i (labels_list sorting) [] = nth j (labels_list sorting) [] /\
      nth i (traces_list recording) [] = nth j (traces_list recording) [].
Proof.
  intros d M K sf nseg apa u s g g' rec sorting H.
  unfold toy_example in H.
  bind_ok H. destruct a as [d' durations].
  bind_ok H. destruct a as [[W geom] g1].
  bind_ok H. destruct a as [[[traces times] labels] g2].
  apply Ok_inj in H. injection H as <- <- <-.
  cbn [traces_list times_list labels_list].
  assert (Hn : length (range nseg) = Z.to_nat nseg)
    by (unfold range; rewrite length_map, length_seq; reflexivity).
  destruct (toy_segment K sf d' (range K) W u (Some s) g1)
    as [[[[t0 l0] tr0] g3]|e] eqn:Eseg.
  - destruct (toy_segments_repeat K sf d' (range K) W u s t0 l0 tr0 g3)
      with (indices := range nseg) (traces_acc := @nil (list (list Q)))
           (times_acc := @nil (list Z)) (labels_acc := @nil (list Z)) (g := g1)
      as [g4 Hloop].
    { intros g0. rewrite (toy_segment_seeded _ _ _ _ _ _ _ g0 g1). exact Eseg. }
    pose proof (eq_trans (eq_sym E1) Hloop) as Heq.
    apply Ok_inj in Heq.
    injection Heq as -> -> -> ->. simpl app. rewrite Hn, !repeat_length.
    repeat split; try reflexivity;
      rewrite !nth_repeat_lt by assumption; reflexivity.
  - destruct (range nseg) as [|i0 indices] eqn:Er.
    + simpl in Hn. rewrite <- Hn. simpl in E1. apply Ok_inj in E1.
      injection E1 as <- <- <- <-. simpl.
      repeat split; try reflexivity; intros; lia.
    + simpl in E1. rewrite Eseg in E1. discriminate E1.
Qed.

End Orchestrator.

Lemma list_duration_raises_type_error_witness :
  toy_example (R := Lcg.generator) (F := Approx.math)
    (PyList [PyFloat (4 # 1000); PyFloat (4 # 1000)]) 1 2 30000 2 (-100) 1
    (Some 3%Z) 0%Z
  = Raise TypeError.
Proof.
  apply (list_duration_raises_type_error (R := Lcg.generator) (F := Approx.math)
           [PyFloat (4 # 1000); PyFloat (4 # 1000)] 1 2 30000 2 (-100) 1
           (Some 3%Z) 0%Z).
  - lia.
  - reflexivity.
  - reflexivity.
  - vm_compute. reflexivity.
Defined.

Lemma seeded_segments_are_identical_witness :
  exists recording sorting g',
    toy_example (R := Lcg.generator) (F := Approx.math)
      (PyNum (PyFloat (4 # 1000))) 1 2 30000 2 (-100) 1 (Some 3%Z) 0%Z
    = Ok ((recording, sorting), g') /\
    length (traces_list recording) = Z.to_nat 2 /\
    length (times_list sorting) = Z.to_nat 2 /\
    length (labels_list sorting) = Z.to_nat 2 /\
    forall i j : nat,
      (i < Z.to_nat 2)%nat -> (j < Z.to_nat 2)%nat ->
      nth i (times_list sorting) [] = nth j (times_list sorting) [] /\
      nth i (labels_list sorting) [] = nth j (labels_list sorting) [] /\
      nth i (traces_list recording) [] = nth j (traces_list recording) [].
Proof.
  eexists. eexists. eexists. split; [vm_compute; reflexivity|].
  eapply (seeded_segments_are_identical (R := Lcg.generator) (F := Approx.math)
           (PyNum (PyFloat (4 # 1000))) 1 2 30000 2 (-100) 1 3%Z 0%Z).
  vm_compute. reflexivity.
Defined.

(* ===================================================================== *)
(** * Further properties of the refractory repair                         *)
(* ===================================================================== *)

Lemma refractory_pass_removed (l : list Q) (refr : Q) :
  exists removed, Permutation l (refractory_pass l refr ++ removed).
Proof.
  induction l as [|a l (removed & IH)].
  - exists []. rewrite refractory_pass_marks. reflexivity.
  - rewrite refractory_pass_cons.
    destruct (negb (head_marked refr a l) && Qle_bool 0 a).
    + exists removed. simpl. constructor. exact IH.
    + exists (a :: removed). simpl.
      rewrite <- Permutation_middle. constructor. exact IH.
Qed.

(** X1.  Whatever the input and the threshold, the repair returns the
    times in ascending order, and what it returns is the input with some
    entries removed: the input is a rearrangement of the output followed
    by the removed times. *)
Theorem refractory_repair_returns_sorted_rest :
  forall (times_in : list Q) (refr : Q),
    StronglySorted Qle (enforce_refractory_period times_in refr) /\
    exists removed,
      Permutation times_in (enforce_refractory_period times_in refr ++ removed).
Proof.
  intros times_in refr. split; [apply enforce_refractory_period_sorted|].
  rewrite enforce_refractory_period_loop.
  apply (refractory_loop_ind refr
           (fun l => exists removed, Permutation times_in (l ++ removed))).
  - intros l (removed & Hl).
    destruct (refractory_pass_removed l refr) as (removed' & Hp).
    exists (removed' ++ removed).
    eapply Permutation_trans; [exact Hl|].
    rewrite app_assoc. apply Permutation_app_tail. exact Hp.
  - exists []. rewrite app_nil_r. symmetry. apply sort_perm.
Qed.

Lemma sort_of_sorted (l : list Q) : StronglySorted Qle l -> sort l = l.
Proof.
  induction 1 as [|x l Hs IH Hall]; [reflexivity|].
  simpl. rewrite IH. destruct l as [|y l]; [reflexivity|].
  simpl. inversion Hall as [|? ? Hxy _]; subst.
  apply Qle_bool_iff in Hxy. rewrite Hxy. reflexivity.
Qed.

Lemma refractory_loop_fixed (l : list Q) (refr : Q) :
  inds0 l refr = [] -> refractory_loop refr l = l.
Proof.
  intros H. rewrite refractory_loop_step, H. reflexivity.
Qed.

(** X2.  The repair is idempotent: applied to its own output with the same
    threshold it returns that output. *)
Theorem refractory_repair_idempotent :
  forall (times_in : list Q) (refr : Q),
    enforce_refractory_period (enforce_refractory_period times_in refr) refr
    = enforce_refractory_period times_in refr.
Proof.
  intros times_in refr.
  rewrite (enforce_refractory_period_loop refr (enforce_refractory_period _ _)).
  rewrite sort_of_sorted by apply enforce_refractory_period_sorted.
  apply refractory_loop_fixed, enforce_refractory_period_fixed.
Qed.




Lemma refractory_pass_nonneg (l : list Q) (refr : Q) :
  Forall (fun t => 0 <= t) (refractory_pass l refr).
Proof.
  unfold refractory_pass, remove_marked.
  apply Forall_forall. intros t Ht. apply filter_In in Ht.
  apply Qle_bool_iff, Ht.
Qed.

(** X4.  As soon as one pass finds a violator, every negative time is
    dropped with it: the repair returns either the sorted input unchanged,
    or an array without negative times. *)
Theorem refractory_repair_drops_negative_times :
  forall (times_in : list Q) (refr : Q),
    enforce_refractory_period times_in refr = sort times_in \/
    Forall (fun t => 0 <= t) (enforce_refractory_period times_in refr).
Proof.
  intros times_in refr.
  rewrite enforce_refractory_period_loop, refractory_loop_step.
  destruct (lt_dec 0 (length (inds0 (sort times_in) refr))) as [Hlt|Hnlt];
    [right | left; reflexivity].
  apply (refractory_loop_ind refr (Forall (fun t => 0 <= t))).
  - intros l _. apply refractory_pass_nonneg.
  - apply refractory_pass_nonneg.
Qed.

(** X5.  The largest input time is never marked: when it is not negative
    it is returned, as the last entry. *)
Theorem refractory_repair_keeps_latest_time :
  forall (times_in front : list Q) (latest refr : Q),
    sort times_in = front ++ [latest] ->
    0 <= latest ->
    exists front',
      enforce_refractory_period times_in refr = front' ++ [latest].
Proof.
  intros times_in front latest refr Hsort Hpos.
  rewrite enforce_refractory_period_loop.
  apply (refractory_loop_ind refr (fun l => exists f, l = f ++ [latest])).
  - intros l (f & ->).
    destruct (refractory_pass_app refr f [latest]) as (p & _ & ->).
    exists p. f_equal.
    rewrite refractory_pass_cons. simpl head_marked. cbn [negb andb].
    apply Qle_bool_iff in Hpos. rewrite Hpos.
    rewrite refractory_pass_marks. reflexivity.
  - exists front. exact Hsort.
Qed.

Lemma refractory_repair_keeps_latest_time_witness :
  exists front',
    enforce_refractory_period [50; 300; 10; 290] 120 = front' ++ [300].
Proof.
  apply (refractory_repair_keeps_latest_time [50; 300; 10; 290] [10; 50; 290] 300 120).
  - reflexivity.
  - discriminate.
Defined.

(* ===================================================================== *)
(** * Further properties of the firing generator                          *)
(* ===================================================================== *)

Lemma insert_by_key_perm (x : Z * nat) (l : list (Z * nat)) :
  Permutation (insert_by_key x l) (x :: l).
Proof.
  induction l as [|y l IH]; simpl; [reflexivity|].
  destruct (fst x <=? fst y)%Z; [reflexivity|].
  rewrite IH. apply perm_swap.
Qed.

Lemma insert_by_key_sorted (x : Z * nat) (l : list (Z * nat)) :
  StronglySorted (fun p q => (fst p <= fst q)%Z) l ->
  StronglySorted (fun p q => (fst p <= fst q)%Z) (insert_by_key x l).
Proof.
  induction 1 as [|y l Hs IH Hall]; simpl.
  - constructor; constructor.
  - destruct (Z.leb_spec (fst x) (fst y)) as [Hle|Hgt].
    + constructor; [constructor; assumption|].
      constructor; [exact Hle|].
      rewrite Forall_forall in *. intros z Hz. specialize (Hall z Hz). lia.
    + constructor; [exact IH|].
      rewrite Forall_forall in *. intros z Hz.
      apply (Permutation_in _ (insert_by_key_perm x l)) in Hz.
      destruct Hz as [<-|Hz]; [lia | apply Hall, Hz].
Qed.

Lemma combine_seq_nth {A} (a : list A) (s : nat) (v : A) (i : nat) :
  In (v, i) (combine a (seq s (length a))) ->
  (s <= i)%nat /\ nth_error a (i - s) = Some v.
Proof.
  revert s. induction a as [|x a IH]; intros s; simpl; [tauto|].
  intros [H|H].
  - injection H as <- <-. rewrite Nat.sub_diag. split; [lia | reflexivity].
  - destruct (IH _ H) as [Hle Hn]. split; [lia|].
    replace (i - s)%nat with (S (i - S s)) by lia. exact Hn.
Qed.

Lemma getitem_nth_error {A} (a : list A) (i : nat) (v : A) :
  nth_error a i = Some v -> getitem a (Z.of_nat i) = Ok v.
Proof.
  intros H. unfold getitem.
  assert (Hlt : (i < length a)%nat) by (apply nth_error_Some; congruence).
  replace (Z.of_nat i <? 0)%Z with false by lia.
  replace ((0 <=? Z.of_nat i) && (Z.of_nat i <? Z.of_nat (length a)))%Z
    with true by lia.
  rewrite Nat2Z.id, H. reflexivity.
Qed.

Lemma take_pairs {A} (a : list A) (pairs : list (A * nat)) :
  (forall p, In p pairs -> nth_error a (snd p) = Some (fst p)) ->
  take a (map snd pairs) = Ok (map fst pairs).
Proof.
  unfold take. induction pairs as [|p pairs IH]; intros H; simpl; [reflexivity|].
  rewrite (getitem_nth_error a (snd p) (fst p)) by (apply H; left; reflexivity).
  cbn [Py.bind]. rewrite IH by (intros q Hq; apply H; right; exact Hq).
  reflexivity.
Qed.

Lemma map_fst_combine_seq {A} (a : list A) (s : nat) :
  map fst (combine a (seq s (length a))) = a.
Proof.
  revert s. induction a as [|x a IH]; intros s; simpl; [reflexivity|].
  rewrite IH. reflexivity.
Qed.

Lemma sort_by_key_perm (l : list (Z * nat)) :
  Permutation (fold_right insert_by_key [] l) l.
Proof.
  induction l as [|p l IH]; simpl; [reflexivity|].
  rewrite insert_by_key_perm. constructor. exact IH.
Qed.

Lemma sort_by_key_sorted (l : list (Z * nat)) :
  StronglySorted (fun p q => (fst p <= fst q)%Z) (fold_right insert_by_key [] l).
Proof.
  induction l as [|p l IH]; simpl; [constructor | apply insert_by_key_sorted, IH].
Qed.

(** [a[np.argsort(a)]] is [a] in ascending order. *)
Lemma take_argsort (a : list Z) :
  exists sorted,
    take a (argsort a) = Ok sorted /\
    StronglySorted Z.le sorted /\ Permutation sorted a.
Proof.
  unfold argsort.
  set (pairs := fold_right insert_by_key [] (combine a (seq 0 (length a)))).
  assert (Hperm : Permutation pairs (combine a (seq 0 (length a))))
    by apply sort_by_key_perm.
  assert (Hsorted : StronglySorted (fun p q => (fst p <= fst q)%Z) pairs)
    by apply sort_by_key_sorted.
  exists (map fst pairs). split; [|split].
  - apply take_pairs. intros [v i] Hp.
    apply (Permutation_in _ Hperm), combine_seq_nth in Hp.
    destruct Hp as [_ Hp]. rewrite Nat.sub_0_r in Hp. exact Hp.
  - clear -Hsorted. induction Hsorted as [|p l _ IH Hall]; simpl; constructor;
      [exact IH|].
    rewrite Forall_forall in *. intros z Hz.
    apply in_map_iff in Hz. destruct Hz as (q & <- & Hq). apply Hall, Hq.
  - rewrite (Permutation_map fst Hperm).
    rewrite map_fst_combine_seq. reflexivity.
Qed.

Section FiringGenerator.

Context {R : NumpyRandom}.

Lemma synthesize_random_firings_sorted :
  forall (K : Z) (sampling_frequency : Q) (duration : pyvalue)
         (seed : option Z) (g g' : rng) (times labels : list Z),
    synthesize_random_firings K sampling_frequency duration seed g
      = Ok ((times, labels), g') ->
    StronglySorted Z.le times /\ length labels = length times.
Proof.
  intros K sf d seed g g' times labels H.
  unfold synthesize_random_firings in H.
  bind_ok H. destruct a as [seeds g0].
  bind_ok H. destruct a as [N pops].
  bind_ok H. destruct a as [[ts ls] g1].
  bind_ok H. rename a into all_times.
  bind_ok H. rename a into all_labels.
  bind_ok H. bind_ok H.
  apply Ok_inj in H. injection H as <- <- <-.
  destruct (take_argsort all_times) as (sorted & Htake & Hsorted & _).
  match goal with
  | E : take all_times (argsort all_times) = Ok ?t |- _ =>
      rewrite Htake in E; apply Ok_inj in E; subst t
  end.
  split; [exact Hsorted|].
  match goal with
  | E : take all_labels _ = Ok ?l |- _ => rewrite (take_length _ _ _ E)
  end.
  symmetry. eapply take_length, Htake.
Qed.

(** X6.  Whenever the firing generator returns, the times are in ascending
    order and there is one label per time. *)
Theorem firings_sorted_with_one_label_each :
  forall (K : Z) (sampling_frequency : Q) (duration : pyvalue)
         (seed : option Z) (g g' : rng) (times labels : list Z),
    synthesize_random_firings K sampling_frequency duration seed g
      = Ok ((times, labels), g') ->
    StronglySorted Z.le times /\ length labels = length times.
Proof. exact synthesize_random_firings_sorted. Qed.

Lemma unit_firings_in_range sf N pops seeds unit_id g times0 labels0 g' :
  unit_firings sf N pops seeds unit_id g = Ok ((times0, labels0), g') ->
  Forall (fun t => (0 <= t < N)%Z) times0.
Proof.
  unfold unit_firings. intros H.
  bind_ok H. bind_ok H.
  match type of H with context [rand ?g0 ?k] => destruct (rand g0 k) as [u g1] end.
  bind_ok H. bind_ok H. bind_ok H. bind_ok H.
  apply Ok_inj in H. apply (f_equal (fun p => fst (fst p))) in H.
  cbn [fst] in H. subst times0.
  apply Forall_forall. intros t Ht.
  apply in_map_iff in Ht. destruct Ht as (q & <- & Hq).
  apply enforce_refractory_period_incl, filter_In in Hq.
  destruct Hq as [_ Hq]. apply andb_prop in Hq. destruct Hq as [H0 HN].
  apply Qle_bool_iff in H0.
  apply negb_true_iff, Qle_bool_false in HN.
  destruct (Qtruncate_floor q H0) as [Hlo Hhi].
  split.
  - apply Qtruncate_nonneg, H0.
  - rewrite Zlt_Qlt. lra.
Qed.

Lemma firings_by_unit_Forall (P : list Z -> Prop) K sf N pops seeds :
  (forall unit_id g times0 labels0 g',
      unit_firings sf N pops seeds unit_id g = Ok ((times0, labels0), g') ->
      P times0) ->
  forall g times labels g',
    firings_by_unit K sf N pops seeds g = Ok ((times, labels), g') ->
    Forall P times.
Proof.
  intros HP g times labels g'. unfold firings_by_unit.
  assert (Hgen : forall ids acc_t acc_l g0,
    Forall P acc_t ->
    foldM (fun '(times, labels, g) unit_id =>
             '(times0, labels0, g') <- unit_firings sf N pops seeds unit_id g ;;
             Ok (times ++ [times0], labels ++ [labels0], g'))
          ids (acc_t, acc_l, g0) = Ok ((times, labels), g') ->
    Forall P times).
  { induction ids as [|k ids IH]; intros acc_t acc_l g0 Hacc H.
    - simpl in H. apply Ok_inj in H. injection H as <- <- <-. exact Hacc.
    - simpl in H. bind_ok H.
      destruct (unit_firings sf N pops seeds k g0) as [[[t0 l0] g1]|] eqn:Eu;
        [|discriminate E].
      simpl in E. apply Ok_inj in E. subst a.
      apply (IH _ _ _) in H; [exact H|].
      apply Forall_app. split; [exact Hacc|].
      constructor; [eapply HP, Eu | constructor]. }
  apply Hgen. constructor.
Qed.

Lemma synthesize_random_firings_in_range :
  forall (K : Z) (sampling_frequency : Q) (duration : pyvalue)
         (seed : option Z) (g g' : rng) (times labels : list Z),
    synthesize_random_firings K sampling_frequency duration seed g
      = Ok ((times, labels), g') ->
    exists num_timepoints,
      mul_float duration sampling_frequency = Ok num_timepoints /\
      Forall (fun t => (0 <= t < Qtruncate num_timepoints)%Z) times.
Proof.
  intros K sf d seed g g' times labels H.
  unfold synthesize_random_firings in H.
  bind_ok H. destruct a as [seeds g0].
  bind_ok H. destruct a as [N pops].
  bind_ok H. destruct a as [[ts ls] g1].
  bind_ok H. rename a into all_times.
  bind_ok H. bind_ok H. bind_ok H.
  apply Ok_inj in H. injection H as <- _ _.
  unfold firing_populations in E0. bind_ok E0. rename a2 into dN.
  bind_ok E0. apply Ok_inj in E0. injection E0 as <- _.
  exists dN. split; [reflexivity|].
  match goal with
  | E : take all_times _ = Ok ?t |- Forall _ ?t =>
      apply (take_Forall _ _ _ _ E)
  end.
  assert (all_times = concat ts) as ->.
  { unfold concatenate in *.
    match goal with
    | E : match ts with [] => _ | _ => _ end = Ok all_times |- _ =>
        destruct ts; [discriminate E | apply Ok_inj in E; congruence]
    end. }
  apply Forall_concat.
  eapply (firings_by_unit_Forall (Forall (fun t => (0 <= t < Qtruncate dN)%Z)));
    [|eassumption].
  intros unit_id gu t0 l0 gu'. apply unit_firings_in_range.
Qed.

(** X7.  Whenever the firing generator returns, every time is a valid
    sample index of the segment: it lies in [[0, N)] for
    [N = int(duration * sampling_frequency)]. *)
Theorem firings_are_sample_indices :
  forall (K : Z) (sampling_frequency : Q) (duration : pyvalue)
         (seed : option Z) (g g' : rng) (times labels : list Z),
    synthesize_random_firings K sampling_frequency duration seed g
      = Ok ((times, labels), g') ->
    exists num_timepoints,
      mul_float duration sampling_frequency = Ok num_timepoints /\
      Forall (fun t => (0 <= t < Qtruncate num_timepoints)%Z) times.
Proof. exact synthesize_random_firings_in_range. Qed.

(** X8.  Whenever the loop over the units ends and the threshold
    [refr / 1000 * sampling_frequency] is a whole number [n] of samples,
    any two times in the array of one unit are at least [n] samples
    apart. *)
Theorem firings_of_one_unit_respect_refractory :
  forall (K : Z) (sampling_frequency : Q) (N : Z) (populations seeds : list Z)
         (g g' : rng) (times labels : list (list Z)) (n : Z),
    firings_by_unit K sampling_frequency N populations seeds g
      = Ok ((times, labels), g') ->
    refr / 1000 * sampling_frequency == inject_Z n ->
    Forall (ForallOrdPairs (fun x y => (n <= y - x)%Z)) times.
Proof.
  intros K sf N pops seeds g g' times labels n H Hn.
  eapply (firings_by_unit_Forall (ForallOrdPairs (fun x y => (n <= y - x)%Z)));
    [|exact H].
  intros unit_id gu t0 l0 gu' Hu.
  eapply unit_firings_respect_refractory; eassumption.
Qed.

(** X9.  Without units the firing generator does not return empty arrays:
    for a numeric duration it raises [ValueError], whatever the seed
    ([np.concatenate] of an empty list). *)
Theorem firings_without_units_raise :
  forall (sampling_frequency : Q) (x : pynumber) (seed : option Z) (g : rng),
    synthesize_random_firings 0 sampling_frequency (PyNum x) seed g
    = Raise ValueError.
Proof.
  intros sf x seed g. unfold synthesize_random_firings, draw_seeds.
  destruct seed as [s|].
  - destruct (RandomState s) as [st|e] eqn:E.
    + cbn [Py.bind size_arg Z.ltb Z.compare Z.to_nat].
      destruct x; reflexivity.
    + unfold RandomState in E.
      destruct ((0 <=? s) && (s <? 2 ^ 32))%Z; [discriminate|].
      apply (f_equal (fun r => match r with Raise e => e | Ok _ => ValueError end)) in E.
      subst e. reflexivity.
  - cbn [Py.bind size_arg Z.ltb Z.compare Z.to_nat].
    destruct (randint g 0 2147483647 0) as [seeds g0].
    destruct x; reflexivity.
Qed.

End FiringGenerator.

Lemma firings_sorted_with_one_label_each_witness :
  exists times labels g',
    synthesize_random_firings (R := Lcg.generator) 3 30000 (PyNum (PyInt 1))
      (Some 42%Z) 0%Z = Ok ((times, labels), g') /\
    StronglySorted Z.le times /\ length labels = length times.
Proof.
  eexists. eexists. eexists. split; [vm_compute; reflexivity|].
  eapply (firings_sorted_with_one_label_each (R := Lcg.generator)
            3 30000 (PyNum (PyInt 1)) (Some 42%Z) 0%Z).
  vm_compute. reflexivity.
Defined.

Lemma firings_are_sample_indices_witness :
  exists times labels g',
    synthesize_random_firings (R := Lcg.generator) 3 30000 (PyNum (PyInt 1))
      (Some 42%Z) 0%Z = Ok ((times, labels), g') /\
    exists num_timepoints,
      mul_float (PyNum (PyInt 1)) 30000 = Ok num_timepoints /\
      Forall (fun t => (0 <= t < Qtruncate num_timepoints)%Z) times.
Proof.
  eexists. eexists. eexists. split; [vm_compute; reflexivity|].
  eapply (firings_are_sample_indices (R := Lcg.generator)
            3 30000 (PyNum (PyInt 1)) (Some 42%Z) 0%Z).
  vm_compute. reflexivity.
Defined.

Lemma firings_of_one_unit_respect_refractory_witness :
  exists times labels g',
    firings_by_unit (R := Lcg.generator) 3 30000 30000 [3; 3; 3]%Z
      [10; 20; 30]%Z 7%Z = Ok ((times, labels), g') /\
    Forall (ForallOrdPairs (fun x y => (120 <= y - x)%Z)) times.
Proof.
  eexists. eexists. eexists. split; [vm_compute; reflexivity|].
  eapply (firings_of_one_unit_respect_refractory (R := Lcg.generator)
            3 30000 30000 [3; 3; 3]%Z [10; 20; 30]%Z 7%Z).
  - vm_compute. reflexivity.
  - reflexivity.
Defined.

(* ===================================================================== *)
(** * Further properties of the neuron placer                             *)
(* ===================================================================== *)

Lemma mapM_returns {A B} (f : A -> result B) (xs : list A) :
  (forall x, In x xs -> exists y, f x = Ok y) ->
  exists ys, mapM f xs = Ok ys.
Proof.
  induction xs as [|x xs IH]; intros H; simpl.
  - eexists. reflexivity.
  - destruct (H x (or_introl eq_refl)) as [y Hy]. rewrite Hy.
    destruct IH as [ys Hys]; [intros z Hz; apply H; right; exact Hz|].
    rewrite Hys. eexists. reflexivity.
Qed.

Lemma mapM_nth_error {A B} (f : A -> result B) (xs : list A) (ys : list B)
    (i : nat) (x : A) :
  mapM f xs = Ok ys -> nth_error xs i = Some x ->
  exists y, nth_error ys i = Some y /\ f x = Ok y.
Proof.
  revert ys i. induction xs as [|x0 xs IH]; intros ys i H Hx; simpl in H.
  - destruct i; discriminate.
  - bind_ok H. bind_ok H. apply Ok_inj in H. subst ys.
    destruct i as [|i]; simpl in *.
    + injection Hx as <-. eexists. split; [reflexivity | assumption].
    + eapply IH; [reflexivity | exact Hx].
Qed.

Lemma range_from_one_In (K k : Z) :
  In k (map (Z.add 1) (range K)) -> (1 <= k <= K)%Z.
Proof.
  unfold range. rewrite map_map. intros H.
  apply in_map_iff in H. destruct H as (i & <- & Hi).
  apply in_seq in Hi. lia.
Qed.

Lemma range_from_one_nth (K : Z) (i : nat) :
  (i < Z.to_nat K)%nat ->
  nth_error (map (Z.add 1) (range K)) i = Some (1 + Z.of_nat i)%Z.
Proof.
  intros Hi. unfold range. rewrite map_map.
  rewrite nth_error_map, nth_error_seq.
  replace (i <? Z.to_nat K)%nat with true by (symmetry; apply Nat.ltb_lt; exact Hi).
  reflexivity.
Qed.

Lemma getitem_returns {A} (a : list A) (i : Z) :
  (- Z.of_nat (length a) <= i < Z.of_nat (length a))%Z ->
  exists x, getitem a i = Ok x.
Proof.
  intros Hi. unfold getitem.
  set (j := if (i <? 0)%Z then (i + Z.of_nat (length a))%Z else i).
  assert (Hj : (0 <= j < Z.of_nat (length a))%Z).
  { unfold j. destruct (Z.ltb_spec i 0); lia. }
  replace ((0 <=? j) && (j <? Z.of_nat (length a)))%Z with true by lia.
  destruct (nth_error a (Z.to_nat j)) as [x|] eqn:E; [eexists; reflexivity|].
  apply nth_error_None in E. lia.
Qed.

Lemma fl_eq (x y : Q) : x == y -> fl x = fl y.
Proof. apply Qred_complete. Qed.

Lemma fl_inject_Z (z : Z) : fl (inject_Z z) = inject_Z z.
Proof.
  unfold fl.
  pose proof (Qred_correct (inject_Z z)) as Heq.
  pose proof (gcd_Qred (inject_Z z)) as Hgcd.
  destruct (Qred (inject_Z z)) as [n d]. unfold Qeq in Heq. simpl in *.
  rewrite Z.mul_1_r in Heq. subst n.
  rewrite Z.gcd_comm, (Z.mul_comm z), Z.gcd_mul_diag_l in Hgcd by lia.
  injection Hgcd as ->. rewrite Z.mul_1_r. reflexivity.
Qed.

Lemma Qtruncate_inject_Z (z : Z) : Qtruncate (inject_Z z) = z.
Proof. unfold Qtruncate. simpl. apply Z.quot_1_r. Qed.

(** The real-valued channel index of unit [k] lies between the first and
    the last channel. *)
Lemma channel_index_bounds (M K k : Z) :
  (2 <= K)%Z -> (1 <= M)%Z -> (1 <= k <= K)%Z ->
  let ind := fl (fl (inject_Z (k - 1) / inject_Z (K - 1)) * inject_Z (M - 1) + 1) in
  (1 <= Qtruncate ind <= M)%Z.
Proof.
  intros HK HM Hk ind.
  assert (HK1 : 0 < inject_Z (K - 1))
    by (change 0 with (inject_Z 0); rewrite <- Zlt_Qlt; lia).
  assert (Hq0 : 0 <= inject_Z (k - 1) / inject_Z (K - 1)).
  { apply Qle_shift_div_l; [exact HK1|]. rewrite Qmult_0_l.
    change 0 with (inject_Z 0). rewrite <- Zle_Qle. lia. }
  assert (Hq1 : inject_Z (k - 1) / inject_Z (K - 1) <= 1).
  { apply Qle_shift_div_r; [exact HK1|]. rewrite Qmult_1_l.
    rewrite <- Zle_Qle. lia. }
  assert (HM0 : 0 <= inject_Z (M - 1))
    by (change 0 with (inject_Z 0); rewrite <- Zle_Qle; lia).
  assert (HMeq : inject_Z M == inject_Z (M - 1) + 1).
  { change 1 with (inject_Z 1). rewrite <- inject_Z_plus.
    replace (M - 1 + 1)%Z with M by lia. reflexivity. }
  assert (Hind : 1 <= ind /\ ind <= inject_Z M).
  { unfold ind. rewrite (fl_correct (_ + 1)).
    generalize (fl_correct (inject_Z (k - 1) / inject_Z (K - 1))).
    generalize (fl (inject_Z (k - 1) / inject_Z (K - 1))). intros q Hq.
    split; nra. }
  destruct Hind as [Hlo Hhi].
  destruct (Qtruncate_floor ind) as [Ht1 Ht2]; [lra|].
  split.
  - assert (H : inject_Z 1 < inject_Z (Qtruncate ind + 1)).
    { rewrite inject_Z_plus. change (inject_Z 1) with 1. lra. }
    rewrite <- Zlt_Qlt in H. lia.
  - rewrite Zle_Qle. lra.
Qed.

(** X10.  With at least two units and a geometry of [M >= 1] channels the
    placer returns, with one position per unit. *)
Theorem placer_returns_one_position_per_unit :
  forall (M K : Z) (geometry : points),
    (2 <= K)%Z -> (1 <= M)%Z -> Z.of_nat (length geometry) = M ->
    exists locations,
      get_default_neuron_locations M K geometry = Ok locations /\
      Z.of_nat (length locations) = K.
Proof.
  intros M K geometry HK HM Hgeo.
  unfold get_default_neuron_locations, size_arg.
  replace (K <? 0)%Z with false by lia. cbn [Py.bind].
  destruct (mapM_returns (neuron_location M K geometry) (map (Z.add 1) (range K)))
    as [locations Hloc].
  - intros k Hk. apply range_from_one_In in Hk.
    pose proof (channel_index_bounds M K k HK HM Hk) as Hind.
    cbv zeta in Hind. unfold neuron_location.
    replace (K >? 0)%Z with true by lia.
    replace (K - 1 =? 0)%Z with false by lia. cbn [Py.bind].
    set (ind := fl (fl (inject_Z (k - 1) / inject_Z (K - 1)) * inject_Z (M - 1) + 1)) in *.
    replace (M >? 0)%Z with true by lia.
    destruct (Qtruncate ind =? M)%Z eqn:EM.
    + destruct (getitem_returns geometry (M - 1 - 1)) as [l Hl]; [lia|].
      destruct (getitem_returns geometry (M - 1)) as [r Hr]; [lia|].
      rewrite Hl, Hr. eexists. reflexivity.
    + apply Z.eqb_neq in EM.
      destruct (getitem_returns geometry (Qtruncate ind - 1)) as [l Hl]; [lia|].
      destruct (getitem_returns geometry (Qtruncate ind)) as [r Hr]; [lia|].
      rewrite Hl, Hr. eexists. reflexivity.
  - exists locations. split; [exact Hloc|].
    rewrite (mapM_length _ _ _ Hloc), length_map.
    unfold range. rewrite length_map, length_seq. lia.
Qed.

Lemma placer_returns_one_position_per_unit_witness :
  exists locations,
    get_default_neuron_locations 4 10 [[1; 0]; [2; 0]; [3; 0]; [4; 0]]
      = Ok locations /\
    Z.of_nat (length locations) = 10%Z.
Proof.
  apply (placer_returns_one_position_per_unit 4 10
           [[1; 0]; [2; 0]; [3; 0]; [4; 0]]); [lia | lia | reflexivity].
Defined.

Lemma map2_same_length_left {A} (f : A -> A -> A) (g : A -> A) (l r : list A) :
  length l = length r -> (forall x y, f x y = g x) -> map2 f l r = map g l.
Proof.
  revert r. induction l as [|x l IH]; intros [|y r] Hlen Hf; simpl in *;
    try reflexivity; try discriminate.
  rewrite Hf, IH by (auto; lia). reflexivity.
Qed.

Lemma map2_same_length_right {A} (f : A -> A -> A) (g : A -> A) (l r : list A) :
  length l = length r -> (forall x y, f x y = g y) -> map2 f l r = map g r.
Proof.
  revert r. induction l as [|x l IH]; intros [|y r] Hlen Hf; simpl in *;
    try reflexivity; try discriminate.
  rewrite Hf, IH by (auto; lia). reflexivity.
Qed.

(** X11.  With at least two units, the first unit is placed on the first
    channel and the last unit on the last channel (the coordinates of the
    channel, in lowest terms). *)
Theorem placer_spans_the_probe :
  forall (M K : Z) (geometry locations : points) (first last : list Q)
         (num_dims : nat),
    (2 <= K)%Z -> (1 <= M)%Z -> Z.of_nat (length geometry) = M ->
    Forall (fun channel => length channel = num_dims) geometry ->
    nth_error geometry 0 = Some first ->
    nth_error geometry (Z.to_nat (M - 1)) = Some last ->
    get_default_neuron_locations M K geometry = Ok locations ->
    nth_error locations 0 = Some (map fl first) /\
    nth_error locations (Z.to_nat (K - 1)) = Some (map fl last).
Proof.
  intros M K geometry locations first last d HK HM Hgeo Hdims Hfirst Hlast H.
  unfold get_default_neuron_locations, size_arg in H.
  replace (K <? 0)%Z with false in H by lia. cbn [Py.bind] in H.
  assert (Hcols : forall i c, getitem geometry i = Ok c -> length c = d).
  { intros i c Hc. rewrite Forall_forall in Hdims.
    apply Hdims, (getitem_In _ _ _ Hc). }
  assert (Hget_last : getitem geometry (M - 1) = Ok last).
  { rewrite <- (Z2Nat.id (M - 1)) by lia. apply getitem_nth_error, Hlast. }
  split.
  - destruct (mapM_nth_error _ _ _ 0%nat 1%Z H) as (loc & Hloc & Hk).
    { rewrite (range_from_one_nth K 0) by lia. reflexivity. }
    rewrite Hloc. f_equal.
    unfold neuron_location in Hk.
    replace (K >? 0)%Z with true in Hk by lia.
    replace (K - 1 =? 0)%Z with false in Hk by lia. cbn [Py.bind] in Hk.
    assert (Hq : fl (inject_Z (1 - 1) / inject_Z (K - 1)) = 0).
    { change 0 with (fl 0). apply fl_eq. simpl inject_Z. unfold Qdiv. ring. }
    rewrite Hq in Hk.
    assert (Hind : fl (0 * inject_Z (M - 1) + 1) = 1).
    { change 1 with (fl 1) at 2. apply fl_eq. ring. }
    rewrite Hind in Hk. change (Qtruncate 1) with 1%Z in Hk.
    replace (M >? 0)%Z with true in Hk by lia.
    destruct (1 =? M)%Z eqn:EM.
    + apply Z.eqb_eq in EM.
      replace (M - 1 - 1)%Z with (-1)%Z in Hk by lia.
      replace (M - 1)%Z with 0%Z in Hk by lia.
      assert (Hwrap : getitem geometry (-1) = Ok first).
      { destruct geometry as [|c [|c' rest]]; simpl length in Hgeo; try lia.
        simpl in Hfirst. injection Hfirst as ->. reflexivity. }
      assert (H0 : getitem geometry 0 = Ok first)
        by (apply (getitem_nth_error geometry 0), Hfirst).
      rewrite Hwrap, H0 in Hk. cbn [Py.bind] in Hk.
      apply Ok_inj in Hk. subst loc.
      apply map2_same_length_right; [reflexivity|].
      intros x y. apply fl_eq. ring.
    + apply Z.eqb_neq in EM.
      change (1 - 1)%Z with 0%Z in Hk.
      assert (H0 : getitem geometry 0 = Ok first)
        by (apply (getitem_nth_error geometry 0), Hfirst).
      rewrite H0 in Hk. cbn [Py.bind] in Hk.
      bind_ok Hk. apply Ok_inj in Hk. subst loc.
      assert (Hp : fl (1 - inject_Z 1) = 0).
      { change 0 with (fl 0). apply fl_eq. reflexivity. }
      rewrite Hp.
      apply map2_same_length_left.
      * rewrite (Hcols _ _ H0), (Hcols _ _ E). reflexivity.
      * intros x y. apply fl_eq. ring.
  - destruct (mapM_nth_error _ _ _ (Z.to_nat (K - 1)) K H) as (loc & Hloc & Hk).
    { rewrite (range_from_one_nth K) by lia. f_equal. lia. }
    rewrite Hloc. f_equal.
    unfold neuron_location in Hk.
    replace (K >? 0)%Z with true in Hk by lia.
    replace (K - 1 =? 0)%Z with false in Hk by lia. cbn [Py.bind] in Hk.
    assert (Hq : fl (inject_Z (K - 1) / inject_Z (K - 1)) = 1).
    { change 1 with (fl 1). apply fl_eq. field.
      change 0 with (inject_Z 0). rewrite inject_Z_injective. lia. }
    rewrite Hq in Hk.
    assert (Hind : fl (1 * inject_Z (M - 1) + 1) = inject_Z M).
    { rewrite <- (fl_inject_Z M). apply fl_eq.
      replace M with ((M - 1) + 1)%Z at 2 by lia.
      rewrite inject_Z_plus. change (inject_Z 1) with 1. ring. }
    rewrite Hind, Qtruncate_inject_Z, Z.eqb_refl in Hk.
    replace (M >? 0)%Z with true in Hk by lia.
    bind_ok Hk. rewrite Hget_last in Hk. cbn [Py.bind] in Hk.
    apply Ok_inj in Hk. subst loc.
    apply map2_same_length_right.
    + rewrite (Hcols _ _ E), (Hcols _ _ Hget_last). reflexivity.
    + intros x y. apply fl_eq. ring.
Qed.

Lemma placer_spans_the_probe_witness :
  exists locations,
    get_default_neuron_locations 4 10 [[1; 0]; [2; 0]; [3; 0]; [4; 0]]
      = Ok locations /\
    nth_error locations 0 = Some (map fl [1; 0]) /\
    nth_error locations (Z.to_nat (10 - 1)) = Some (map fl [4; 0]).
Proof.
  eexists. split; [vm_compute; reflexivity|].
  eapply (placer_spans_the_probe 4 10 [[1; 0]; [2; 0]; [3; 0]; [4; 0]] _
            [1; 0] [4; 0] 2%nat); try reflexivity; try lia.
  repeat constructor.
Defined.

Lemma mapM_constant {A B} (f : A -> result B) (xs : list A) (y : B) :
  (forall x, In x xs -> f x = Ok y) ->
  mapM f xs = Ok (repeat y (length xs)).
Proof.
  induction xs as [|x xs IH]; intros H; simpl; [reflexivity|].
  rewrite (H x (or_introl eq_refl)). cbn [Py.bind].
  rewrite IH by (intros z Hz; apply H; right; exact Hz). reflexivity.
Qed.

(** X12.  With a single channel and at least two units, every unit is
    placed on that channel: the index [ind0 - 1 = -1] wraps around to the
    only column instead of raising. *)
Theorem placer_single_channel :
  forall (K : Z) (channel : list Q),
    (2 <= K)%Z ->
    get_default_neuron_locations 1 K [channel]
    = Ok (repeat (map fl channel) (Z.to_nat K)).
Proof.
  intros K channel HK.
  unfold get_default_neuron_locations, size_arg.
  replace (K <? 0)%Z with false by lia. cbn [Py.bind].
  rewrite (mapM_constant _ _ (map fl channel)).
  - unfold range. rewrite !length_map, length_seq. reflexivity.
  - intros k _. rewrite single_channel_placement by lia. f_equal.
    apply map2_same_length_right; [reflexivity|].
    intros x y. apply fl_eq. ring.
Qed.

Lemma placer_single_channel_witness :
  get_default_neuron_locations 1 3 [[1; 0]]
  = Ok (repeat (map fl [1; 0]) (Z.to_nat 3)).
Proof.
  apply (placer_single_channel 3 [1; 0]). lia.
Defined.

(* ===================================================================== *)
(** * Further properties of the waveform shaper                           *)
(* ===================================================================== *)

Lemma getitem_first {A} (a : list A) (x d : A) :
  getitem a 0 = Ok x -> hd d a = x /\ a <> [].
Proof.
  destruct a as [|y a]; [discriminate|].
  unfold getitem. simpl. intros H.
  destruct (Pos.of_succ_nat (length a)); apply Ok_inj in H;
    (split; [exact H | discriminate]).
Qed.

Lemma getitem_last {A} (a : list A) (x d : A) :
  getitem a (-1) = Ok x -> last a d = x.
Proof.
  unfold getitem. intros H.
  replace (-1 <? 0)%Z with true in H by reflexivity.
  destruct ((0 <=? -1 + Z.of_nat (length a)) &&
            (-1 + Z.of_nat (length a) <? Z.of_nat (length a)))%Z eqn:Eb;
    [|discriminate].
  destruct (nth_error a (Z.to_nat (-1 + Z.of_nat (length a)))) as [y|] eqn:E;
    [|discriminate].
  apply Ok_inj in H. subst y.
  assert (Hlen : (0 < length a)%nat) by lia.
  destruct (exists_last (l := a)) as (front & z & ->);
    [destruct a; [simpl in Hlen; lia | discriminate]|].
  rewrite last_last.
  rewrite length_app in E. cbn [length] in E.
  replace (Z.to_nat (-1 + Z.of_nat (length front + 1))) with (length front) in E
    by lia.
  rewrite nth_error_app2, Nat.sub_diag in E by lia.
  cbn [nth_error] in E. congruence.
Qed.

Lemma hd_map {A B} (f : A -> B) (l : list A) (d : A) (d' : B) :
  l <> [] -> hd d' (map f l) = f (hd d l).
Proof. destruct l; [congruence | reflexivity]. Qed.

Lemma last_map {A B} (f : A -> B) (l : list A) (d : A) (d' : B) :
  l <> [] -> last (map f l) d' = f (last l d).
Proof.
  intros Hne. destruct (exists_last Hne) as (front & z & ->).
  rewrite map_app. simpl. rewrite !last_last. reflexivity.
Qed.

Lemma divide_spec (a a' : list Q) (d : Q) :
  divide a d = Ok a' ->
  a' = map (fun x => fl (x / d)) a /\ (a <> [] -> ~ d == 0).
Proof.
  unfold divide. destruct (Qeq_bool d 0) eqn:Ed.
  - destruct a as [|x a]; [|discriminate].
    intros H. apply Ok_inj in H. subst. split; [reflexivity | congruence].
  - intros H. split; [|intros _; apply Qeq_bool_neq, Ed].
    revert a' H. induction a as [|x a IH]; intros a' H.
    + apply Ok_inj in H. subst. reflexivity.
    + cbn [mapM] in H. unfold bind at 1 in H. cbv beta iota in H.
      destruct (mapM (fun x0 : Q => Ok (fl (x0 / d))) a) as [ys|] eqn:E;
        [|discriminate].
      unfold bind in H. apply Ok_inj in H. subst a'.
      rewrite (IH ys eq_refl). reflexivity.
Qed.

Lemma hd_rev {A} (l : list A) (d : A) : hd d (rev l) = last l d.
Proof.
  destruct l as [|x l]; [reflexivity|].
  destruct (exists_last (l := x :: l)) as (front & z & ->); [discriminate|].
  rewrite rev_app_distr, last_last. reflexivity.
Qed.

Lemma last_rev {A} (l : list A) (d : A) : last (rev l) d = hd d l.
Proof.
  destruct l as [|x l]; [reflexivity|].
  cbn [rev hd]. apply last_last.
Qed.

Section Shaper.

Context {F : NumpyMath}.

Lemma exp_growth_endpoints :
  forall (amp1 amp2 : Q) (dur1 : Z) (dur2 : Q) (Y : list Q),
    exp_growth amp1 amp2 dur1 dur2 = Ok Y ->
    Y <> [] /\ Z.of_nat (length Y) = dur1 /\ hd 0 Y == amp1 /\ last Y 0 == amp2.
Proof.
  intros amp1 amp2 dur1 dur2 Y H. unfold exp_growth in H.
  bind_ok H. rename a into T0.
  apply divide_spec in E. destruct E as [-> _].
  set (t := map inject_Z (range dur1)) in *.
  bind_ok H. rename a into l0. bind_ok H. rename a into f0.
  bind_ok H. rename a into Y1. bind_ok H. rename a into f2.
  apply Ok_inj in H. subst Y.
  destruct (getitem_first _ _ 0 E0) as [Hf0 Hne0].
  pose proof (getitem_last _ _ 0 E) as Hl0.
  apply divide_spec in E1. destruct E1 as [-> Hd]. specialize (Hd Hne0).
  destruct (getitem_first _ _ 0 E2) as [Hf2 Hne2].
  set (Y0 := map exp (map (fun x => fl (x / dur2)) t)) in *.
  set (scale := fun y : Q => fl (y * (amp2 - amp1))) in *.
  set (div := fun x : Q => fl (x / (l0 - f0))) in *.
  assert (Hf2' : f2 = scale (div f0)).
  { rewrite <- Hf2, (hd_map scale _ 0) by (intros Hn; apply map_eq_nil in Hn; auto).
    rewrite (hd_map div _ 0) by exact Hne0. rewrite Hf0. reflexivity. }
  assert (Hne1 : map div Y0 <> []) by (intros Hn; apply map_eq_nil in Hn; auto).
  split; [|split; [|split]].
  - intros Hn. apply map_eq_nil in Hn. auto.
  - rewrite !length_map. unfold Y0, t. rewrite !length_map.
    unfold range. rewrite length_map, length_seq.
    assert (Hpos : (0 < Z.to_nat dur1)%nat).
    { destruct (Z.to_nat dur1) eqn:En; [|lia].
      exfalso. apply Hne0. unfold Y0, t, range. rewrite En. reflexivity. }
    lia.
  - rewrite (hd_map _ _ 0) by exact Hne2. rewrite Hf2, fl_correct. ring.
  - rewrite (last_map _ _ 0) by exact Hne2.
    rewrite (last_map scale _ 0) by exact Hne1.
    rewrite (last_map div _ 0) by exact Hne0.
    rewrite Hl0, Hf2'. unfold scale, div. rewrite !fl_correct.
    field. exact Hd.
Qed.

(** X13.  Whenever [exp_growth] returns, the curve has [dur1] samples,
    starts at [amp1] and ends at [amp2] (the two "Want" comments of the
    source). *)
Theorem exp_growth_meets_both_amplitudes :
  forall (amp1 amp2 : Q) (dur1 : Z) (dur2 : Q) (Y : list Q),
    exp_growth amp1 amp2 dur1 dur2 = Ok Y ->
    Y <> [] /\ Z.of_nat (length Y) = dur1 /\ hd 0 Y == amp1 /\ last Y 0 == amp2.
Proof. exact exp_growth_endpoints. Qed.

(** X14.  Whenever [exp_decay] returns, the curve has [dur1] samples,
    starts at [amp1] and ends at [amp2]. *)
Theorem exp_decay_meets_both_amplitudes :
  forall (amp1 amp2 : Q) (dur1 : Z) (dur2 : Q) (Y : list Q),
    exp_decay amp1 amp2 dur1 dur2 = Ok Y ->
    Y <> [] /\ Z.of_nat (length Y) = dur1 /\ hd 0 Y == amp1 /\ last Y 0 == amp2.
Proof.
  intros amp1 amp2 dur1 dur2 Y H. unfold exp_decay in H.
  bind_ok H. apply Ok_inj in H. subst Y.
  destruct (exp_growth_endpoints _ _ _ _ _ E) as (Hne & Hlen & Hhd & Hlast).
  rewrite length_rev, hd_rev, last_rev. repeat split; auto.
  intros Hn. apply Hne. rewrite <- (rev_involutive a), Hn. reflexivity.
Qed.

End Shaper.

Lemma exp_growth_meets_both_amplitudes_witness :
  exists Y,
    exp_growth (F := Approx.math) (1 # 2) 10 11 10 = Ok Y /\ Y <> [] /\
    Z.of_nat (length Y) = 11%Z /\ hd 0 Y == 1 # 2 /\ last Y 0 == 10.
Proof.
  eexists. split; [vm_compute; reflexivity|].
  apply (exp_growth_meets_both_amplitudes (F := Approx.math) (1 # 2) 10 11 10).
  vm_compute. reflexivity.
Defined.

Lemma exp_decay_meets_both_amplitudes_witness :
  exists Y,
    exp_decay (F := Approx.math) 10 (-1) 31 (30 / 4) = Ok Y /\ Y <> [] /\
    Z.of_nat (length Y) = 31%Z /\ hd 0 Y == 10 /\ last Y 0 == -1.
Proof.
  eexists. split; [vm_compute; reflexivity|].
  apply (exp_decay_meets_both_amplitudes (F := Approx.math) 10 (-1) 31 (30 / 4)).
  vm_compute. reflexivity.
Defined.

Lemma sum_app (a b : list Q) : sum (a ++ b) == sum a + sum b.
Proof.
  induction a as [|x a IH]; simpl.
  - unfold sum at 2. simpl. ring.
  - rewrite !sum_cons, IH. ring.
Qed.

Lemma sum_roll (Y : list Q) (shift : Z) : sum (roll Y shift) == sum Y.
Proof.
  unfold roll. destruct (length Y) as [|n]; [reflexivity|].
  rewrite sum_app.
  rewrite <- (firstn_skipn (S n - Z.to_nat (shift mod Z.of_nat (S n))) Y) at 3.
  rewrite sum_app. ring.
Qed.

Lemma sum_map2_plus (a b : list Q) :
  length a = length b ->
  sum (map2 (fun z y => fl (z + y)) a b) == sum a + sum b.
Proof.
  revert b. induction a as [|x a IH]; intros [|y b] Hlen; simpl in Hlen;
    try discriminate.
  - unfold sum. simpl. ring.
  - cbn [map2]. rewrite !sum_cons. rewrite IH by lia.
    eapply Qeq_trans; [apply Qplus_comp; [apply fl_correct | reflexivity]|].
    ring.
Qed.

Lemma sum_zeros (n : nat) : sum (repeat 0 n) == 0.
Proof.
  induction n as [|n IH]; [reflexivity|].
  simpl repeat. rewrite sum_cons, IH. ring.
Qed.

(** X15.  [smooth_it] sums [2 t + 1] shifted copies and does not average:
    the result has the length of [Y] and its total is [2 t + 1] times the
    total of [Y]. *)
Theorem smooth_it_gain :
  forall (Y : list Q) (t : Z),
    (0 <= t)%Z ->
    length (smooth_it Y t) = length Y /\
    sum (smooth_it Y t) == inject_Z (2 * t + 1) * sum Y.
Proof.
  intros Y t Ht. split; [apply smooth_it_length|].
  unfold smooth_it.
  assert (Hcount : (2 * t + 1)%Z
                   = Z.of_nat (length (map (fun i => (i - t)%Z) (range (2 * t + 1))))).
  { unfold range. rewrite !length_map, length_seq. lia. }
  revert Hcount.
  generalize (map (fun i => (i - t)%Z) (range (2 * t + 1))). intros js ->.
  assert (Hgen : forall acc,
             length acc = length Y ->
             sum (fold_left (fun Z j => map2 (fun z y => fl (z + y)) Z (roll Y j))
                            js acc)
             == sum acc + inject_Z (Z.of_nat (length js)) * sum Y).
  { induction js as [|j js IH]; intros acc Hacc.
    - simpl. ring.
    - simpl fold_left. rewrite IH by (rewrite map2_length, roll_length, Hacc; lia).
      rewrite sum_map2_plus by (rewrite roll_length; exact Hacc).
      rewrite sum_roll. simpl length. rewrite Nat2Z.inj_succ.
      unfold Z.succ. rewrite inject_Z_plus. change (inject_Z 1) with 1. ring. }
  rewrite Hgen by apply repeat_length.
  rewrite sum_zeros. ring.
Qed.

Lemma smooth_it_gain_witness :
  length (smooth_it [0; 1; 4; 1; 0] 3) = length [0; 1; 4; 1; 0] /\
  sum (smooth_it [0; 1; 4; 1; 0] 3) == inject_Z (2 * 3 + 1) * sum [0; 1; 4; 1; 0].
Proof.
  apply (smooth_it_gain [0; 1; 4; 1; 0] 3). lia.
Defined.

(* ===================================================================== *)
(** * Further properties of the templates                                 *)
(* ===================================================================== *)

Lemma mapM_Forall {A B} (f : A -> result B) (P : B -> Prop) (xs : list A)
    (ys : list B) :
  mapM f xs = Ok ys ->
  (forall x y, In x xs -> f x = Ok y -> P y) ->
  Forall P ys.
Proof.
  revert ys. induction xs as [|x xs IH]; intros ys H HP; simpl in H.
  - apply Ok_inj in H. subst. constructor.
  - bind_ok H. bind_ok H. apply Ok_inj in H. subst ys.
    constructor.
    + apply (HP x); [left; reflexivity | exact E].
    + apply IH; [reflexivity|]. intros x' y' Hin. apply HP. right. exact Hin.
Qed.

Lemma size_arg_ok (n : Z) (m : nat) :
  size_arg n = Ok m -> (0 <= n)%Z /\ m = Z.to_nat n.
Proof.
  unfold size_arg. destruct (n <? 0)%Z eqn:En; [discriminate|].
  intros H. apply Ok_inj in H. split; [lia | congruence].
Qed.

Lemma peak_amplitudes_ok (WW : tensor) (peaks : list Q) :
  peak_amplitudes WW = Ok peaks ->
  fst (fst (shape WW)) <> 0%nat /\ snd (fst (shape WW)) <> 0%nat.
Proof.
  unfold peak_amplitudes. destruct (shape WW) as [[M TT] K]. cbn [fst snd].
  destruct (Nat.eqb M 0) eqn:EM; [discriminate|].
  destruct (Nat.eqb TT 0) eqn:ET; [discriminate|].
  intros _. split; apply Nat.eqb_neq; assumption.
Qed.

Lemma normalize_peaks_shape (WW WW' : tensor) (apa : Q) :
  normalize_peaks WW apa = Ok WW' ->
  shape WW' = shape WW /\
  fst (fst (shape WW)) <> 0%nat /\ snd (fst (shape WW)) <> 0%nat /\
  (well_formed WW -> well_formed WW').
Proof.
  unfold normalize_peaks. intros H. bind_ok H.
  apply peak_amplitudes_ok in E. destruct E as [HM HT].
  destruct (units WW) as [|unit rest] eqn:EU.
  - apply Ok_inj in H. subst WW'. auto.
  - destruct (Qeq_bool (mean a) 0); [discriminate|].
    apply Ok_inj in H. subst WW'. cbn [shape].
    repeat split; auto.
    unfold well_formed. cbn [shape units]. rewrite EU.
    destruct (shape WW) as [[M TT] K].
    intros [Hlen Hall]. split; [rewrite length_map; exact Hlen|].
    apply Forall_map. revert Hall. apply Forall_impl.
    intros u [Hu Hrows]. rewrite length_map. split; [exact Hu|].
    apply Forall_map. revert Hrows. apply Forall_impl.
    intros row Hrow. rewrite length_map. exact Hrow.
Qed.

Lemma placer_unit_count (M K : Z) (geometry locations : points) :
  get_default_neuron_locations M K geometry = Ok locations -> (0 <= K)%Z.
Proof.
  unfold get_default_neuron_locations, size_arg.
  destruct (K <? 0)%Z eqn:EK; [discriminate | lia].
Qed.

Section TemplateShapes.

Context {R : NumpyRandom} {F : NumpyMath}.

Lemma unit_channel_waveform_length T upsamplefac timeshift_factor geometry
    neuron_locations seeds i k m row :
  unit_channel_waveform T upsamplefac timeshift_factor geometry
    neuron_locations seeds i k m = Ok row ->
  length row = Z.to_nat (T * upsamplefac).
Proof.
  unfold unit_channel_waveform. intros H.
  repeat bind_ok H.
  eapply broadcast_to_length. exact H.
Qed.

Lemma synthesize_random_waveforms_shape :
  forall (M T K upsamplefac timeshift_factor : Z) (apa : Q) (seed : option Z)
         (g g' : rng) (WW : tensor) (geom : points),
    synthesize_random_waveforms M T K upsamplefac timeshift_factor apa seed g
      = Ok ((WW, geom), g') ->
    (1 <= M)%Z /\ (1 <= T * upsamplefac)%Z /\ (0 <= K)%Z /\
    shape WW = (Z.to_nat M, Z.to_nat (T * upsamplefac), Z.to_nat K) /\
    well_formed WW /\
    geom = map (fun m => [inject_Z m; 0]) (map (Z.add 1) (range M)).
Proof.
  intros M T K u ts apa seed g g' WW geom H.
  unfold synthesize_random_waveforms in H.
  bind_ok H. destruct a as [seeds g0].
  bind_ok H. rename a into m0. apply size_arg_ok in E0. destruct E0 as [HM0 _].
  bind_ok H. rename a into locations. rename E0 into Eplacer.
  bind_ok H. rename a into TT. apply size_arg_ok in E0. destruct E0 as [HT0 ->].
  bind_ok H. rename a into WW0. rename E0 into Eunits.
  bind_ok H. rename a into WW1. rename E0 into Enorm.
  apply Ok_inj in H.
  assert (HW : WW1 = WW) by congruence.
  assert (HG : map (fun x => [inject_Z x; 0]) (map (Z.add 1) (range M)) = geom)
    by congruence.
  clear H. subst WW1.
  assert (HK : (0 <= K)%Z).
  { eapply placer_unit_count. exact Eplacer. }
  destruct (normalize_peaks_shape _ _ _ Enorm) as (Hshape & HM & HT & Hwf).
  cbn [shape fst snd] in Hshape, HM, HT.
  split; [lia|]. split; [lia|]. split; [exact HK|].
  split; [exact Hshape|]. split; [|symmetry; exact HG].
  apply Hwf. unfold well_formed. cbn [shape units].
  split.
  - rewrite (mapM_length _ _ _ Eunits). unfold range.
    rewrite length_map, length_seq. reflexivity.
  - eapply mapM_Forall; [exact Eunits|].
    intros i unit _ Hunit. cbv beta in Hunit. split.
    + rewrite (mapM_length _ _ _ Hunit). unfold range.
      rewrite !length_map, length_seq. reflexivity.
    + eapply mapM_Forall; [exact Hunit|].
      intros m row _ Hrow. cbv beta in Hrow.
      eapply unit_channel_waveform_length. exact Hrow.
Qed.

(** X16.  Whenever [synthesize_random_waveforms] returns, there is at least
    one channel and one sample per template, the tensor has the shape
    [(M, T * upsamplefac, K)], its data has that extent, and the geometry
    puts channel [m] at [(m, 0)]. *)
Theorem templates_are_well_formed :
  forall (M T K upsamplefac timeshift_factor : Z) (apa : Q) (seed : option Z)
         (g g' : rng) (WW : tensor) (geom : points),
    synthesize_random_waveforms M T K upsamplefac timeshift_factor apa seed g
      = Ok ((WW, geom), g') ->
    (1 <= M)%Z /\ (1 <= T * upsamplefac)%Z /\ (0 <= K)%Z /\
    shape WW = (Z.to_nat M, Z.to_nat (T * upsamplefac), Z.to_nat K) /\
    well_formed WW /\
    geom = map (fun m => [inject_Z m; 0]) (map (Z.add 1) (range M)).
Proof. exact synthesize_random_waveforms_shape. Qed.

End TemplateShapes.

Lemma templates_are_well_formed_witness :
  exists WW geom g',
    synthesize_random_waveforms (R := Lcg.generator) (F := Approx.math)
      1 500 2 1 3 (-100) (Some 5%Z) 0%Z = Ok ((WW, geom), g') /\
    (1 <= 1)%Z /\ (1 <= 500 * 1)%Z /\ (0 <= 2)%Z /\
    shape WW = (Z.to_nat 1, Z.to_nat (500 * 1), Z.to_nat 2) /\
    well_formed WW /\
    geom = map (fun m => [inject_Z m; 0]) (map (Z.add 1) (range 1)).
Proof.
  eexists. eexists. eexists. split; [vm_compute; reflexivity|].
  eapply (templates_are_well_formed (R := Lcg.generator) (F := Approx.math)
            1 500 2 1 3 (-100) (Some 5%Z) 0%Z).
  vm_compute. reflexivity.
Defined.

(* ===================================================================== *)
(** * Further properties of the compositor                                *)
(* ===================================================================== *)

Lemma foldM_invariant {A S} (body : S -> A -> result S) (I : S -> Prop) :
  (forall s x s', I s -> body s x = Ok s' -> I s') ->
  forall xs s s', I s -> foldM body xs s = Ok s' -> I s'.
Proof.
  intros Hstep. induction xs as [|x xs IH]; intros s s' Hs H; simpl in H.
  - apply Ok_inj in H. subst. exact Hs.
  - bind_ok H. eapply IH; [|exact H]. eapply Hstep; eassumption.
Qed.

Lemma foldM_returns {A S} (body : S -> A -> result S) (I : S -> Prop)
    (xs : list A) :
  (forall s x, In x xs -> I s -> exists s', body s x = Ok s' /\ I s') ->
  forall s, I s -> exists s', foldM body xs s = Ok s' /\ I s'.
Proof.
  induction xs as [|x xs IH]; intros Hstep s Hs; simpl.
  - exists s. split; [reflexivity | exact Hs].
  - destruct (Hstep s x (or_introl eq_refl) Hs) as (s1 & -> & Hs1).
    cbn [bind]. apply IH; [|exact Hs1].
    intros s0 x0 Hin. apply Hstep. right. exact Hin.
Qed.

Lemma reshape_length {A} (rows cols : nat) (flat : list A) :
  length (reshape rows cols flat) = rows.
Proof.
  revert flat. induction rows as [|rows IH]; intros flat; simpl;
    [reflexivity | rewrite IH; reflexivity].
Qed.

Lemma stamp_row_length (row w row' : list Q) (tstart T offset step : Z)
    (amp0 : Q) :
  stamp_row row w tstart T offset step amp0 = Ok row' ->
  length row' = length row.
Proof.
  unfold stamp_row. intros H. bind_ok H. bind_ok H.
  eapply set_slice_length, H.
Qed.

Lemma stamp_shape (M : nat) (N : Z) (X w X' : list (list Q))
    (tstart T offset step : Z) (amp0 : Q) :
  stamp X w tstart T offset step amp0 = Ok X' ->
  trace_shape M N X -> trace_shape M N X'.
Proof.
  unfold stamp, trace_shape. intros H [HM HN]. split.
  - rewrite (mapM_length _ _ _ H), length_combine, length_seq. lia.
  - eapply mapM_Forall; [exact H|].
    intros [m row] row' Hin Hrow. cbv beta iota in Hrow.
    bind_ok Hrow. apply stamp_row_length in Hrow. rewrite Hrow.
    apply in_combine_r in Hin.
    rewrite Forall_forall in HN. apply HN, Hin.
Qed.

Lemma stamp_spikes_shape (M : nat) (spike_times : list Q)
    (spike_labels unit_ids : list Z) (waveforms : tensor) (T N u : Z)
    (X X' : list (list Q)) :
  stamp_spikes spike_times spike_labels unit_ids waveforms T N u X = Ok X' ->
  trace_shape M N X -> trace_shape M N X'.
Proof.
  unfold stamp_spikes. intros H HX.
  eapply foldM_invariant; [|exact HX|exact H].
  clear. intros X k0 X' HX H. cbv beta in H.
  bind_ok H. bind_ok H.
  eapply foldM_invariant; [|exact HX|exact H].
  clear. intros X t0 X' HX H. cbv beta zeta in H.
  destruct (window_fits T N (Qfloor t0 - template_midpoint T)).
  - eapply stamp_shape; eassumption.
  - apply Ok_inj in H. subst. exact HX.
Qed.

Lemma In_range (n i : Z) : In i (range n) -> (0 <= i < n)%Z.
Proof.
  unfold range. rewrite in_map_iff. intros (j & <- & Hj).
  apply in_seq in Hj. lia.
Qed.

Lemma strided_template_row (w : list Q) (T u offset : Z) :
  (0 < u)%Z -> (0 <= T)%Z -> Z.of_nat (length w) = (T * u)%Z ->
  (0 <= offset < u)%Z ->
  exists samples,
    strided w offset u = Ok samples /\ length samples = Z.to_nat T.
Proof.
  intros Hu HT Hlen Hoff. unfold strided.
  replace (u =? 0)%Z with false by lia.
  unfold strided_indices, slice_bound. rewrite Hlen.
  replace (0 <? u)%Z with true by lia.
  replace (offset <? 0)%Z with false by lia.
  assert (Hcount : (if (Z.min offset (T * u) <? T * u)%Z
                    then ((T * u - Z.min offset (T * u) - 1) / u + 1)%Z
                    else 0%Z) = T).
  { destruct (Z.eq_dec T 0) as [->|HT0].
    - simpl. rewrite Z.min_r by lia. reflexivity.
    - assert (HTu : (u <= T * u)%Z) by nia.
      rewrite Z.min_l by lia.
      replace (offset <? T * u)%Z with true by lia.
      replace (T * u - offset - 1)%Z with ((u - 1 - offset) + (T - 1) * u)%Z
        by ring.
      rewrite Z.div_add by lia. rewrite Z.div_small by lia. lia. }
  rewrite Hcount.
  destruct (mapM_returns (getitem w)
              (map (fun i => (Z.min offset (T * u) + i * u)%Z) (range T)))
    as [samples Hs].
  - intros x Hx. apply in_map_iff in Hx. destruct Hx as (i & <- & Hi).
    apply In_range in Hi. apply getitem_returns. rewrite Hlen.
    assert (HTu : (u <= T * u)%Z) by nia.
    rewrite Z.min_l by lia. nia.
  - exists samples. split; [exact Hs|].
    rewrite (mapM_length _ _ _ Hs). unfold range.
    rewrite !length_map, length_seq. reflexivity.
Qed.

Lemma frac_offset_bounds (t0 : Q) (u : Z) :
  (0 < u)%Z -> (0 <= frac_offset t0 u < u)%Z.
Proof.
  intros Hu. unfold frac_offset.
  set (f := t0 - inject_Z (Qfloor t0)).
  assert (Hf0 : 0 <= f).
  { unfold f. pose proof (Qfloor_le t0). lra. }
  assert (Hf1 : f < 1).
  { unfold f. pose proof (Qlt_floor t0) as Hlt.
    rewrite inject_Z_plus in Hlt. change (inject_Z 1) with 1 in Hlt. lra. }
  assert (HuQ : 0 < inject_Z u).
  { change 0 with (inject_Z 0). rewrite <- Zlt_Qlt. exact Hu. }
  split.
  - change 0%Z with (Qfloor 0). apply Qfloor_resp_le.
    apply Qmult_le_0_compat; [exact Hf0 | apply Qlt_le_weak, HuQ].
  - rewrite Zlt_Qlt. eapply Qle_lt_trans; [apply Qfloor_le|].
    rewrite <- (Qmult_1_l (inject_Z u)) at 2.
    apply Qmult_lt_compat_r; assumption.
Qed.

Lemma get_slice_window {A} (row : list A) (tstart T : Z) :
  (0 <= tstart)%Z -> (0 <= T)%Z -> (tstart + T <= Z.of_nat (length row))%Z ->
  length (get_slice row tstart (tstart + T)) = Z.to_nat T.
Proof.
  intros H0 HT HN. unfold get_slice, slice_bound.
  replace (tstart <? 0)%Z with false by lia.
  replace (tstart + T <? 0)%Z with false by lia.
  rewrite length_firstn, length_skipn. lia.
Qed.

Lemma stamp_row_returns (row w : list Q) (tstart T offset u : Z) (amp0 : Q) :
  (0 < u)%Z -> (0 <= T)%Z -> Z.of_nat (length w) = (T * u)%Z ->
  (0 <= offset < u)%Z ->
  window_fits T (Z.of_nat (length row)) tstart = true ->
  exists row', stamp_row row w tstart T offset u amp0 = Ok row'.
Proof.
  intros Hu HT Hw Hoff Hfit. unfold window_fits in Hfit.
  apply andb_prop in Hfit. destruct Hfit as [H0 HN].
  apply Z.leb_le in H0, HN.
  destruct (strided_template_row w T u offset Hu HT Hw Hoff)
    as (samples & Hs & Hlen).
  pose proof (get_slice_window row tstart T H0 HT HN) as Hcur.
  unfold stamp_row. rewrite Hs. cbn [bind].
  unfold broadcast_to at 1. rewrite length_map, Hlen, Hcur, Nat.eqb_refl.
  cbn [bind]. unfold set_slice, slice_bound.
  replace (tstart <? 0)%Z with false by lia.
  replace (tstart + T <? 0)%Z with false by lia.
  unfold broadcast_to.
  rewrite map2_length, length_map, Hlen, Hcur.
  replace (Nat.eqb (Nat.min (Z.to_nat T) (Z.to_nat T))
             (Z.to_nat (Z.min (tstart + T) (Z.of_nat (length row))
                        - Z.min tstart (Z.of_nat (length row)))))
    with true by (symmetry; apply Nat.eqb_eq; lia).
  cbn [bind]. eexists. reflexivity.
Qed.

Lemma stamp_returns (M : nat) (N : Z) (X waveform0 : list (list Q))
    (tstart T offset u : Z) (amp0 : Q) :
  (0 < u)%Z -> (0 <= T)%Z -> (0 <= offset < u)%Z ->
  trace_shape M N X ->
  length waveform0 = M ->
  Forall (fun w => Z.of_nat (length w) = (T * u)%Z) waveform0 ->
  window_fits T N tstart = true ->
  exists X', stamp X waveform0 tstart T offset u amp0 = Ok X'.
Proof.
  intros Hu HT Hoff [HM HN] Hw0 Hrows Hfit. unfold stamp.
  apply mapM_returns. intros [m row] Hin.
  pose proof (in_combine_l _ _ _ _ Hin) as Hm. apply in_seq in Hm.
  pose proof (in_combine_r _ _ _ _ Hin) as Hrow.
  destruct (getitem_returns waveform0 (Z.of_nat m)) as [w Hw]; [lia|].
  rewrite Hw. cbn [bind].
  rewrite Forall_forall in Hrows, HN.
  apply stamp_row_returns; auto.
  - apply Hrows. eapply getitem_In, Hw.
  - rewrite (HN row Hrow). exact Hfit.
Qed.

Lemma template_length_exact (TT : nat) (T u : Z) :
  (0 < u)%Z -> Z.of_nat TT = (T * u)%Z ->
  template_length TT u = Ok T /\ (0 <= T)%Z.
Proof.
  intros Hu HTT. assert (HT : (0 <= T)%Z) by nia.
  split; [|exact HT].
  unfold template_length. replace (u =? 0)%Z with false by lia.
  f_equal. rewrite HTT.
  assert (HuQ : ~ inject_Z u == 0).
  { change 0 with (inject_Z 0). rewrite inject_Z_injective. lia. }
  assert (Hq : inject_Z (T * u) / inject_Z u == inject_Z T).
  { rewrite inject_Z_mult. field. exact HuQ. }
  assert (Hq0 : 0 <= inject_Z (T * u) / inject_Z u).
  { rewrite Hq. change 0 with (inject_Z 0). rewrite <- Zle_Qle. exact HT. }
  destruct (Qtruncate_floor _ Hq0) as [Hlo Hhi].
  set (t := Qtruncate (inject_Z (T * u) / inject_Z u)) in *.
  assert (Hlo' : inject_Z t <= inject_Z T).
  { eapply Qle_trans; [exact Hlo|]. rewrite Hq. apply Qle_refl. }
  assert (Hhi' : inject_Z T < inject_Z (t + 1)).
  { rewrite inject_Z_plus. eapply Qle_lt_trans; [|exact Hhi].
    rewrite Hq. apply Qle_refl. }
  rewrite <- Zle_Qle in Hlo'. rewrite <- Zlt_Qlt in Hhi'. lia.
Qed.

Section CompositorShapes.

Context {R : NumpyRandom}.

Lemma noise_background_shape (M : nat) (N : Z) (noise_level : Q)
    (seed : option Z) (g g' : rng) (X : list (list Q)) :
  noise_background M N noise_level seed g = Ok (X, g') ->
  trace_shape M N X.
Proof.
  intros H. split; [|eapply noise_background_rows, H].
  unfold noise_background in H.
  bind_ok H. bind_ok H. destruct a0 as [flat g1]. apply Ok_inj in H.
  injection H as <- <-. apply reshape_length.
Qed.

Lemma synthesize_timeseries_shape (spike_times : list Q)
    (spike_labels unit_ids : list Z) (waveforms : tensor) (sf : Q)
    (duration : pyvalue) (noise_level : Q) (u : Z) (seed : option Z)
    (g g' : rng) (X : list (list Q)) :
  synthesize_timeseries spike_times spike_labels unit_ids waveforms sf
    duration noise_level u seed g = Ok (X, g') ->
  exists num_timepoints,
    mul_float duration sf = Ok num_timepoints /\
    trace_shape (fst (fst (shape waveforms))) (Qtruncate num_timepoints) X.
Proof.
  intros H. unfold synthesize_timeseries in H.
  bind_ok H. rename a into num_timepoints.
  exists num_timepoints. split; [reflexivity|].
  destruct (shape waveforms) as [[M TT] K]. cbn [fst].
  bind_ok H. rename a into T.
  bind_ok H. destruct a as [X0 g1].
  bind_ok H. apply Ok_inj in H. injection H as <- <-.
  eapply stamp_spikes_shape; [eassumption|].
  eapply noise_background_shape; eassumption.
Qed.

(** X17.  Whenever the compositor returns, the traces have one row per
    channel of the template tensor and [int(sampling_frequency * duration)]
    columns. *)
Theorem timeseries_has_channel_rows_and_sample_columns :
  forall (spike_times : list Q) (spike_labels unit_ids : list Z)
         (waveforms : tensor) (sampling_frequency : Q) (duration : pyvalue)
         (noise_level : Q) (waveform_upsamplefac : Z) (seed : option Z)
         (g g' : rng) (X : list (list Q)),
    synthesize_timeseries spike_times spike_labels unit_ids waveforms
      sampling_frequency duration noise_level waveform_upsamplefac seed g
    = Ok (X, g') ->
    exists num_timepoints,
      mul_float duration sampling_frequency = Ok num_timepoints /\
      length X = fst (fst (shape waveforms)) /\
      Forall (fun row => Z.of_nat (length row) = Qtruncate num_timepoints) X.
Proof.
  intros until X. intros H.
  destruct (synthesize_timeseries_shape _ _ _ _ _ _ _ _ _ _ _ _ H)
    as (n & Hn & Hlen & Hrows).
  exists n. auto.
Qed.

(** X18.  On a well-formed template tensor whose templates have
    [T * upsamplefac] samples, with a positive upsampling factor, unit ids
    that index the tensor, one label per spike time and a valid seed, the
    compositor returns: no spike, wherever it lies, makes it raise. *)
Theorem compositor_returns_on_well_formed_input :
  forall (spike_times : list Q) (spike_labels unit_ids : list Z)
         (waveforms : tensor) (sampling_frequency : Q) (duration : pyvalue)
         (noise_level : Q) (waveform_upsamplefac : Z) (seed : option Z)
         (g : rng) (M TT K : nat) (T : Z) (num_timepoints : Q),
    (0 < waveform_upsamplefac)%Z ->
    mul_float duration sampling_frequency = Ok num_timepoints ->
    (0 <= Qtruncate num_timepoints)%Z ->
    shape waveforms = (M, TT, K) ->
    Z.of_nat TT = (T * waveform_upsamplefac)%Z ->
    well_formed waveforms ->
    Forall (fun k0 => (- Z.of_nat K <= k0 - 1 < Z.of_nat K)%Z) unit_ids ->
    length spike_times = length spike_labels ->
    (forall s, seed = Some s -> (0 <= s < 2 ^ 32)%Z) ->
    exists X g',
      synthesize_timeseries spike_times spike_labels unit_ids waveforms
        sampling_frequency duration noise_level waveform_upsamplefac seed g
      = Ok (X, g').
Proof.
  intros spike_times spike_labels unit_ids waveforms sf duration noise_level u
         seed g M TT K T num_timepoints Hu Hmul HN Hshape HTT Hwf Hids Hlen
         Hseed.
  unfold synthesize_timeseries. rewrite Hmul. cbn [bind].
  unfold well_formed in Hwf. rewrite Hshape in *.
  destruct Hwf as [HK Hunits].
  destruct (template_length_exact TT T u Hu HTT) as [-> HT]. cbn [bind].
  set (N := Qtruncate num_timepoints) in *.
  assert (Hnoise : exists X0 g1,
             noise_background M N noise_level seed g = Ok (X0, g1)).
  { unfold noise_background, size_arg.
    replace (N <? 0)%Z with false by lia. cbn [bind].
    destruct seed as [s|].
    - unfold RandomState. specialize (Hseed s eq_refl).
      replace ((0 <=? s) && (s <? 2 ^ 32))%Z with true
        by (symmetry; apply andb_true_intro; split;
            [apply Z.leb_le | apply Z.ltb_lt]; lia).
      cbn [bind]. eexists. eexists. reflexivity.
    - destruct (randn g (M * Z.to_nat N)) as [flat g1].
      cbn [bind]. eexists. eexists. reflexivity. }
  destruct Hnoise as (X0 & g1 & Hnoise). rewrite Hnoise. cbn [bind].
  pose proof (noise_background_shape _ _ _ _ _ _ _ Hnoise) as HX0.
  assert (Hloop : exists X,
             stamp_spikes spike_times spike_labels unit_ids waveforms T N u X0
             = Ok X /\ trace_shape M N X).
  { unfold stamp_spikes.
    apply foldM_returns with (I := trace_shape M N); [|exact HX0].
    intros X k0 Hk0 HX. cbv beta.
    rewrite Forall_forall in Hids. specialize (Hids k0 Hk0).
    destruct (getitem_returns (units waveforms) (k0 - 1)) as [waveform0 Hw0];
      [rewrite HK; exact Hids|].
    rewrite Hw0. cbn [bind].
    unfold times_with_label. rewrite Hlen, Nat.eqb_refl. cbn [bind].
    apply getitem_In in Hw0.
    rewrite Forall_forall in Hunits. destruct (Hunits _ Hw0) as [HwM Hwrows].
    apply foldM_returns with (I := trace_shape M N); [|exact HX].
    intros X1 t0 _ HX1. cbv beta zeta.
    destruct (window_fits T N (Qfloor t0 - template_midpoint T)) eqn:Hfit.
    - destruct (stamp_returns M N X1 waveform0
                  (Qfloor t0 - template_midpoint T) T (frac_offset t0 u) u 1)
        as [X2 HX2]; auto.
      + apply frac_offset_bounds, Hu.
      + revert Hwrows. apply Forall_impl. intros w ->. exact HTT.
      + exists X2. split; [exact HX2|]. eapply stamp_shape; eassumption.
    - exists X1. split; [reflexivity | exact HX1]. }
  destruct Hloop as (X & HX & _). rewrite HX. cbn [bind].
  eexists. eexists. reflexivity.
Qed.

End CompositorShapes.

Lemma timeseries_has_channel_rows_and_sample_columns_witness :
  exists X g' num_timepoints,
    synthesize_timeseries (R := Lcg.generator) [3; 7] [1%Z; 2%Z] [1%Z; 2%Z]
      {| shape := (1%nat, 4%nat, 2%nat);
         units := [[[1; 2; 3; 4]]; [[5; 6; 7; 8]]] |}
      10 (PyNum (PyInt 1)) 10 2 (Some 1%Z) 0%Z = Ok (X, g') /\
    mul_float (PyNum (PyInt 1)) 10 = Ok num_timepoints /\
    length X = 1%nat /\
    Forall (fun row => Z.of_nat (length row) = Qtruncate num_timepoints) X.
Proof.
  eexists. eexists.
  assert (H : synthesize_timeseries (R := Lcg.generator) [3; 7] [1%Z; 2%Z]
                [1%Z; 2%Z]
                {| shape := (1%nat, 4%nat, 2%nat);
                   units := [[[1; 2; 3; 4]]; [[5; 6; 7; 8]]] |}
                10 (PyNum (PyInt 1)) 10 2 (Some 1%Z) 0%Z = Ok (_, _))
    by (vm_compute; reflexivity).
  destruct (timeseries_has_channel_rows_and_sample_columns
              (R := Lcg.generator) _ _ _ _ _ _ _ _ _ _ _ _ H)
    as (n & Hn & Hlen & Hrows).
  exists n. split; [exact H|]. auto.
Defined.

Lemma compositor_returns_on_well_formed_input_witness :
  exists X g',
    synthesize_timeseries (R := Lcg.generator) [3; 7; 9] [1%Z; 2%Z; 1%Z]
      [1%Z; 2%Z]
      {| shape := (1%nat, 4%nat, 2%nat);
         units := [[[1; 2; 3; 4]]; [[5; 6; 7; 8]]] |}
      10 (PyNum (PyInt 1)) 10 2 (Some 1%Z) 0%Z = Ok (X, g').
Proof.
  apply (compositor_returns_on_well_formed_input (R := Lcg.generator)
           [3; 7; 9] [1%Z; 2%Z; 1%Z] [1%Z; 2%Z]
           {| shape := (1%nat, 4%nat, 2%nat);
              units := [[[1; 2; 3; 4]]; [[5; 6; 7; 8]]] |}
           10 (PyNum (PyInt 1)) 10 2 (Some 1%Z) 0%Z 1%nat 4%nat 2%nat 2%Z
           (inject_Z 1 * 10)).
  - lia.
  - reflexivity.
  - vm_compute. discriminate.
  - reflexivity.
  - reflexivity.
  - split; [reflexivity|]. repeat constructor.
  - repeat constructor; simpl; lia.
  - reflexivity.
  - intros s Hs. injection Hs as <-. lia.
Defined.

(* ===================================================================== *)
(** * Further properties of toy_example                                   *)
(* ===================================================================== *)

Lemma returns_ok {A} (r : result A) : returns r = true -> exists a, r = Ok a.
Proof. destruct r as [a|e]; [exists a; reflexivity | discriminate]. Qed.

Section Orchestrator.

Context {R : NumpyRandom} {F : NumpyMath}.

(** X19.  A list for [duration] whose length is not the number of segments,
    or with an entry that is not a float, makes [toy_example] raise
    [AssertionError] before anything else is looked at. *)
Theorem bad_duration_list_raises_assertion_error :
  forall (l : list pynumber) (num_channels num_units : Z)
         (sampling_frequency : Q) (num_segments : Z)
         (average_peak_amplitude : Q) (upsamplefac : Z) (seed : option Z)
         (g : rng),
    Z.of_nat (length l) <> num_segments \/
    forallb (fun d => isinstance_float (PyNum d)) l = false ->
    toy_example (PyList l) num_channels num_units sampling_frequency
      num_segments average_peak_amplitude upsamplefac seed g
    = Raise AssertionError.
Proof.
  intros l M K sf nseg apa u seed g Hbad.
  unfold toy_example, check_durations.
  destruct (Z.of_nat (length l) =? nseg)%Z eqn:Elen; [|reflexivity].
  destruct Hbad as [Hlen | Hfloat].
  - apply Z.eqb_eq in Elen. contradiction.
  - rewrite Hfloat. reflexivity.
Qed.

Lemma synthesize_random_waveforms_not_one_unit M T u ts apa seed g r :
  synthesize_random_waveforms M T 1 u ts apa seed g <> Ok r.
Proof.
  unfold synthesize_random_waveforms. intros H.
  bind_ok H. destruct a as [seeds g0].
  bind_ok H. bind_ok H.
  match goal with
  | E : get_default_neuron_locations _ 1 _ = Ok _ |- _ => discriminate E
  end.
Qed.

Lemma synthesize_random_firings_needs_units K sf d seed g r :
  synthesize_random_firings K sf d seed g = Ok r -> (1 <= K)%Z.
Proof.
  unfold synthesize_random_firings. intros H.
  bind_ok H. destruct a as [seeds g0].
  assert (HK : (0 <= K)%Z).
  { unfold draw_seeds in E. destruct seed as [s|].
    - repeat bind_ok E.
      match goal with
      | E : size_arg K = Ok _ |- _ => apply size_arg_ok in E; tauto
      end.
    - repeat bind_ok E.
      match goal with
      | E : size_arg K = Ok _ |- _ => apply size_arg_ok in E; tauto
      end. }
  destruct (Z.eq_dec K 0) as [->|HK0]; [|lia].
  exfalso.
  bind_ok H. destruct a as [N pops].
  bind_ok H. destruct a as [[ts ls] g1].
  match goal with
  | E : firings_by_unit 0 _ _ _ _ _ = Ok _ |- _ =>
      unfold firings_by_unit in E; cbn [range Z.to_nat seq map foldM] in E;
      apply Ok_inj in E; injection E as <- <- <-
  end.
  discriminate H.
Qed.

Lemma check_durations_mul (d d' : pyvalue) (nseg : Z) (ds : list pynumber)
    (sf : Q) :
  check_durations d nseg = Ok (d', ds) -> mul_float d' sf = mul_float d sf.
Proof.
  unfold check_durations. destruct d as [[z|q]|l].
  - intros H. apply Ok_inj in H. injection H as <- _. reflexivity.
  - intros H. apply Ok_inj in H. injection H as <- _. reflexivity.
  - destruct (negb (Z.of_nat (length l) =? nseg)%Z); [discriminate|].
    destruct (negb (forallb (fun d => isinstance_float (PyNum d)) l));
      [discriminate|].
    intros H. apply Ok_inj in H. injection H as <- _. reflexivity.
Qed.

Lemma toy_segment_ok K sf d ids W u seed g times labels traces g' :
  toy_segment K sf d ids W u seed g = Ok ((times, labels, traces), g') ->
  (2 <= K + 1)%Z /\ segment_ok (fst (fst (shape W))) d sf times labels traces.
Proof.
  unfold toy_segment. intros H.
  bind_ok H. destruct a as [[times0 labels0] g0].
  bind_ok H. destruct a as [traces0 g1].
  apply Ok_inj in H. injection H as <- <- <- <-.
  pose proof (synthesize_random_firings_needs_units _ _ _ _ _ _ E) as HK.
  destruct (synthesize_random_firings_sorted _ _ _ _ _ _ _ _ E)
    as [Hsorted Hlabels].
  destruct (synthesize_random_firings_in_range _ _ _ _ _ _ _ _ E)
    as (q & Hq & Hrange).
  destruct (synthesize_timeseries_shape _ _ _ _ _ _ _ _ _ _ _ _ E0)
    as (q' & Hq' & Hlen & Hrows).
  assert (q' = q) as -> by congruence.
  split; [lia|]. exists q. repeat split; assumption.
Qed.

Lemma toy_segments_ok K sf d ids W u seed (indices : list Z) :
  forall traces_acc times_acc labels_acc g traces_list times_list labels_list g',
    foldM (fun '(traces_list, times_list, labels_list, g) (_ : Z) =>
             '(times, labels, traces, g) <-
               toy_segment K sf d ids W u seed g ;;
             Ok (traces_list ++ [traces], times_list ++ [times],
                 labels_list ++ [labels], g))
          indices (traces_acc, times_acc, labels_acc, g)
    = Ok (traces_list, times_list, labels_list, g') ->
    (indices <> [] -> (1 <= K)%Z) /\
    exists new_traces new_times new_labels,
      traces_list = traces_acc ++ new_traces /\
      times_list = times_acc ++ new_times /\
      labels_list = labels_acc ++ new_labels /\
      length new_traces = length indices /\
      length new_times = length indices /\
      length new_labels = length indices /\
      (forall i times labels traces,
         nth_error new_times i = Some times ->
         nth_error new_labels i = Some labels ->
         nth_error new_traces i = Some traces ->
         segment_ok (fst (fst (shape W))) d sf times labels traces).
Proof.
  induction indices as [|i indices IH];
    intros tr_acc t_acc l_acc g trl tl ll g' H; simpl in H.
  - apply Ok_inj in H. injection H as <- <- <- <-.
    split; [congruence|].
    exists [], [], []. rewrite !app_nil_r.
    repeat split; try reflexivity.
    intros [|j] ? ? ? Hn; discriminate Hn.
  - bind_ok H. destruct a as [[[tr1 t1] l1] g1].
    bind_ok E. destruct a as [[[times labels] traces] g2].
    apply Ok_inj in E. injection E as <- <- <- <-.
    apply toy_segment_ok in E0. destruct E0 as [HK Hseg].
    apply IH in H. destruct H as (_ & ntr & nt & nl & -> & -> & -> & H1 & H2 & H3 & Hall).
    split; [lia|].
    exists (traces :: ntr), (times :: nt), (labels :: nl).
    rewrite <- !app_assoc. simpl.
    repeat split; try reflexivity; try (f_equal; assumption).
    intros [|j] ts ls trs Ht Hl Htr; simpl in Ht, Hl, Htr.
    + injection Ht as <-. injection Hl as <-. injection Htr as <-. exact Hseg.
    + eapply Hall; eassumption.
Qed.

(** X20.  [toy_example] returns only with at least one channel, a positive
    upsampling factor and a number of units other than one; with at least
    one segment it needs at least two units. *)
Theorem toy_example_returns_only_with_channels_and_units :
  forall (duration : pyvalue) (num_channels num_units : Z)
         (sampling_frequency : Q) (num_segments : Z)
         (average_peak_amplitude : Q) (upsamplefac : Z) (seed : option Z)
         (g : rng),
    returns (toy_example duration num_channels num_units sampling_frequency
               num_segments average_peak_amplitude upsamplefac seed g) = true ->
    (1 <= num_channels)%Z /\ (1 <= upsamplefac)%Z /\
    (0 <= num_units)%Z /\ num_units <> 1%Z /\
    ((0 < num_segments)%Z -> (2 <= num_units)%Z).
Proof.
  intros d M K sf nseg apa u seed g Hret.
  apply returns_ok in Hret. destruct Hret as [[[recording sorting] g'] H].
  unfold toy_example in H.
  bind_ok H. destruct a as [d' durations].
  bind_ok H. destruct a as [[W geom] g1].
  bind_ok H. destruct a as [[[trl tl] ll] g2].
  destruct (synthesize_random_waveforms_shape _ _ _ _ _ _ _ _ _ _ _ E0)
    as (HM & HT & HK & _).
  assert (HK1 : K <> 1%Z).
  { intros ->. eapply synthesize_random_waveforms_not_one_unit, E0. }
  apply toy_segments_ok in E1. destruct E1 as [Hunits _].
  split; [exact HM|]. split; [lia|]. split; [exact HK|]. split; [exact HK1|].
  intros Hseg.
  assert (HK2 : (1 <= K)%Z).
  { apply Hunits. unfold range.
    destruct (Z.to_nat nseg) eqn:En; [lia | discriminate]. }
  lia.
Qed.

(** X21.  Whenever [toy_example] returns, for every seed: the recording
    and the sorting hold one entry per segment, the recording is marked as
    filtered, and in every segment the traces have [num_channels] rows of
    [N = int(duration * sampling_frequency)] columns, the spike times are
    in ascending order and lie in [[0, N)], and there is one label per
    spike time. *)
Theorem toy_example_output_is_well_formed :
  forall (duration : pyvalue) (num_channels num_units : Z)
         (sampling_frequency : Q) (num_segments : Z)
         (average_peak_amplitude : Q) (upsamplefac : Z) (seed : option Z)
         (g g' : rng) (recording : NumpyRecording) (sorting : NumpySorting),
    toy_example duration num_channels num_units sampling_frequency
      num_segments average_peak_amplitude upsamplefac seed g
    = Ok ((recording, sorting), g') ->
    length (traces_list recording) = Z.to_nat num_segments /\
    length (times_list sorting) = Z.to_nat num_segments /\
    length (labels_list sorting) = Z.to_nat num_segments /\
    is_filtered recording = true /\
    forall i times labels traces,
      nth_error (times_list sorting) i = Some times ->
      nth_error (labels_list sorting) i = Some labels ->
      nth_error (traces_list recording) i = Some traces ->
      segment_ok (Z.to_nat num_channels) duration sampling_frequency
        times labels traces.
Proof.
  intros d M K sf nseg apa u seed g g' recording sorting H.
  unfold toy_example in H.
  bind_ok H. destruct a as [d' durations].
  bind_ok H. destruct a as [[W geom] g1].
  bind_ok H. destruct a as [[[trl tl] ll] g2].
  apply Ok_inj in H. injection H as <- <- <-.
  cbn [traces_list times_list labels_list is_filtered].
  destruct (synthesize_random_waveforms_shape _ _ _ _ _ _ _ _ _ _ _ E0)
    as (_ & _ & _ & Hshape & _).
  apply toy_segments_ok in E1.
  destruct E1 as (_ & ntr & nt & nl & -> & -> & -> & H1 & H2 & H3 & Hall).
  rewrite Hshape in Hall. cbn [fst app] in *.
  assert (Hn : length (range nseg) = Z.to_nat nseg)
    by (unfold range; rewrite length_map, length_seq; reflexivity).
  rewrite Hn in *.
  repeat split; try assumption.
  intros i times labels traces Ht Hl Htr.
  destruct (Hall i times labels traces Ht Hl Htr)
    as (q & Hq & Hrest).
  exists q. split; [|exact Hrest].
  rewrite <- (check_durations_mul _ _ _ _ sf E). exact Hq.
Qed.

End Orchestrator.

Lemma bad_duration_list_raises_assertion_error_witness :
  toy_example (R := Lcg.generator) (F := Approx.math)
    (PyList [PyFloat 1; PyInt 1]) 4 10 30000 2 (-100) 13 None 0%Z
  = Raise AssertionError.
Proof.
  apply (bad_duration_list_raises_assertion_error
           (R := Lcg.generator) (F := Approx.math)
           [PyFloat 1; PyInt 1] 4 10 30000 2 (-100) 13 None 0%Z).
  right. reflexivity.
Defined.

Lemma toy_example_returns_only_with_channels_and_units_witness :
  (1 <= 1)%Z /\ (1 <= 1)%Z /\ (0 <= 2)%Z /\ 2%Z <> 1%Z /\
  ((0 < 2)%Z -> (2 <= 2)%Z).
Proof.
  apply (toy_example_returns_only_with_channels_and_units
           (R := Lcg.generator) (F := Approx.math)
           (PyNum (PyFloat (4 # 1000))) 1 2 30000 2 (-100) 1 (Some 3%Z) 0%Z).
  vm_compute. reflexivity.
Defined.

Lemma toy_example_output_is_well_formed_witness :
  exists recording sorting g',
    toy_example (R := Lcg.generator) (F := Approx.math)
      (PyNum (PyFloat (4 # 1000))) 1 2 30000 2 (-100) 1 (Some 3%Z) 0%Z
    = Ok ((recording, sorting), g') /\
    length (traces_list recording) = Z.to_nat 2 /\
    length (times_list sorting) = Z.to_nat 2 /\
    length (labels_list sorting) = Z.to_nat 2 /\
    is_filtered recording = true /\
    forall i times labels traces,
      nth_error (times_list sorting) i = Some times ->
      nth_error (labels_list sorting) i = Some labels ->
      nth_error (traces_list recording) i = Some traces ->
      segment_ok (Z.to_nat 1) (PyNum (PyFloat (4 # 1000))) 30000
        times labels traces.
Proof.
  eexists. eexists. eexists. split; [vm_compute; reflexivity|].
  eapply (toy_example_output_is_well_formed (R := Lcg.generator)
            (F := Approx.math)
            (PyNum (PyFloat (4 # 1000))) 1 2 30000 2 (-100) 1 (Some 3%Z) 0%Z).
  vm_compute. reflexivity.
Defined.

(* ===================================================================== *)
(** * What a spike adds, and which template it adds                       *)
(* ===================================================================== *)

Lemma getitem_nonneg {A} (a : list A) (i : Z) (x : A) :
  getitem a i = Ok x -> (0 <= i)%Z -> nth_error a (Z.to_nat i) = Some x.
Proof.
  unfold getitem. intros H Hi.
  replace (i <? 0)%Z with false in H by lia.
  destruct ((0 <=? i) && (i <? Z.of_nat (length a)))%Z; [|discriminate].
  destruct (nth_error a (Z.to_nat i)) as [y|]; [|discriminate].
  apply Ok_inj in H. congruence.
Qed.

Lemma map2_nth {A B C} (f : A -> B -> C) (xs : list A) (ys : list B)
    (j : nat) (dx : A) (dy : B) (dz : C) :
  (j < length xs)%nat -> (j < length ys)%nat ->
  nth j (map2 f xs ys) dz = f (nth j xs dx) (nth j ys dy).
Proof.
  revert ys j. induction xs as [|x xs IH]; intros [|y ys] [|j] Hx Hy;
    simpl in *; try lia; [reflexivity|].
  apply IH; lia.
Qed.

Lemma strided_template_samples (w samples : list Q) (T u offset : Z) :
  (0 < u)%Z -> (0 <= T)%Z -> Z.of_nat (length w) = (T * u)%Z ->
  (0 <= offset < u)%Z ->
  strided w offset u = Ok samples ->
  forall j, (0 <= j < T)%Z ->
    nth (Z.to_nat j) samples 0 = nth (Z.to_nat (offset + j * u)) w 0.
Proof.
  intros Hu HT Hlen Hoff H j Hj. unfold strided in H.
  replace (u =? 0)%Z with false in H by lia.
  unfold strided_indices, slice_bound in H. rewrite Hlen in H.
  replace (0 <? u)%Z with true in H by lia.
  replace (offset <? 0)%Z with false in H by lia.
  assert (HTu : (u <= T * u)%Z) by nia.
  rewrite Z.min_l in H by lia.
  replace (offset <? T * u)%Z with true in H by lia.
  replace (T * u - offset - 1)%Z with ((u - 1 - offset) + (T - 1) * u)%Z in H
    by ring.
  rewrite Z.div_add in H by lia. rewrite Z.div_small in H by lia.
  replace (0 + (T - 1) + 1)%Z with T in H by lia.
  destruct (mapM_nth_error _ _ _ (Z.to_nat j) (offset + j * u)%Z H)
    as (y & Hy & Hget).
  - rewrite nth_error_map. unfold range. rewrite nth_error_map.
    rewrite nth_error_seq.
    replace (Z.to_nat j <? Z.to_nat T)%nat with true
      by (symmetry; apply Nat.ltb_lt; lia).
    cbn [option_map]. f_equal. lia.
  - apply getitem_nonneg in Hget; [|nia].
    rewrite (nth_error_nth _ _ 0 Hy), (nth_error_nth _ _ 0 Hget). reflexivity.
Qed.

Lemma stamp_row_adds (row w row' : list Q) (tstart T offset u : Z) (amp0 : Q) :
  stamp_row row w tstart T offset u amp0 = Ok row' ->
  (0 < u)%Z -> (0 <= T)%Z -> Z.of_nat (length w) = (T * u)%Z ->
  (0 <= offset < u)%Z ->
  window_fits T (Z.of_nat (length row)) tstart = true ->
  forall j, (0 <= j < T)%Z ->
    nth (Z.to_nat (tstart + j)) row' 0
    == nth (Z.to_nat (tstart + j)) row 0
       + nth (Z.to_nat (offset + j * u)) w 0 * amp0.
Proof.
  intros H Hu HT Hw Hoff Hfit j Hj. unfold window_fits in Hfit.
  apply andb_prop in Hfit. destruct Hfit as [H0 HN].
  apply Z.leb_le in H0, HN.
  destruct (strided_template_row w T u offset Hu HT Hw Hoff)
    as (samples & Hs & Hlen).
  pose proof (strided_template_samples w samples T u offset Hu HT Hw Hoff Hs j Hj)
    as Hsample.
  pose proof (get_slice_window row tstart T H0 HT HN) as Hcur.
  unfold stamp_row in H. rewrite Hs in H. cbn [bind] in H.
  unfold broadcast_to at 1 in H.
  rewrite length_map, Hlen, Hcur, Nat.eqb_refl in H. cbn [bind] in H.
  unfold set_slice, slice_bound in H.
  replace (tstart <? 0)%Z with false in H by lia.
  replace (tstart + T <? 0)%Z with false in H by lia.
  rewrite !Z.min_l in H by lia.
  unfold broadcast_to in H.
  rewrite map2_length, length_map, Hlen, Hcur in H.
  replace (Nat.eqb (Nat.min (Z.to_nat T) (Z.to_nat T))
             (Z.to_nat (tstart + T - tstart)))
    with true in H by (symmetry; apply Nat.eqb_eq; lia).
  cbn [bind] in H. apply Ok_inj in H. subst row'.
  rewrite app_nth2 by (rewrite length_firstn; lia).
  rewrite length_firstn.
  replace (Z.to_nat (tstart + j) - Nat.min (Z.to_nat tstart) (length row))%nat
    with (Z.to_nat j) by lia.
  rewrite app_nth1 by (rewrite map2_length, length_map, Hlen, Hcur; lia).
  rewrite (map2_nth _ _ _ _ 0 (0 * amp0) 0)
    by (rewrite ?length_map, ?Hlen, ?Hcur; lia).
  rewrite fl_correct.
  rewrite (map_nth (fun w0 => w0 * amp0) samples 0). rewrite Hsample.
  unfold get_slice, slice_bound.
  replace (tstart <? 0)%Z with false by lia.
  replace (tstart + T <? 0)%Z with false by lia.
  rewrite !Z.min_l by lia.
  rewrite nth_firstn.
  replace (Z.to_nat j <? Z.to_nat (tstart + T - tstart))%nat with true
    by (symmetry; apply Nat.ltb_lt; lia).
  rewrite nth_skipn.
  replace (Z.to_nat tstart + Z.to_nat j)%nat with (Z.to_nat (tstart + j)) by lia.
  reflexivity.
Qed.

Lemma nth_error_combine_seq {A} (a : list A) (s m : nat) (x : A) :
  nth_error a m = Some x ->
  nth_error (combine (seq s (length a)) a) m = Some ((s + m)%nat, x).
Proof.
  revert s m. induction a as [|y a IH]; intros s [|m] H; simpl in *;
    try discriminate.
  - injection H as <-. rewrite Nat.add_0_r. reflexivity.
  - rewrite (IH (S s) m H). f_equal. f_equal. lia.
Qed.

Lemma stamp_adds (X waveform0 X' : list (list Q)) (tstart T offset u N : Z)
    (amp0 : Q) :
  stamp X waveform0 tstart T offset u amp0 = Ok X' ->
  (0 < u)%Z -> (0 <= T)%Z -> (0 <= offset < u)%Z ->
  Forall (fun row => Z.of_nat (length row) = N) X ->
  Forall (fun w => Z.of_nat (length w) = (T * u)%Z) waveform0 ->
  window_fits T N tstart = true ->
  forall m row row' w,
    nth_error X m = Some row -> nth_error X' m = Some row' ->
    nth_error waveform0 m = Some w ->
    forall j, (0 <= j < T)%Z ->
      nth (Z.to_nat (tstart + j)) row' 0
      == nth (Z.to_nat (tstart + j)) row 0
         + nth (Z.to_nat (offset + j * u)) w 0 * amp0.
Proof.
  intros H Hu HT Hoff HN Hrows Hfit m row row' w Hrow Hrow' Hw j Hj.
  unfold stamp in H.
  destruct (mapM_nth_error _ _ _ m (m, row) H) as (y & Hy & Hstamp).
  - apply (nth_error_combine_seq X 0 m row Hrow).
  - cbv beta iota in Hstamp.
    rewrite (getitem_nth_error _ _ _ Hw) in Hstamp. cbn [bind] in Hstamp.
    assert (y = row') as -> by congruence.
    rewrite Forall_forall in HN, Hrows.
    eapply stamp_row_adds; eauto.
    + apply Hrows. eapply nth_error_In, Hw.
    + rewrite (HN row) by (eapply nth_error_In, Hrow). exact Hfit.
Qed.

Lemma select_other_label {A} (a : list A) (labels : list Z) (k0 : Z) :
  k0 <> 1%Z -> Forall (eq 1%Z) labels ->
  select a (map (Z.eqb k0) labels) = [].
Proof.
  intros Hk Hall. revert a. induction Hall as [|l labels <- _ IH]; intros a.
  - destruct a; reflexivity.
  - destruct a as [|x a]; [reflexivity|]. simpl.
    replace (k0 =? 1)%Z with false by lia. apply IH.
Qed.

Lemma stamp_other_units (spike_times : list Q) (spike_labels : list Z)
    (waveforms : tensor) (T N u : Z) (ids : list Z) (X : list (list Q)) :
  Forall (eq 1%Z) spike_labels ->
  length spike_times = length spike_labels ->
  Forall (fun k0 => k0 <> 1%Z /\
                    (- Z.of_nat (length (units waveforms)) <= k0 - 1
                     < Z.of_nat (length (units waveforms)))%Z) ids ->
  stamp_spikes spike_times spike_labels ids waveforms T N u X = Ok X.
Proof.
  intros Hall Hlen Hids. unfold stamp_spikes.
  induction Hids as [|k0 ids [Hk Hin] _ IH]; [reflexivity|].
  cbn [foldM].
  destruct (getitem_returns (units waveforms) (k0 - 1) Hin) as [w0 ->].
  cbn [bind]. unfold times_with_label at 1.
  rewrite Hlen, Nat.eqb_refl. cbn [bind].
  rewrite (select_other_label _ _ _ Hk Hall). cbn [foldM bind].
  exact IH.
Qed.

Section SpikeStamps.

Context {R : NumpyRandom}.

(** X22.  One spike of a listed unit whose window fits adds the template
    of its unit to the noise background, sample by sample: at column
    [tstart + j] of channel [m] the trace is the background plus sample
    [frac_offset + j * upsamplefac] of the template's row [m], for every
    [0 <= j < T]. *)
Theorem fitting_spike_adds_its_template :
  forall (t0 : Q) (k0 : Z) (waveforms : tensor) (sampling_frequency : Q)
         (duration : pyvalue) (noise_level : Q) (waveform_upsamplefac : Z)
         (seed : option Z) (g g' : rng) (X : list (list Q))
         (M TT K : nat) (T : Z) (num_timepoints : Q),
    (0 < waveform_upsamplefac)%Z ->
    shape waveforms = (M, TT, K) ->
    Z.of_nat TT = (T * waveform_upsamplefac)%Z ->
    well_formed waveforms ->
    mul_float duration sampling_frequency = Ok num_timepoints ->
    window_fits T (Qtruncate num_timepoints)
      (Qfloor t0 - template_midpoint T) = true ->
    synthesize_timeseries [t0] [k0] [k0] waveforms sampling_frequency
      duration noise_level waveform_upsamplefac seed g = Ok (X, g') ->
    exists X0 waveform0,
      noise_background M (Qtruncate num_timepoints) noise_level seed g
        = Ok (X0, g') /\
      getitem (units waveforms) (k0 - 1) = Ok waveform0 /\
      forall m row0 row w,
        nth_error X0 m = Some row0 -> nth_error X m = Some row ->
        nth_error waveform0 m = Some w ->
        forall j, (0 <= j < T)%Z ->
          nth (Z.to_nat (Qfloor t0 - template_midpoint T + j)) row 0
          == nth (Z.to_nat (Qfloor t0 - template_midpoint T + j)) row0 0
             + nth (Z.to_nat (frac_offset t0 waveform_upsamplefac
                              + j * waveform_upsamplefac)) w 0.
Proof.
  intros t0 k0 waveforms sf duration noise_level u seed g g' X M TT K T
         num_timepoints Hu Hshape HTT Hwf Hmul Hfit H.
  unfold synthesize_timeseries in H. rewrite Hmul in H. cbn [bind] in H.
  unfold well_formed in Hwf. rewrite Hshape in *.
  destruct Hwf as [HK Hunits].
  destruct (template_length_exact TT T u Hu HTT) as [HTl HT].
  rewrite HTl in H. cbn [bind] in H.
  set (N := Qtruncate num_timepoints) in *.
  bind_ok H. destruct a as [X0 g1].
  bind_ok H. apply Ok_inj in H. injection H as <- <-.
  rename E into Hnoise. rename E0 into Hloop.
  unfold stamp_spikes in Hloop. cbn [foldM] in Hloop.
  bind_ok Hloop. apply Ok_inj in Hloop. subst a0.
  bind_ok E. rename a0 into waveform0. rename E0 into Hw0.
  unfold times_with_label in E. cbn [length Nat.eqb map select bind] in E.
  rewrite Z.eqb_refl in E. cbn [select foldM bind] in E.
  cbv zeta in E. rewrite Hfit in E.
  bind_ok E. apply Ok_inj in E. subst a0. rename E0 into Hstamp.
  exists X0, waveform0. split; [reflexivity|]. split; [reflexivity|].
  intros m row0 row w Hrow0 Hrow Hw j Hj.
  pose proof (noise_background_rows _ _ _ _ _ _ _ Hnoise) as HX0.
  apply getitem_In in Hw0.
  rewrite Forall_forall in Hunits. destruct (Hunits _ Hw0) as [_ Hwrows].
  rewrite (stamp_adds _ _ _ _ _ _ _ N _ Hstamp Hu HT
             (frac_offset_bounds t0 u Hu) HX0
             (Forall_impl _ (fun w0 (Hw0 : length w0 = TT) =>
                               eq_trans (f_equal Z.of_nat Hw0) HTT) Hwrows)
             Hfit m row0 row w Hrow0 Hrow Hw j Hj).
  ring.
Qed.

(** X23.  With labels that are all [1] and the unit ids [0 .. K - 1] that
    [toy_example] passes, the compositor does what it does for the single
    unit id [1]: only the template at index [0] is ever added to the
    traces. *)
Theorem only_the_first_template_is_stamped :
  forall (spike_times : list Q) (spike_labels : list Z) (K : Z)
         (waveforms : tensor) (sampling_frequency : Q) (duration : pyvalue)
         (noise_level : Q) (waveform_upsamplefac : Z) (seed : option Z)
         (g : rng),
    (2 <= K)%Z ->
    Z.of_nat (length (units waveforms)) = K ->
    Forall (eq 1%Z) spike_labels ->
    length spike_times = length spike_labels ->
    synthesize_timeseries spike_times spike_labels (range K) waveforms
      sampling_frequency duration noise_level waveform_upsamplefac seed g
    = synthesize_timeseries spike_times spike_labels [1%Z] waveforms
        sampling_frequency duration noise_level waveform_upsamplefac seed g.
Proof.
  intros spike_times spike_labels K waveforms sf duration noise_level u seed g
         HK Hunits Hall Hlen.
  unfold synthesize_timeseries.
  destruct (mul_float duration sf) as [num_timepoints|e]; [|reflexivity].
  cbn [bind]. destruct (shape waveforms) as [[M TT] K0].
  destruct (template_length TT u) as [T|e]; [|reflexivity]. cbn [bind].
  destruct (noise_background M (Qtruncate num_timepoints) noise_level seed g)
    as [[X0 g1]|e]; [|reflexivity].
  cbn [bind]. f_equal.
  set (N := Qtruncate num_timepoints).
  assert (Hrange : range K = 0%Z :: 1%Z :: map (Z.add 2) (range (K - 2))).
  { unfold range. replace (Z.to_nat K) with (S (S (Z.to_nat (K - 2)))) by lia.
    cbn [seq map]. f_equal. f_equal.
    rewrite <- !seq_shift, !map_map. apply map_ext. intros a. lia. }
  rewrite Hrange. unfold stamp_spikes. cbn [foldM].
  destruct (getitem_returns (units waveforms) (0 - 1)) as [w_last ->]; [lia|].
  cbn [bind]. unfold times_with_label at 1. rewrite Hlen, Nat.eqb_refl.
  cbn [bind]. rewrite (select_other_label _ _ 0%Z) by (lia || assumption).
  cbn [foldM bind].
  destruct (getitem (units waveforms) (1 - 1)) as [w_first|e]; [|reflexivity].
  cbn [bind].
  destruct (times_with_label spike_times spike_labels 1) as [times0|e];
    [|reflexivity].
  cbn [bind].
  match goal with
  | |- bind ?c _ = bind ?c _ => destruct c as [X1|e]; [|reflexivity]
  end.
  cbn [bind].
  apply (stamp_other_units spike_times spike_labels waveforms T N u); auto.
  apply Forall_forall. intros k0 Hk0.
  apply in_map_iff in Hk0. destruct Hk0 as (i & <- & Hi).
  apply In_range in Hi. lia.
Qed.

(** X24.  When the generator's variates lie in the unit interval and
    [a <= b], [rand_distr2] returns [num] values between [a] and [b]. *)
Theorem rand_distr2_stays_between_bounds :
  forall (a b : Q) (num : nat) (seed : Z) (X : list Q),
    a <= b ->
    Forall (fun x => 0 <= x <= 1) (fst (rand (seeded seed) num)) ->
    rand_distr2 a b num seed = Ok X ->
    length X = num /\ Forall (fun y => a <= y <= b) X.
Proof.
  intros a b num seed X Hab Hunit H. unfold rand_distr2 in H.
  bind_ok H. apply Ok_inj in H. subst X.
  unfold RandomState in E.
  destruct ((0 <=? seed) && (seed <? 2 ^ 32))%Z; [|discriminate].
  apply Ok_inj in E. subst a0.
  split; [rewrite length_map; apply rand_length|].
  apply Forall_map. revert Hunit. apply Forall_impl.
  intros x [Hx0 Hx1]. rewrite fl_correct.
  assert (Hsq0 : 0 <= x * x) by (apply Qmult_le_0_compat; assumption).
  assert (Hsq1 : x * x <= 1) by nra.
  split; nra.
Qed.

End SpikeStamps.

Lemma fitting_spike_adds_its_template_witness :
  exists X g' X0 waveform0,
    synthesize_timeseries (R := Lcg.generator) [3] [1%Z] [1%Z]
      {| shape := (1%nat, 4%nat, 2%nat);
         units := [[[1; 2; 3; 4]]; [[5; 6; 7; 8]]] |}
      10 (PyNum (PyInt 1)) 10 2 (Some 1%Z) 0%Z = Ok (X, g') /\
    noise_background (R := Lcg.generator) 1 (Qtruncate (inject_Z 1 * 10)) 10
      (Some 1%Z) 0%Z = Ok (X0, g') /\
    getitem [[[1; 2; 3; 4]]; [[5; 6; 7; 8]]] (1 - 1) = Ok waveform0 /\
    forall m row0 row w,
      nth_error X0 m = Some row0 -> nth_error X m = Some row ->
      nth_error waveform0 m = Some w ->
      forall j, (0 <= j < 2)%Z ->
        nth (Z.to_nat (Qfloor 3 - template_midpoint 2 + j)) row 0
        == nth (Z.to_nat (Qfloor 3 - template_midpoint 2 + j)) row0 0
           + nth (Z.to_nat (frac_offset 3 2 + j * 2)) w 0.
Proof.
  eexists. eexists.
  assert (H : synthesize_timeseries (R := Lcg.generator) [3] [1%Z] [1%Z]
                {| shape := (1%nat, 4%nat, 2%nat);
                   units := [[[1; 2; 3; 4]]; [[5; 6; 7; 8]]] |}
                10 (PyNum (PyInt 1)) 10 2 (Some 1%Z) 0%Z = Ok (_, _))
    by (vm_compute; reflexivity).
  assert (Hwf : well_formed
                  {| shape := (1%nat, 4%nat, 2%nat);
                     units := [[[1; 2; 3; 4]]; [[5; 6; 7; 8]]] |})
    by (split; [reflexivity | repeat constructor]).
  assert (Hfit : window_fits 2 (Qtruncate (inject_Z 1 * 10))
                   (Qfloor 3 - template_midpoint 2) = true)
    by (vm_compute; reflexivity).
  assert (Hu : (0 < 2)%Z) by lia.
  destruct (fitting_spike_adds_its_template (R := Lcg.generator)
              3 1%Z
              {| shape := (1%nat, 4%nat, 2%nat);
                 units := [[[1; 2; 3; 4]]; [[5; 6; 7; 8]]] |}
              10 (PyNum (PyInt 1)) 10 2 (Some 1%Z) 0%Z _ _
              1%nat 4%nat 2%nat 2%Z (inject_Z 1 * 10)
              Hu eq_refl eq_refl Hwf eq_refl Hfit H)
    as (X0 & waveform0 & Hnoise & Hw0 & Hadd).
  exists X0, waveform0. split; [exact H|]. split; [exact Hnoise|].
  split; [exact Hw0 | exact Hadd].
Defined.

Lemma only_the_first_template_is_stamped_witness :
  synthesize_timeseries (R := Lcg.generator) [3; 7; 9] [1%Z; 1%Z; 1%Z]
    (range 2)
    {| shape := (1%nat, 4%nat, 2%nat);
       units := [[[1; 2; 3; 4]]; [[5; 6; 7; 8]]] |}
    10 (PyNum (PyInt 1)) 10 2 (Some 1%Z) 0%Z
  = synthesize_timeseries (R := Lcg.generator) [3; 7; 9] [1%Z; 1%Z; 1%Z]
      [1%Z]
      {| shape := (1%nat, 4%nat, 2%nat);
         units := [[[1; 2; 3; 4]]; [[5; 6; 7; 8]]] |}
      10 (PyNum (PyInt 1)) 10 2 (Some 1%Z) 0%Z.
Proof.
  apply (only_the_first_template_is_stamped (R := Lcg.generator)
           [3; 7; 9] [1%Z; 1%Z; 1%Z] 2
           {| shape := (1%nat, 4%nat, 2%nat);
              units := [[[1; 2; 3; 4]]; [[5; 6; 7; 8]]] |}
           10 (PyNum (PyInt 1)) 10 2 (Some 1%Z) 0%Z).
  - lia.
  - reflexivity.
  - repeat constructor.
  - reflexivity.
Defined.

Lemma rand_distr2_stays_between_bounds_witness :
  exists X,
    rand_distr2 (R := Lcg.generator) 120 2400 3 7 = Ok X /\
    length X = 3%nat /\ Forall (fun y => 120 <= y <= 2400) X.
Proof.
  eexists. split; [vm_compute; reflexivity|].
  apply (rand_distr2_stays_between_bounds (R := Lcg.generator) 120 2400 3 7%Z).
  - unfold Qle. simpl. lia.
  - vm_compute. repeat constructor; discriminate.
  - vm_compute. reflexivity.
Defined.
